(** * PublisherAgent: the ad-publishing agent's helpers, embedded and verified

    The development follows [src/adAgent.ts] (with its sibling variant, the
    [publishAd] agent) and [src/s3UploadTool.ts].  JavaScript strings are
    modelled as [string], the bytes of their UTF-8 encoding; numbers as the
    binary64 floating-point numbers of [SpecFloat]; objects used as maps
    ([process.env], the contract call arguments) as [gmap string string];
    promises by their settled state; [try]/[catch],
    [process.exit] and the calls made on external capabilities (the wallet,
    the agent session, the storage service, the console) by a small
    state-and-exception monad.  Where [console.error] is given a caught
    value after its text, the console keeps the text. *)

From Stdlib Require Import ZArith SpecFloat Ascii List.
From stdpp Require Import base tactics option list strings gmap pretty.

(** ** JavaScript strings *)

Module Js.

(** The line feed written [\n] inside a template literal. *)
Definition LF : string := String (ascii_of_nat 10) "".

(** [toLowerCase] on one byte: the letters A to Z are lowered, the bytes of a
    character outside the ASCII range are kept.  The code compares a lowered
    text with "exit", "chat", "auto", "1" and "2" only; the one character
    outside the ASCII range whose lower case is an ASCII letter alone is the
    Kelvin sign, lowered to k, which none of these words contains. *)
Definition lower_char (c : ascii) : ascii :=
  let n := nat_of_ascii c in
  if (65 <=? n)%nat && (n <=? 90)%nat then ascii_of_nat (n + 32) else c.

(** [s.toLowerCase()]. *)
Fixpoint toLowerCase (s : string) : string :=
  match s with
  | EmptyString => EmptyString
  | String c s' => String (lower_char c) (toLowerCase s')
  end.

(** [trim] removes the white space and the line terminators of ECMAScript
    from both ends.  Those of one byte: TAB, LF, VT, FF, CR and the space. *)
Definition is_ascii_space (c : ascii) : bool :=
  let n := nat_of_ascii c in
  ((9 <=? n)%nat && (n <=? 13)%nat) || (n =? 32)%nat.

(** The one of two bytes: the no-break space U+00A0, encoded C2 A0. *)
Definition is_space2 (a b : ascii) : bool :=
  (nat_of_ascii a =? 194)%nat && (nat_of_ascii b =? 160)%nat.

(** Those of three bytes: U+1680 (E1 9A 80); U+2000 to U+200A (E2 80 80 to
    E2 80 8A); the line and paragraph separators U+2028 and U+2029
    (E2 80 A8, E2 80 A9); U+202F (E2 80 AF); U+205F (E2 81 9F); U+3000
    (E3 80 80); and the byte order mark U+FEFF (EF BB BF). *)
Definition is_space3 (a b c : ascii) : bool :=
  let x := nat_of_ascii a in
  let y := nat_of_ascii b in
  let z := nat_of_ascii c in
  ((x =? 225) && (y =? 154) && (z =? 128))%nat
  || ((x =? 226) && (y =? 128)
      && (((128 <=? z) && (z <=? 138)) || (z =? 168) || (z =? 169)
          || (z =? 175)))%nat
  || ((x =? 226) && (y =? 129) && (z =? 159))%nat
  || ((x =? 227) && (y =? 128) && (z =? 128))%nat
  || ((x =? 239) && (y =? 187) && (z =? 191))%nat.

(** [s.trimStart()]: the string from its first character that is not white
    space. *)
Fixpoint trimStart (s : string) : string :=
  match s with
  | EmptyString => EmptyString
  | String a s1 =>
      if is_ascii_space a then trimStart s1 else
      match s1 with
      | EmptyString => s
      | String b s2 =>
          if is_space2 a b then trimStart s2 else
          match s2 with
          | EmptyString => s
          | String c s3 => if is_space3 a b c then trimStart s3 else s
          end
      end
  end.

(** [s.trimEnd()]: the string up to the point from which only white space
    follows. *)
Fixpoint trimEnd (s : string) : string :=
  match s with
  | EmptyString => EmptyString
  | String c s' =>
      match trimStart s with
      | EmptyString => EmptyString
      | _ => String c (trimEnd s')
      end
  end.

(** [s.trim()]. *)
Definition trim (s : string) : string := trimEnd (trimStart s).

(** [s.startsWith(p)]. *)
Fixpoint startsWith (s p : string) : bool :=
  match p, s with
  | EmptyString, _ => true
  | String a p', String b s' => bool_decide (a = b) && startsWith s' p'
  | String _ _, EmptyString => false
  end.

(** [s.includes(sub)]. *)
Fixpoint includes (s sub : string) : bool :=
  startsWith s sub ||
  match s with
  | EmptyString => false
  | String _ s' => includes s' sub
  end.

(** Truthiness of a value that is a string or [undefined]: only a
    non-empty string is truthy. *)
Definition truthy (v : option string) : bool :=
  match v with
  | Some (String _ _) => true
  | _ => false
  end.

(** A string-or-[undefined] value inside a template literal. *)
Definition interpolate (v : option string) : string :=
  match v with
  | Some s => s
  | None => "undefined"
  end.

(** What a [throw] carries: an [Error] with its [message], or any other
    value. *)
Inductive Thrown : Type :=
| ErrorObject (message : string)
| NonError (shown : string).

(** [e instanceof Error]. *)
Definition instanceofError (e : Thrown) : bool :=
  match e with
  | ErrorObject _ => true
  | NonError _ => false
  end.

(** [e.message] of a caught [Error]. *)
Definition message (e : Thrown) : string :=
  match e with
  | ErrorObject m => m
  | NonError _ => "undefined"
  end.

(** A promise, observed once it has settled. *)
Inductive Settled (A : Type) : Type :=
| Fulfilled (a : A)
| Rejected (e : Thrown).
Global Arguments Fulfilled {A} a.
Global Arguments Rejected {A} e.

End Js.

(** ** JavaScript numbers *)

Module Number.

(** The binary64 format: 53 bits of precision, exponents below 1024.  The
    finite number [S754_finite s m e] is (-1)^s * m * 2^e. *)
Definition prec : Z := 53.
Definition emax : Z := 1024.

(** [x * y]: the product, rounded to the nearest number of the format, and
    to the one of even mantissa when two are as near. *)
Definition mul (x y : spec_float) : spec_float := SFmul prec emax x y.

(** The literal [10000], which is 5497558138880000 * 2^-39. *)
Definition ten_thousand : spec_float :=
  S754_finite false 5497558138880000 (-39).

(** What [Math.random()] may give: a number of the format, of positive
    sign, at least 0 and below 1. *)
Definition in_unit_interval (x : spec_float) : bool :=
  match x with
  | S754_zero false => true
  | S754_finite false m e => bounded prec emax m e && (e <=? - prec)%Z
  | _ => false
  end.

Record Random : Type := {
  value : spec_float;
  value_in_unit_interval : in_unit_interval value = true;
}.

(** [Math.floor(x)] of a number that is neither infinite nor NaN: the
    integer part of (-1)^s * m * 2^e, a shift of the signed mantissa. *)
Definition floor (x : spec_float) : option Z :=
  match x with
  | S754_zero _ => Some 0%Z
  | S754_finite s m e => Some (Z.shiftl (cond_Zopp s (Z.pos m)) e)
  | S754_infinity _ | S754_nan => None
  end.

(** [Math.floor(x)] as a template literal shows it: the decimal digits of
    the integer (so it is for every integer below 10^21 in size, and a
    product of a number below 1 by 10000 is below 10000), or the name of the
    value that is not finite. *)
Definition floor_text (x : spec_float) : string :=
  match floor x with
  | Some n => pretty n
  | None =>
      match x with
      | S754_infinity false => "Infinity"
      | S754_infinity true => "-Infinity"
      | _ => "NaN"
      end
  end.

(** The number 108987110982366 / 2^53, which is 6975175102871424 * 2^-59. *)
Definition near_121_ten_thousandths : Random :=
  {| value := S754_finite false 6975175102871424 (-59);
     value_in_unit_interval := eq_refl |}.

End Number.

(** ** Computations with a store, exceptions and [process.exit] *)

(** How a computation ends: it returns, it throws, the process exits, or it
    stays pending on an input that does not come. *)
Inductive Outcome (A : Type) : Type :=
| Returned (a : A)
| Threw (e : Js.Thrown)
| Exited (code : Z)
| Pending.
Global Arguments Returned {A} a.
Global Arguments Threw {A} e.
Global Arguments Exited {A} code.
Global Arguments Pending {A}.

Definition Eff (S A : Type) : Type := S → Outcome A * S.

Section Eff.
Context {S : Type}.

Definition eff_ret {A} (a : A) : Eff S A := λ s, (Returned a, s).

Definition eff_bind {A B} (f : A → Eff S B) (m : Eff S A) : Eff S B :=
  λ s, match m s with
       | (Returned a, s') => f a s'
       | (Threw e, s') => (Threw e, s')
       | (Exited c, s') => (Exited c, s')
       | (Pending, s') => (Pending, s')
       end.

(** [throw e]. *)
Definition throw {A} (e : Js.Thrown) : Eff S A := λ s, (Threw e, s).

(** [process.exit(code)]. *)
Definition process_exit {A} (code : Z) : Eff S A := λ s, (Exited code, s).

(** A computation that waits for ever. *)
Definition pending {A} : Eff S A := λ s, (Pending, s).

(** [try { body } catch (error) { handler }]: an exit is not caught. *)
Definition try_catch {A} (body : Eff S A) (handler : Js.Thrown → Eff S A)
  : Eff S A :=
  λ s, match body s with
       | (Threw e, s') => handler e s'
       | r => r
       end.

(** [await p] for a promise that has settled. *)
Definition await {A} (p : Js.Settled A) : Eff S A :=
  match p with
  | Js.Fulfilled a => eff_ret a
  | Js.Rejected e => throw e
  end.

Definition modify (f : S → S) : Eff S unit := λ s, (Returned tt, f s).
End Eff.

Global Instance eff_mret {S} : MRet (Eff S) := @eff_ret S.
Global Instance eff_mbind {S} : MBind (Eff S) := @eff_bind S.

(** ** The contract invoker *)

(** [AbiInputOutput] and [AbiFunction], as the zod schemas declare them. *)
Record AbiInputOutput : Type := {
  io_name : string;
  io_type : string;
}.

Record AbiFunction : Type := {
  name : string;
  type : string;
  inputs : list AbiInputOutput;
  outputs : option (list AbiInputOutput);
  stateMutability : option string;
}.

(** The wallet capability of the SDK, as far as the invoker uses it. *)
Module Sdk.

Record InvokeContractOptions : Type := {
  contractAddress : string;
  method : string;
  args : gmap string string;
  abi : list AbiFunction;
}.

Record Receipt : Type := {
  getTransactionHash : option string;
}.

Record ContractInvocation : Type := {
  wait : Js.Settled Receipt;
}.

Record Wallet : Type := {
  invokeContract : InvokeContractOptions → Js.Settled ContractInvocation;
}.

(** The submissions a wallet has received, oldest first. *)
Definition Log : Type := list InvokeContractOptions.

(** [await wallet.invokeContract(options)], recorded in the log. *)
Definition submit (wallet : Wallet) (options : InvokeContractOptions)
  : Eff Log ContractInvocation :=
  _ ← modify (λ log : Log, log ++ [options]);
  await (invokeContract wallet options).

End Sdk.

(** The string literals of [invokeContract]. *)
Definition NO_HASH_MESSAGE : string :=
  "Contract invocation completed, but transaction hash is not available".

Definition UNKNOWN_ERROR_MESSAGE : string :=
  "Failed to publish ad due to an unknown error".

Definition EXPLORER_TX_URL : string := "https://sepolia.basescan.org/tx/".

Definition OPENSEA_URL : string := "https://testnets.opensea.io/".

(** [invokeContract] of [src/adAgent.ts] (the [createAd] agent). *)
Definition invokeContract (wallet : Sdk.Wallet)
    (contractAddress method : string) (abi : list AbiFunction)
    (args : gmap string string) : Eff Sdk.Log string :=
  try_catch
    (let methodAbi := List.find (λ func, bool_decide (name func = method)) abi in
     _ ← (if methodAbi is None
          then throw (Js.ErrorObject ("Method " +:+ method +:+ " not found in ABI"))
          else mret tt);
     contractInvocation ← Sdk.submit wallet
       {| Sdk.contractAddress := contractAddress; Sdk.method := method;
          Sdk.args := args; Sdk.abi := abi |};
     receipt ← await (Sdk.wait contractInvocation);
     let txHash := Sdk.getTransactionHash receipt in
     if negb (Js.truthy txHash) then mret NO_HASH_MESSAGE
     else mret ("Ad Created successfully. Transaction hash: "
                +:+ EXPLORER_TX_URL +:+ Js.interpolate txHash
                +:+ " " +:+ Js.LF +:+ " " +:+ OPENSEA_URL
                +:+ Js.interpolate (args !! "to")))
    (λ error,
       if Js.instanceofError error
       then mret ("Failed to publish ad: " +:+ Js.message error)
       else mret UNKNOWN_ERROR_MESSAGE).

(** [invokeContract] of the [publishAd] agent: the same steps, another
    success message. *)
Module PublishAd.

Definition invokeContract (wallet : Sdk.Wallet)
    (contractAddress method : string) (abi : list AbiFunction)
    (args : gmap string string) : Eff Sdk.Log string :=
  try_catch
    (let methodAbi := List.find (λ func, bool_decide (name func = method)) abi in
     _ ← (if methodAbi is None
          then throw (Js.ErrorObject ("Method " +:+ method +:+ " not found in ABI"))
          else mret tt);
     contractInvocation ← Sdk.submit wallet
       {| Sdk.contractAddress := contractAddress; Sdk.method := method;
          Sdk.args := args; Sdk.abi := abi |};
     receipt ← await (Sdk.wait contractInvocation);
     let txHash := Sdk.getTransactionHash receipt in
     if negb (Js.truthy txHash) then mret NO_HASH_MESSAGE
     else mret ("Ad published successfully. Transaction hash: "
                +:+ EXPLORER_TX_URL +:+ Js.interpolate txHash))
    (λ error,
       if Js.instanceofError error
       then mret ("Failed to publish ad: " +:+ Js.message error)
       else mret UNKNOWN_ERROR_MESSAGE).

End PublishAd.

(** *** Paths through the invoker, in the words of its contract *)

(** The options object handed to [wallet.invokeContract]. *)
Definition submission (contractAddress method : string)
    (abi : list AbiFunction) (args : gmap string string)
  : Sdk.InvokeContractOptions :=
  {| Sdk.contractAddress := contractAddress; Sdk.method := method;
     Sdk.args := args; Sdk.abi := abi |}.

(** Some entry of the ABI list carries the method name. *)
Definition method_present (method : string) (abi : list AbiFunction) : Prop :=
  ∃ func, func ∈ abi ∧ name func = method.

(** The submission or the confirmation of a call throws [e]. *)
Definition submission_throws (wallet : Sdk.Wallet)
    (options : Sdk.InvokeContractOptions) (e : Js.Thrown) : Prop :=
  Sdk.invokeContract wallet options = Js.Rejected e ∨
  ∃ invocation, Sdk.invokeContract wallet options = Js.Fulfilled invocation ∧
                Sdk.wait invocation = Js.Rejected e.

(** The call is submitted and confirmed, and its receipt answers [txHash]
    to [getTransactionHash]. *)
Definition submission_confirms (wallet : Sdk.Wallet)
    (options : Sdk.InvokeContractOptions) (txHash : option string) : Prop :=
  ∃ invocation receipt,
    Sdk.invokeContract wallet options = Js.Fulfilled invocation ∧
    Sdk.wait invocation = Js.Fulfilled receipt ∧
    Sdk.getTransactionHash receipt = txHash.

(** One of the three failure paths is taken: the method lookup fails, the
    submission is rejected, or the confirmation is rejected. *)
Definition failure_path (wallet : Sdk.Wallet) (contractAddress method : string)
    (abi : list AbiFunction) (args : gmap string string) : bool :=
  match List.find (λ func, bool_decide (name func = method)) abi with
  | None => true
  | Some _ =>
      match Sdk.invokeContract wallet
              (submission contractAddress method abi args) with
      | Js.Rejected _ => true
      | Js.Fulfilled invocation =>
          match Sdk.wait invocation with
          | Js.Rejected _ => true
          | Js.Fulfilled _ => false
          end
      end
  end.

(** *** The contract surface and a wallet stub *)

(** [AD_CONTRACT_ADDRESS] and [AD_CONTRACT_ABI] of [src/adAgent.ts]. *)
Definition AD_CONTRACT_ADDRESS : string :=
  "0xF714043eE1176B16dd6C9E9beB260D6b4D8eab95".

Definition AD_CONTRACT_ABI : list AbiFunction :=
  [ {| inputs := [ {| io_name := "to"; io_type := "address" |};
                   {| io_name := "title"; io_type := "string" |};
                   {| io_name := "text"; io_type := "string" |};
                   {| io_name := "imageURL"; io_type := "string" |} ];
       name := "createAd";
       outputs := Some [ {| io_name := ""; io_type := "uint256" |} ];
       stateMutability := Some "nonpayable";
       type := "function" |} ].

(** A wallet whose every submission is confirmed by a receipt with the given
    transaction hash. *)
Definition stub_wallet (txHash : option string) : Sdk.Wallet :=
  {| Sdk.invokeContract := λ _,
       Js.Fulfilled
         {| Sdk.wait := Js.Fulfilled {| Sdk.getTransactionHash := txHash |} |} |}.

(** A wallet whose every submission is rejected with the given value. *)
Definition failing_wallet (e : Js.Thrown) : Sdk.Wallet :=
  {| Sdk.invokeContract := λ _, Js.Rejected e |}.

(** The arguments of the specification's example call. *)
Definition example_args : gmap string string :=
  <[ "to" := "0xabc..." ]> (<[ "title" := "T" ]> (<[ "text" := "X" ]>
    (<[ "imageURL" := "https://s3/..." ]> ∅))).

(** ** The console *)

(** One write on the console: [console.log], [console.error],
    [console.warn], or the prompt that [rl.question] prints. *)
Inductive ConsoleLine : Type :=
| Log (text : string)
| Error (text : string)
| Warn (text : string)
| Prompt (text : string).

Global Instance ConsoleLine_eq_dec : EqDecision ConsoleLine.
Proof. solve_decision. Defined.

Definition Console : Type := list ConsoleLine.

Definition console_error (text : string) : Eff Console unit :=
  modify (λ out : Console, out ++ [Error text]).

Definition console_warn (text : string) : Eff Console unit :=
  modify (λ out : Console, out ++ [Warn text]).

(** [items.forEach(f)]. *)
Fixpoint forEach {S A} (items : list A) (f : A → Eff S unit) : Eff S unit :=
  match items with
  | [] => mret tt
  | item :: items' => _ ← f item; forEach items' f
  end.

(** ** Startup validation *)

Definition requiredVars : list string :=
  [ "OPENAI_API_KEY"; "CDP_API_KEY_NAME"; "CDP_API_KEY_PRIVATE_KEY" ].

(** The line printed for a variable that is not set. *)
Definition missing_line (varName : string) : string :=
  varName +:+ "=your_" +:+ Js.toLowerCase varName +:+ "_here".

(** [validateEnvironment], on [process.env]. *)
Definition validateEnvironment (env : gmap string string) : Eff Console unit :=
  let missingVars :=
    foldl (λ missingVars varName,
             if negb (Js.truthy (env !! varName))
             then missingVars ++ [varName]
             else missingVars)
          [] requiredVars in
  _ ← (if (0 <? length missingVars)%nat
       then
         _ ← console_error "Error: Required environment variables are not set";
         _ ← forEach missingVars (λ varName, console_error (missing_line varName));
         process_exit 1
       else mret tt);
  if negb (Js.truthy (env !! "NETWORK_ID"))
  then console_warn
         "Warning: NETWORK_ID not set, defaulting to base-sepolia testnet"
  else mret tt.

(** A required variable is missing when [!process.env[varName]] holds: it is
    not set, or it is set to the empty string. *)
Definition missing (env : gmap string string) (varName : string) : Prop :=
  env !! varName = None ∨ env !! varName = Some "".

Global Instance missing_dec env varName : Decision (missing env varName).
Proof. unfold missing. apply _. Defined.

(** The variable is named in the listing on the console. *)
Definition listed (out : Console) (varName : string) : Prop :=
  Error (missing_line varName) ∈ out.

(** ** Initialization *)

Definition WALLET_DATA_FILE : string := "wallet_data.txt".

(** The options passed to [CdpAgentkit.configureWithWallet]. *)
Record AgentkitConfig : Type := {
  cdpWalletData : option string;
  networkId : string;
}.

(** The options of the image tool. *)
Record DallEOptions : Type := {
  dalle_n : nat;
  dalle_model : string;
  dalle_apiKey : option string;
}.

(** The wallet data file: absent, readable, or failing on read. *)
Definition FileSystem : Type := gmap string (Js.Settled string).

(** The configuration step of [initializeAgent]: the wallet data read from
    the file when it exists, the options for the agent kit and for the image
    tool. *)
Definition initializeAgent_config (env : gmap string string) (fs : FileSystem)
  : Eff Console (AgentkitConfig * DallEOptions) :=
  walletDataStr ←
    match fs !! WALLET_DATA_FILE with
    | Some file =>
        try_catch
          (content ← await file; mret (Some content))
          (λ error,
             _ ← console_error "Error reading wallet data:";
             mret None)
    | None => mret None
    end;
  let config :=
    {| cdpWalletData := if Js.truthy walletDataStr then walletDataStr else None;
       networkId := "base-sepolia" |} in
  let dallETool :=
    {| dalle_n := 1; dalle_model := "dall-e-3";
       dalle_apiKey := env !! "OPENAI_API_KEY" |} in
  mret (config, dallETool).

(** The network of an optional [NETWORK_ID] with a default: the variable
    when it is set, the test network otherwise. *)
Definition expected_networkId (env : gmap string string) : string :=
  match env !! "NETWORK_ID" with
  | Some (String c id) => String c id
  | _ => "base-sepolia"
  end.

(** ** The interaction shell *)

(** A fragment of a streamed response: what the loop prints for it. *)
Inductive Chunk : Type :=
| AgentChunk (content : string)
| ToolsChunk (content : string)
| OtherChunk.

(** The agent session: the response to a message, given the messages the
    session has received before it (its memory), when the stream opens;
    a rejection when it does not. *)
Definition Agent : Type := list string → string → Js.Settled (list Chunk).

(** What the shell has done: its writes on the console, the messages it has
    forwarded to the agent session, oldest first, and whether its readline
    interface has been closed. *)
Record Shell : Type := {
  console : Console;
  forwarded : list string;
  rl_closed : bool;
}.

Definition shell_start : Shell :=
  {| console := []; forwarded := []; rl_closed := false |}.

Definition shell_write (line : ConsoleLine) : Eff Shell unit :=
  modify (λ sh, {| console := console sh ++ [line];
                   forwarded := forwarded sh;
                   rl_closed := rl_closed sh |}).

(** [rl.close()]. *)
Definition rl_close : Eff Shell unit :=
  modify (λ sh, {| console := console sh;
                   forwarded := forwarded sh;
                   rl_closed := true |}).

(** [await agent.stream({ messages: [new HumanMessage(text)] }, config)]. *)
Definition agent_stream (agent : Agent) (text : string)
  : Eff Shell (list Chunk) :=
  λ sh,
    await (agent (forwarded sh) text)
      {| console := console sh;
         forwarded := forwarded sh ++ [text];
         rl_closed := rl_closed sh |}.

(** [try { body } finally { finalizer }]: the finalizer does not run once
    the process has exited, nor while the body is pending. *)
Definition try_finally {S A} (body : Eff S A) (finalizer : Eff S unit)
  : Eff S A :=
  λ s, match body s with
       | (Exited c, s') => (Exited c, s')
       | (Pending, s') => (Pending, s')
       | (r, s') =>
           match finalizer s' with
           | (Returned _, s'') => (r, s'')
           | (Threw e, s'') => (Threw e, s'')
           | (Exited c, s'') => (Exited c, s'')
           | (Pending, s'') => (Pending, s'')
           end
       end.

(** The body of the [for await] loop over the chunks of a response. *)
Definition print_chunk (chunk : Chunk) : Eff Shell unit :=
  _ ← match chunk with
      | AgentChunk content => shell_write (Log content)
      | ToolsChunk content => shell_write (Log content)
      | OtherChunk => mret tt
      end;
  shell_write (Log "-------------------").

(** The [while (true)] loop of [runChatMode], over the lines typed: once
    they are used up, the loop waits on its prompt. *)
Fixpoint chat_loop (agent : Agent) (lines : list string) : Eff Shell unit :=
  _ ← shell_write (Prompt (Js.LF +:+ "Prompt: "));
  match lines with
  | [] => pending
  | userInput :: lines' =>
      if bool_decide (Js.toLowerCase userInput = "exit")
      then mret tt
      else
        stream ← agent_stream agent userInput;
        _ ← forEach stream print_chunk;
        chat_loop agent lines'
  end.

(** [runChatMode], over the lines typed. *)
Definition runChatMode (agent : Agent) (lines : list string)
  : Eff Shell unit :=
  _ ← shell_write (Log "Starting chat mode... Type 'exit' to end.");
  try_finally
    (try_catch (chat_loop agent lines)
       (λ error,
          _ ← (if Js.instanceofError error
               then shell_write (Error ("Error: " +:+ Js.message error))
               else mret tt);
          process_exit 1))
    rl_close.

(** The modes ["chat"] and ["auto"]. *)
Inductive Mode : Type := Chat | Auto.

(** [chooseMode], over the lines typed: the mode chosen and the lines left. *)
Fixpoint chooseMode (lines : list string) : Eff Shell (Mode * list string) :=
  _ ← shell_write (Log (Js.LF +:+ "Available modes:"));
  _ ← shell_write (Log "1. chat    - Interactive chat mode");
  _ ← shell_write (Log "2. auto    - Autonomous action mode");
  _ ← shell_write (Prompt (Js.LF +:+ "Choose a mode (enter number or name): "));
  match lines with
  | [] => pending
  | line :: lines' =>
      let choice := Js.trim (Js.toLowerCase line) in
      if bool_decide (choice = "1") || bool_decide (choice = "chat")
      then _ ← rl_close; mret (Chat, lines')
      else if bool_decide (choice = "2") || bool_decide (choice = "auto")
      then _ ← rl_close; mret (Auto, lines')
      else
        _ ← shell_write (Log "Invalid choice. Please try again.");
        chooseMode lines'
  end.

(** An upper-case letter of the ASCII range. *)
Definition is_upper (c : ascii) : bool :=
  (65 <=? nat_of_ascii c)%nat && (nat_of_ascii c <=? 90)%nat.

(** The same character, or the upper-case and the lower-case form of one
    letter. *)
Definition same_letter (a b : ascii) : Prop :=
  a = b ∨
  (is_upper a = true ∧ nat_of_ascii b = (nat_of_ascii a + 32)%nat) ∨
  (is_upper b = true ∧ nat_of_ascii a = (nat_of_ascii b + 32)%nat).

(** The input equals [word] up to the case of its letters. *)
Fixpoint equal_up_to_case (input word : string) : Prop :=
  match input, word with
  | EmptyString, EmptyString => True
  | String a input', String b word' =>
      same_letter a b ∧ equal_up_to_case input' word'
  | _, _ => False
  end.

(** The loop of [runChatMode] gets past the lines [before]: none of them is
    the exit word, and the agent opens a stream for each, the session having
    received [history] before them. *)
Fixpoint gets_past (agent : Agent) (history before : list string) : bool :=
  match before with
  | [] => true
  | line :: before' =>
      negb (bool_decide (Js.toLowerCase line = "exit")) &&
      (if agent history line is Js.Fulfilled _ then true else false) &&
      gets_past agent (history ++ [line]) before'
  end.

(** An agent that answers every message by repeating it. *)
Definition echo_agent : Agent :=
  λ _ text, Js.Fulfilled [AgentChunk text].

(** Every character of the string is white space. *)
Fixpoint all_space (s : string) : bool :=
  match s with
  | EmptyString => true
  | String a s1 =>
      if Js.is_ascii_space a then all_space s1 else
      match s1 with
      | EmptyString => false
      | String b s2 =>
          if Js.is_space2 a b then all_space s2 else
          match s2 with
          | EmptyString => false
          | String c s3 => Js.is_space3 a b c && all_space s3
          end
      end
  end.

(** The no-break space U+00A0 and the ideographic space U+3000, in UTF-8. *)
Definition no_break_space : string :=
  String (ascii_of_nat 194) (String (ascii_of_nat 160) "").

Definition ideographic_space : string :=
  String (ascii_of_nat 227)
    (String (ascii_of_nat 128) (String (ascii_of_nat 128) "")).

(** Every character of the string is of the ASCII range and is not white
    space. *)
Fixpoint plain (s : string) : bool :=
  match s with
  | EmptyString => true
  | String c s' =>
      (nat_of_ascii c <? 128)%nat && negb (Js.is_ascii_space c) && plain s'
  end.

(** ** The object-storage uploader *)

Module S3.

(** The parameters of [s3.upload]. *)
Record UploadParams : Type := {
  Bucket : string;
  Key : string;
  Body : string;
  ContentType : string;
}.

End S3.

(** What one call of the uploader meets outside: the answer of [axios.get],
    the clock and the random generator at the time the key is made, and the
    answer of the storage service.  [Date.now()] is a whole number of
    milliseconds, which a template literal shows by its decimal digits. *)
Record Outside : Type := {
  axios_get : string → Js.Settled string;
  Date_now : Z;
  Math_random : Number.Random;
  s3_upload : S3.UploadParams → Js.Settled unit;
}.

(** What the uploader has done: the objects it has asked the storage service
    to write, oldest first, and its writes on the console. *)
Record Uploads : Type := {
  written : list S3.UploadParams;
  upload_console : Console;
}.

Definition uploads_start : Uploads :=
  {| written := []; upload_console := [] |}.

(** [await s3.upload(params).promise()], recorded. *)
Definition s3_upload_promise (world : Outside) (params : S3.UploadParams)
  : Eff Uploads unit :=
  _ ← modify (λ u, {| written := written u ++ [params];
                      upload_console := upload_console u |});
  await (s3_upload world params).

(** [Math.random() * 10000], a product of two numbers of the binary64
    format. *)
Definition random_product (world : Outside) : spec_float :=
  Number.mul (Number.value (Math_random world)) Number.ten_thousand.

(** The random number of a call, as its key shows it:
    [Math.floor(Math.random() * 10000)] in the template literal. *)
Definition random_suffix (world : Outside) : string :=
  Number.floor_text (random_product world).

(** The key of the object, as the template literal of [uploadImageUrlToS3]
    builds it from [Date.now()] and [Math.random()]. *)
Definition objectKey (world : Outside) : string :=
  "ad-images/" +:+ pretty (Date_now world) +:+ "-" +:+ random_suffix world
  +:+ ".png".

(** [uploadImageUrlToS3]. *)
Definition uploadImageUrlToS3 (world : Outside) (imageUrl : string)
  : Eff Uploads string :=
  try_catch
    (response ← await (axios_get world imageUrl);
     let fileBuffer := response in
     let objectKey := objectKey world in
     uploadResult ← s3_upload_promise world
       {| S3.Bucket := "placeholderads"; S3.Key := objectKey;
          S3.Body := fileBuffer; S3.ContentType := "image/png" |};
     let s3Url :=
       "https://placeholderads.s3.ap-south-1.amazonaws.com/" +:+ objectKey in
     mret s3Url)
    (λ error,
       _ ← modify (λ u, {| written := written u;
                           upload_console :=
                             upload_console u ++ [Error "Error uploading to S3:"] |});
       throw (Js.ErrorObject
                ("S3 upload failed: " +:+
                 (if Js.instanceofError error then Js.message error
                  else "Unknown error")))).

(** The keys of the objects a call has asked the storage service to write. *)
Definition keys_written (u : Uploads) : list string :=
  S3.Key <$> written u.

(** The numbers of the binary64 format nearest to 0.12341 and to 0.12349:
    8892627680220687 * 2^-56 and 8898392287743721 * 2^-56. *)
Definition random_12341 : Number.Random :=
  {| Number.value := S754_finite false 8892627680220687 (-56);
     Number.value_in_unit_interval := eq_refl |}.

Definition random_12349 : Number.Random :=
  {| Number.value := S754_finite false 8898392287743721 (-56);
     Number.value_in_unit_interval := eq_refl |}.

(** Two calls made at the same millisecond with random numbers that fall in
    the same ten-thousandth. *)
Definition colliding_first : Outside :=
  {| axios_get := λ _, Js.Fulfilled "PNG";
     Date_now := 1700000000000;
     Math_random := random_12341;
     s3_upload := λ _, Js.Fulfilled tt |}.

Definition colliding_second : Outside :=
  {| axios_get := λ _, Js.Fulfilled "PNG";
     Date_now := 1700000000000;
     Math_random := random_12349;
     s3_upload := λ _, Js.Fulfilled tt |}.

(** ** Environments used as examples *)

(** The language-model key is set, one wallet credential is set to the empty
    string, the other is not set. *)
Definition env_two_missing : gmap string string :=
  <[ "OPENAI_API_KEY" := "sk-test" ]> (<[ "CDP_API_KEY_NAME" := "" ]> ∅).

(** Every required variable is set, and [NETWORK_ID] names the main
    network. *)
Definition env_mainnet : gmap string string :=
  <[ "OPENAI_API_KEY" := "sk-test" ]> (<[ "CDP_API_KEY_NAME" := "name" ]>
    (<[ "CDP_API_KEY_PRIVATE_KEY" := "key" ]>
       (<[ "NETWORK_ID" := "base-mainnet" ]> ∅))).

(** The string has no dash, the character that separates the time from the
    random number in a key. *)
Fixpoint no_dash (s : string) : bool :=
  match s with
  | EmptyString => true
  | String c s' => negb (bool_decide (c = "-"%char)) && no_dash s'
  end.

(** A call made one millisecond after [colliding_first], with the same
    random number. *)
Definition later_call : Outside :=
  {| axios_get := λ _, Js.Fulfilled "PNG";
     Date_now := 1700000000001;
     Math_random := random_12341;
     s3_upload := λ _, Js.Fulfilled tt |}.

(** ** The contract tools *)

(** The [create_ad] tool of [src/adAgent.ts]: its parameters, as the schema
    [InvokeContractInput] declares them, and its handler. *)
Module CreateAd.

Record Args : Type := {
  to : string;
  text : string;
  title : string;
  imageURL : string;
}.

Record Params : Type := {
  args : Args;
}.

(** The [args] object, as the map [invokeContract] receives. *)
Definition args_object (a : Args) : gmap string string :=
  <[ "to" := to a ]> (<[ "text" := text a ]> (<[ "title" := title a ]>
    (<[ "imageURL" := imageURL a ]> ∅))).

(** The [func] of the tool. *)
Definition func (wallet : Sdk.Wallet) (params : Params)
  : Eff Sdk.Log string :=
  invokeContract wallet AD_CONTRACT_ADDRESS "createAd" AD_CONTRACT_ABI
    (args_object (args params)).

End CreateAd.

(** The [publish_ad] tool of the [publishAd] agent, with its own contract
    address and ABI. *)
Module PublishAdTool.

Definition AD_CONTRACT_ADDRESS : string :=
  "0x1f169173e8E54b65b4cd321217443E1919728e3c".

Definition AD_CONTRACT_ABI : list AbiFunction :=
  [ {| inputs := [ {| io_name := "to"; io_type := "address" |};
                   {| io_name := "text"; io_type := "string" |} ];
       name := "publishAd";
       outputs := Some [ {| io_name := ""; io_type := "uint256" |} ];
       stateMutability := Some "nonpayable";
       type := "function" |} ].

Record Args : Type := {
  to : string;
  text : string;
}.

Record Params : Type := {
  args : Args;
}.

Definition args_object (a : Args) : gmap string string :=
  <[ "to" := to a ]> (<[ "text" := text a ]> ∅).

(** The [func] of the tool. *)
Definition func (wallet : Sdk.Wallet) (params : Params)
  : Eff Sdk.Log string :=
  PublishAd.invokeContract wallet AD_CONTRACT_ADDRESS "publishAd"
    AD_CONTRACT_ABI (args_object (args params)).

End PublishAdTool.

(** The [upload_to_s3] tool of [src/s3UploadTool.ts]: its handler leaves
    the wallet it is given unused. *)
Module S3UploadTool.

Record Params : Type := {
  dallEImageUrl : string;
}.

Definition func (world : Outside) (wallet : Sdk.Wallet) (params : Params)
  : Eff Uploads string :=
  s3Url ← uploadImageUrlToS3 world (dallEImageUrl params);
  mret s3Url.

End S3UploadTool.

(** ** What the shell prints and accepts *)

(** The writes of the [for await] loop for one chunk. *)
Definition chunk_lines (chunk : Chunk) : Console :=
  match chunk with
  | AgentChunk content => [Log content; Log "-------------------"]
  | ToolsChunk content => [Log content; Log "-------------------"]
  | OtherChunk => [Log "-------------------"]
  end.

(** The console of a chat over the lines typed, for a session that has
    received [history]: the prompt, then the chunks of the answer. *)
Fixpoint chat_transcript (agent : Agent) (history lines : list string)
  : Console :=
  match lines with
  | [] => []
  | line :: lines' =>
      Prompt (Js.LF +:+ "Prompt: ")
      :: match agent history line with
         | Js.Fulfilled stream => mjoin (chunk_lines <$> stream)
         | Js.Rejected _ => []
         end
      ++ chat_transcript agent (history ++ [line]) lines'
  end.

(** The mode a line chooses, if any: the test of [chooseMode]. *)
Definition choice_of (line : string) : option Mode :=
  let choice := Js.trim (Js.toLowerCase line) in
  if bool_decide (choice = "1") || bool_decide (choice = "chat") then Some Chat
  else if bool_decide (choice = "2") || bool_decide (choice = "auto")
       then Some Auto
       else None.

(** What [chooseMode] prints before it reads a line. *)
Definition mode_menu : Console :=
  [ Log (Js.LF +:+ "Available modes:");
    Log "1. chat    - Interactive chat mode";
    Log "2. auto    - Autonomous action mode";
    Prompt (Js.LF +:+ "Choose a mode (enter number or name): ") ].

(** ** The process *)

(** What the process has done, beyond its shell: the files it leaves and
    the delays it has asked [setTimeout] for, in milliseconds. *)
Record Process : Type := {
  shell : Shell;
  files : FileSystem;
  timers : list Z;
}.

Definition process_start (fs : FileSystem) : Process :=
  {| shell := shell_start; files := fs; timers := [] |}.

(** A computation on the console, run on the console of the shell. *)
Definition on_console {A} (m : Eff Console A) : Eff Shell A :=
  λ sh, let (r, out) := m (console sh) in
        (r, {| console := out; forwarded := forwarded sh;
               rl_closed := rl_closed sh |}).

(** A computation on the shell, run on the shell of the process. *)
Definition on_shell {A} (m : Eff Shell A) : Eff Process A :=
  λ p, let (r, sh) := m (shell p) in
       (r, {| shell := sh; files := files p; timers := timers p |}).

(** [readline.createInterface], on entering a mode function. *)
Definition rl_create : Eff Shell unit :=
  modify (λ sh, {| console := console sh; forwarded := forwarded sh;
                   rl_closed := false |}).

(** [await new Promise((resolve) => setTimeout(resolve, ms))]. *)
Definition sleep (ms : Z) : Eff Process unit :=
  modify (λ p, {| shell := shell p; files := files p;
                  timers := timers p ++ [ms] |}).

(** *** Autonomous mode *)

Definition AUTONOMOUS_THOUGHT : string :=
  "Be creative and do something interesting on the blockchain. " +:+
  "Choose an action or set of actions and execute it that highlights your abilities.".

(** The [while (true)] loop of [runAutonomousMode], watched for a number of
    rounds; it is still running after them. *)
Fixpoint autonomous_loop (agent : Agent) (interval : Z) (rounds : nat)
  : Eff Process unit :=
  match rounds with
  | O => pending
  | S rounds' =>
      _ ← try_catch
            (let thought := AUTONOMOUS_THOUGHT in
             stream ← on_shell (agent_stream agent thought);
             _ ← on_shell (forEach stream print_chunk);
             sleep (interval * 1000))
            (λ error,
               _ ← (if Js.instanceofError error
                    then on_shell
                           (shell_write (Error ("Error: " +:+ Js.message error)))
                    else mret tt);
               process_exit 1);
      autonomous_loop agent interval rounds'
  end.

(** [runAutonomousMode], watched for a number of rounds. *)
Definition runAutonomousMode (agent : Agent) (interval : Z) (rounds : nat)
  : Eff Process unit :=
  _ ← on_shell (shell_write (Log "Starting autonomous mode..."));
  autonomous_loop agent interval rounds.

(** The default of the [interval] parameter, in seconds. *)
Definition DEFAULT_INTERVAL : Z := 10.

(** *** Initialization, in full *)

(** The agent kit, as far as [initializeAgent] uses it: the wallet it
    exports and the names of the tools of its toolkit. *)
Record Agentkit : Type := {
  exportWallet : Js.Settled string;
  getTools : list string;
}.

(** The tools given to the agent. *)
Inductive Tool : Type :=
| ToolkitTool (tool_name : string)
| DallETool (options : DallEOptions)
| S3Tool
| InvokeContractTool.

(** What initialization meets outside: the agent kit that
    [CdpAgentkit.configureWithWallet] answers, the agent that
    [createReactAgent] builds over the tools, and the fault, if any, that
    [fs.writeFileSync] meets.  The constructors of the libraries are taken
    not to throw. *)
Record Platform : Type := {
  configureWithWallet : AgentkitConfig → Js.Settled Agentkit;
  createReactAgent : list Tool → Agent;
  writeFileSync_fault : option Js.Thrown;
}.

(** [fs.writeFileSync(path, data)]. *)
Definition writeFileSync (platform : Platform) (path data : string)
  : Eff Process unit :=
  match writeFileSync_fault platform with
  | Some e => throw e
  | None =>
      modify (λ p, {| shell := shell p;
                      files := <[ path := Js.Fulfilled data ]> (files p);
                      timers := timers p |})
  end.

(** [initializeAgent] of [src/adAgent.ts]. *)
Definition initializeAgent (env : gmap string string) (platform : Platform)
  : Eff Process Agent :=
  try_catch
    (setup ← (λ p, on_shell (on_console
                (initializeAgent_config env (files p))) p);
     let config := setup.1 in
     let dallETool := DallETool setup.2 in
     agentkit ← await (configureWithWallet platform config);
     let s3Tool := S3Tool in
     let allTools :=
       (ToolkitTool <$> getTools agentkit) ++ [dallETool; s3Tool] in
     let invokeContractTool := InvokeContractTool in
     let allTools := allTools ++ [invokeContractTool] in
     let agent := createReactAgent platform allTools in
     exportedWallet ← await (exportWallet agentkit);
     _ ← writeFileSync platform WALLET_DATA_FILE exportedWallet;
     mret agent)
    (λ error,
       _ ← on_shell (shell_write (Error "Failed to initialize agent:"));
       throw error).

(** *** The entry point *)

(** [main], over the lines typed; autonomous mode is watched for a number
    of rounds. *)
Definition main (env : gmap string string) (platform : Platform)
    (lines : list string) (rounds : nat) : Eff Process unit :=
  try_catch
    (agent ← initializeAgent env platform;
     _ ← on_shell rl_create;
     choice ← on_shell (chooseMode lines);
     let mode := choice.1 in
     match mode with
     | Chat => _ ← on_shell rl_create; on_shell (runChatMode agent choice.2)
     | Auto => runAutonomousMode agent DEFAULT_INTERVAL rounds
     end)
    (λ error,
       _ ← (if Js.instanceofError error
            then on_shell (shell_write (Error ("Error: " +:+ Js.message error)))
            else mret tt);
       process_exit 1).

(** The module run as a script: the validation at load time, then [main]
    with its last [catch]. *)
Definition program (env : gmap string string) (platform : Platform)
    (lines : list string) (rounds : nat) : Eff Process unit :=
  _ ← on_shell (on_console (validateEnvironment env));
  _ ← on_shell (shell_write (Log "Starting Agent..."));
  try_catch (main env platform lines rounds)
    (λ error,
       _ ← on_shell (shell_write (Error "Fatal error:"));
       process_exit 1).

(** ** Further examples *)

(** The arguments of an ad with every field but the recipient. *)
Definition args_without_recipient : gmap string string :=
  <[ "title" := "T" ]> (<[ "text" := "X" ]>
    (<[ "imageURL" := "https://s3/..." ]> ∅)).

(** Typed parameters for the [create_ad] tool. *)
Definition example_params : CreateAd.Params :=
  {| CreateAd.args :=
       {| CreateAd.to := "0xabc..."; CreateAd.text := "X";
          CreateAd.title := "T"; CreateAd.imageURL := "https://s3/..." |} |}.

(** A call whose fetch is answered by a server error. *)
Definition failing_fetch : Outside :=
  {| axios_get := λ _,
       Js.Rejected (Js.ErrorObject "Request failed with status code 500");
     Date_now := 1700000000000;
     Math_random := random_12341;
     s3_upload := λ _, Js.Fulfilled tt |}.

(** A call whose write is refused by the storage service. *)
Definition failing_store : Outside :=
  {| axios_get := λ _, Js.Fulfilled "PNG";
     Date_now := 1700000000000;
     Math_random := random_12341;
     s3_upload := λ _, Js.Rejected (Js.ErrorObject "Access Denied") |}.

(** The parameters of the write that a call asks for, once it has fetched
    [data]. *)
Definition upload_params (world : Outside) (data : string) : S3.UploadParams :=
  {| S3.Bucket := "placeholderads"; S3.Key := objectKey world;
     S3.Body := data; S3.ContentType := "image/png" |}.

(** An agent kit that exports the wallet "WALLET", and a platform that
    always answers it. *)
Definition example_kit : Agentkit :=
  {| exportWallet := Js.Fulfilled "WALLET"; getTools := ["get_balance"] |}.

Definition example_platform : Platform :=
  {| configureWithWallet := λ _, Js.Fulfilled example_kit;
     createReactAgent := λ _, echo_agent;
     writeFileSync_fault := None |}.

(** A platform on which the wallet cannot be configured. *)
Definition offline_platform : Platform :=
  {| configureWithWallet := λ _, Js.Rejected (Js.ErrorObject "network down");
     createReactAgent := λ _, echo_agent;
     writeFileSync_fault := None |}.

(** The process after a write on its console. *)
Definition with_console (p : Process) (out : Console) : Process :=
  {| shell := {| console := out; forwarded := forwarded (shell p);
                 rl_closed := rl_closed (shell p) |};
     files := files p; timers := timers p |}.

(** The shell of a chat after its greeting. *)
Definition chat_start : Shell :=
  {| console := [Log "Starting chat mode... Type 'exit' to end."];
     forwarded := []; rl_closed := false |}.

(** An agent that answers the first message it receives and fails on the
    next with the given value. *)
Definition tiring_agent (e : Js.Thrown) : Agent :=
  λ history text,
    match history with
    | [] => Js.Fulfilled [AgentChunk text; ToolsChunk "done"]
    | _ => Js.Rejected e
    end.

(** What [chooseMode] prints for a line it rejects: the menu it had shown
    and its complaint. *)
Definition rejected_choice : Console :=
  mode_menu ++ [Log "Invalid choice. Please try again."].

(** The process with another shell, and the shell with a readline interface
    just created. *)
Definition with_shell (p : Process) (sh : Shell) : Process :=
  {| shell := sh; files := files p; timers := timers p |}.

Definition reopened (sh : Shell) : Shell :=
  {| console := console sh; forwarded := forwarded sh; rl_closed := false |}.

(** The line that the [catch] of [main] prints for a caught value. *)
Definition error_line (e : Js.Thrown) : Console :=
  match e with
  | Js.ErrorObject message => [Error ("Error: " +:+ message)]
  | Js.NonError _ => []
  end.

(** The shell after a write on its console. *)
Definition shell_with_console (sh : Shell) (out : Console) : Shell :=
  {| console := out; forwarded := forwarded sh; rl_closed := rl_closed sh |}.

(** The process after the [catch] of [main] has reported a caught value. *)
Definition after_catch (p : Process) (e : Js.Thrown) : Process :=
  match e with
  | Js.ErrorObject message =>
      with_shell p
        (shell_with_console (shell p)
           (console (shell p) ++ [Error ("Error: " +:+ message)]))
  | Js.NonError _ => p
  end.

(** What the configuration step writes on the console: a line when the
    wallet data file cannot be read. *)
Definition wallet_read_error (fs : FileSystem) : Console :=
  match fs !! WALLET_DATA_FILE with
  | Some (Js.Rejected _) => [Error "Error reading wallet data:"]
  | _ => []
  end.

(** The options that [initializeAgent] gives to the agent kit: the wallet
    data of the file, when the file can be read and is not empty, and the
    test network. *)
Definition agentkit_config (fs : FileSystem) : AgentkitConfig :=
  {| cdpWalletData :=
       match fs !! WALLET_DATA_FILE with
       | Some (Js.Fulfilled (String c data)) => Some (String c data)
       | _ => None
       end;
     networkId := "base-sepolia" |}.

(** The tools that [initializeAgent] gives to the agent. *)
Definition agent_tools (env : gmap string string) (agentkit : Agentkit)
  : list Tool :=
  ((ToolkitTool <$> getTools agentkit)
   ++ [ DallETool {| dalle_n := 1; dalle_model := "dall-e-3";
                     dalle_apiKey := env !! "OPENAI_API_KEY" |};
        S3Tool ])
  ++ [InvokeContractTool].

(** What the validation writes when it lets the startup go on. *)
Definition network_warning (env : gmap string string) : Console :=
  if Js.truthy (env !! "NETWORK_ID") then []
  else [Warn "Warning: NETWORK_ID not set, defaulting to base-sepolia testnet"].

(** * Properties *)

(** ** Strings *)

Lemma string_app_nil_r (s : string) : s +:+ "" = s.
Proof.
  induction s as [|c s IH]; [done|].
  change (String c (s +:+ "") = String c s). by rewrite IH.
Qed.

Lemma string_app_assoc (s t u : string) : (s +:+ t) +:+ u = s +:+ t +:+ u.
Proof.
  induction s as [|c s IH]; [done|].
  change (String c ((s +:+ t) +:+ u) = String c (s +:+ t +:+ u)).
  by rewrite IH.
Qed.

Lemma startsWith_app (p s : string) : Js.startsWith (p +:+ s) p = true.
Proof.
  induction p as [|c p IH]; simpl.
  - by destruct s.
  - rewrite bool_decide_eq_true_2 by done. exact IH.
Qed.

Lemma includes_startsWith (s sub : string) :
  Js.startsWith s sub = true → Js.includes s sub = true.
Proof. intros H. destruct s; cbn [Js.includes]; by rewrite H. Qed.

Lemma includes_app (pre sub post : string) :
  Js.includes (pre +:+ sub +:+ post) sub = true.
Proof.
  induction pre as [|c pre IH].
  - apply includes_startsWith. exact (startsWith_app sub post).
  - change (Js.includes (String c (pre +:+ sub +:+ post)) sub = true).
    cbn [Js.includes]. rewrite IH. apply orb_true_r.
Qed.

Lemma includes_suffix (pre sub : string) :
  Js.includes (pre +:+ sub) sub = true.
Proof.
  rewrite <- (string_app_nil_r sub) at 1. apply includes_app.
Qed.

Lemma startsWith_spec (s p : string) :
  Js.startsWith s p = true ↔ ∃ rest, s = p +:+ rest.
Proof.
  split.
  - revert s. induction p as [|c p IH]; intros s H; simpl in *.
    + by exists s.
    + destruct s as [|b s]; [done|].
      apply andb_true_iff in H as [Hc Hs].
      apply bool_decide_eq_true_1 in Hc as ->.
      destruct (IH _ Hs) as [rest ->]. by exists rest.
  - intros [rest ->]. apply startsWith_app.
Qed.

Lemma includes_spec (s sub : string) :
  Js.includes s sub = true ↔ ∃ pre post, s = pre +:+ sub +:+ post.
Proof.
  split.
  - induction s as [|c s IH]; cbn [Js.includes]; intros H.
    + rewrite orb_false_r in H. apply startsWith_spec in H as [rest H].
      by exists "", rest.
    + apply orb_true_iff in H as [H|H].
      * apply startsWith_spec in H as [rest H]. by exists "", rest.
      * destruct (IH H) as (pre & post & ->). by exists (String c pre), post.
  - intros (pre & post & ->). apply includes_app.
Qed.

Lemma includes_self (s : string) : Js.includes s s = true.
Proof.
  apply includes_startsWith. rewrite <- (string_app_nil_r s) at 1.
  apply startsWith_app.
Qed.

Lemma includes_app_r (p s sub : string) :
  Js.includes s sub = true → Js.includes (p +:+ s) sub = true.
Proof.
  rewrite !includes_spec. intros (pre & post & ->).
  exists (p +:+ pre), post. by rewrite string_app_assoc.
Qed.

(** Finds a piece of a concatenation. *)
Ltac solve_includes :=
  first
    [ apply includes_self
    | apply includes_startsWith; apply startsWith_app
    | rewrite <- string_app_assoc; apply includes_startsWith;
      apply startsWith_app
    | apply includes_app_r; solve_includes ].

(** ** The contract invoker *)

Lemma find_method_absent (method : string) (abi : list AbiFunction) :
  (∀ func, func ∈ abi → name func ≠ method) →
  List.find (λ func, bool_decide (name func = method)) abi = None.
Proof.
  induction abi as [|f abi IH]; intros Habs; [done|].
  cbn. rewrite bool_decide_eq_false_2.
  - apply IH. intros g Hg. apply Habs. by right.
  - apply Habs. by left.
Qed.

Lemma find_method_present (method : string) (abi : list AbiFunction) :
  method_present method abi →
  ∃ func, List.find (λ func, bool_decide (name func = method)) abi = Some func.
Proof.
  intros (f & Hin & Hname).
  induction Hin as [f abi|f g abi Hin IH]; cbn.
  - rewrite bool_decide_eq_true_2 by done. by exists f.
  - destruct (bool_decide (name g = method)); [by exists g | exact (IH Hname)].
Qed.

(** Unfolds one run of an invoker down to the calls on the wallet. *)
Ltac run_invoker :=
  unfold invokeContract, PublishAd.invokeContract, try_catch, Sdk.submit,
    mbind, eff_mbind, eff_bind, modify, await, mret, eff_mret, eff_ret, throw;
  cbn beta iota;
  repeat match goal with
    | |- context [Sdk.Build_InvokeContractOptions ?a ?m ?g ?b] =>
        change (Sdk.Build_InvokeContractOptions a m g b)
          with (submission a m b g)
    end.

(** C1. [invokeContract] returns a string on every wallet, contract address,
    method name, ABI list and argument map, from every state of the wallet's
    log: it never ends by a throw or an exit.  The string it returns starts
    with "Failed to publish ad" exactly when the method lookup, the
    submission or the confirmation fails.  Both variants of the agent
    behave so. *)
Theorem invokeContract_never_raises
    (wallet : Sdk.Wallet) (contractAddress method : string)
    (abi : list AbiFunction) (args : gmap string string) (log : Sdk.Log) :
  (∃ s log',
      invokeContract wallet contractAddress method abi args log
        = (Returned s, log') ∧
      Js.startsWith s "Failed to publish ad"
        = failure_path wallet contractAddress method abi args) ∧
  (∃ s log',
      PublishAd.invokeContract wallet contractAddress method abi args log
        = (Returned s, log') ∧
      Js.startsWith s "Failed to publish ad"
        = failure_path wallet contractAddress method abi args).
Proof.
  unfold failure_path. run_invoker.
  destruct (List.find _ abi) as [func|]; cbn beta iota.
  - destruct (Sdk.invokeContract wallet _) as [invocation|[msg|v]];
      cbn beta iota; [|split; eexists _, _; split; reflexivity..].
    destruct (Sdk.wait invocation) as [[[[|c h]|]]|[msg|v]];
      cbn; split; eexists _, _; split; reflexivity.
  - split; eexists _, _; split; reflexivity.
Qed.

(** C2. When no entry of the ABI list has the method name, [invokeContract]
    returns the failure string "Failed to publish ad: Method <name> not found
    in ABI", which contains "not found", and leaves the wallet's log of
    submissions as it was: the wallet's [invokeContract] is not called.  Both
    variants of the agent behave so. *)
Theorem invokeContract_method_not_found
    (wallet : Sdk.Wallet) (contractAddress method : string)
    (abi : list AbiFunction) (args : gmap string string) (log : Sdk.Log)
    (Habsent : ∀ func, func ∈ abi → name func ≠ method) :
  ∃ s,
    s = "Failed to publish ad: Method " +:+ method +:+ " not found in ABI" ∧
    Js.includes s "not found" = true ∧
    invokeContract wallet contractAddress method abi args log
      = (Returned s, log) ∧
    PublishAd.invokeContract wallet contractAddress method abi args log
      = (Returned s, log).
Proof.
  eexists. split; [reflexivity|]. split.
  - change (Js.includes
      ("Failed to publish ad: Method " +:+ method +:+ " " +:+ "not found"
         +:+ " in ABI") "not found" = true).
    rewrite <- !string_app_assoc. rewrite string_app_assoc.
    apply includes_app.
  - run_invoker. by rewrite (find_method_absent _ _ Habsent).
Qed.

Lemma invokeContract_method_not_found_witness :
  (∀ func, func ∈ AD_CONTRACT_ABI → name func ≠ "publishAd") ∧
  invokeContract (stub_wallet (Some "0xdead")) AD_CONTRACT_ADDRESS "publishAd"
      AD_CONTRACT_ABI example_args []
    = (Returned "Failed to publish ad: Method publishAd not found in ABI", []).
Proof.
  assert (H : ∀ func, func ∈ AD_CONTRACT_ABI → name func ≠ "publishAd").
  { intros func Hin. apply list_elem_of_In in Hin.
    destruct Hin as [<-|[]]. discriminate. }
  split; [exact H|].
  destruct (invokeContract_method_not_found (stub_wallet (Some "0xdead"))
              AD_CONTRACT_ADDRESS "publishAd" AD_CONTRACT_ABI example_args [] H)
    as (s & -> & _ & Hrun & _).
  exact Hrun.
Defined.

(** What a confirmed submission lets the [try] block compute. *)
Lemma submission_confirms_inv (wallet : Sdk.Wallet)
    (options : Sdk.InvokeContractOptions) (txHash : option string) :
  submission_confirms wallet options txHash →
  ∃ invocation,
    Sdk.invokeContract wallet options = Js.Fulfilled invocation ∧
    Sdk.wait invocation
      = Js.Fulfilled {| Sdk.getTransactionHash := txHash |}.
Proof.
  intros (invocation & [h] & Hsubmit & Hwait & Hhash). cbn in Hhash. subst h.
  by exists invocation.
Qed.

(** C3. When the method name is in the ABI and the submission is confirmed
    by a receipt with a non-empty transaction hash, [invokeContract] makes
    that one submission and returns a success string, "Ad Created
    successfully...", that contains the hash, the explorer address
    "https://sepolia.basescan.org/tx/<hash>" and the [to] argument of the
    call; the [publishAd] variant returns a success string with the hash and
    the explorer address. *)
Theorem invokeContract_success
    (wallet : Sdk.Wallet) (contractAddress method : string)
    (abi : list AbiFunction) (args : gmap string string) (log : Sdk.Log)
    (txHash : string)
    (Hpresent : method_present method abi)
    (Hconfirms : submission_confirms wallet
                   (submission contractAddress method abi args) (Some txHash))
    (Hhash : txHash ≠ "") :
  (∃ s,
      invokeContract wallet contractAddress method abi args log
        = (Returned s, log ++ [submission contractAddress method abi args]) ∧
      Js.startsWith s "Ad Created successfully" = true ∧
      Js.includes s txHash = true ∧
      Js.includes s ("https://sepolia.basescan.org/tx/" +:+ txHash) = true ∧
      Js.includes s (Js.interpolate (args !! "to")) = true) ∧
  (∃ s,
      PublishAd.invokeContract wallet contractAddress method abi args log
        = (Returned s, log ++ [submission contractAddress method abi args]) ∧
      Js.startsWith s "Ad published successfully" = true ∧
      Js.includes s txHash = true ∧
      Js.includes s ("https://sepolia.basescan.org/tx/" +:+ txHash) = true).
Proof.
  destruct (find_method_present _ _ Hpresent) as [func Hfind].
  destruct (submission_confirms_inv _ _ _ Hconfirms)
    as (invocation & Hsubmit & Hwait).
  destruct txHash as [|c h]; [done|].
  split; eexists; (split;
    [run_invoker; rewrite Hfind; cbn beta iota; rewrite Hsubmit;
     cbn beta iota; rewrite Hwait; reflexivity|]).
  - cbn [Js.interpolate]. unfold EXPLORER_TX_URL, OPENSEA_URL.
    split; [reflexivity|]. repeat split; solve_includes.
  - cbn [Js.interpolate]. unfold EXPLORER_TX_URL.
    split; [reflexivity|]. split; solve_includes.
Qed.

(** The example of the specification: [createAd], the recipient "0xabc..."
    and a wallet stub answering the hash "0xdead". *)
Lemma invokeContract_success_witness :
  ∃ s,
    invokeContract (stub_wallet (Some "0xdead")) AD_CONTRACT_ADDRESS "createAd"
        AD_CONTRACT_ABI example_args []
      = (Returned s,
         [submission AD_CONTRACT_ADDRESS "createAd" AD_CONTRACT_ABI
            example_args]) ∧
    Js.includes s "0xdead" = true ∧
    Js.includes s "https://sepolia.basescan.org/tx/0xdead" = true ∧
    Js.includes s "0xabc..." = true.
Proof.
  assert (Hpresent : method_present "createAd" AD_CONTRACT_ABI).
  { eexists. split; [by left | reflexivity]. }
  assert (Hconfirms : submission_confirms (stub_wallet (Some "0xdead"))
            (submission AD_CONTRACT_ADDRESS "createAd" AD_CONTRACT_ABI
               example_args) (Some "0xdead")).
  { eexists _, _. repeat split; reflexivity. }
  assert (Hhash : "0xdead" ≠ "") by discriminate.
  destruct (invokeContract_success (stub_wallet (Some "0xdead"))
              AD_CONTRACT_ADDRESS "createAd" AD_CONTRACT_ABI example_args []
              "0xdead" Hpresent Hconfirms Hhash)
    as [(s & Hrun & _ & Hh & Hurl & Hto) _].
  exists s. repeat split; [exact Hrun | exact Hh | exact Hurl |].
  exact Hto.
Defined.

(** C5. When the method name is in the ABI and the submission or the
    confirmation throws, [invokeContract] returns "Failed to publish ad: "
    followed by the message, hence a string containing the message, if the
    thrown value is an [Error]; it returns "Failed to publish ad due to an
    unknown error" if it is anything else.  Both variants behave so. *)
Theorem invokeContract_submission_throws
    (wallet : Sdk.Wallet) (contractAddress method : string)
    (abi : list AbiFunction) (args : gmap string string) (log : Sdk.Log)
    (e : Js.Thrown)
    (Hpresent : method_present method abi)
    (Hthrows : submission_throws wallet
                 (submission contractAddress method abi args) e) :
  ∃ s,
    invokeContract wallet contractAddress method abi args log
      = (Returned s, log ++ [submission contractAddress method abi args]) ∧
    PublishAd.invokeContract wallet contractAddress method abi args log
      = (Returned s, log ++ [submission contractAddress method abi args]) ∧
    match e with
    | Js.ErrorObject message =>
        s = "Failed to publish ad: " +:+ message ∧
        Js.includes s message = true
    | Js.NonError _ => s = "Failed to publish ad due to an unknown error"
    end.
Proof.
  destruct (find_method_present _ _ Hpresent) as [func Hfind].
  exists (if Js.instanceofError e
          then "Failed to publish ad: " +:+ Js.message e
          else UNKNOWN_ERROR_MESSAGE).
  split; [|split].
  - run_invoker. rewrite Hfind. cbn beta iota.
    destruct Hthrows as [->|(invocation & -> & ->)]; by destruct e.
  - run_invoker. rewrite Hfind. cbn beta iota.
    destruct Hthrows as [->|(invocation & -> & ->)]; by destruct e.
  - destruct e as [message|v]; cbn; [|done].
    split; [done | solve_includes].
Qed.

Lemma invokeContract_submission_throws_witness :
  method_present "createAd" AD_CONTRACT_ABI ∧
  submission_throws (failing_wallet (Js.ErrorObject "insufficient funds"))
    (submission AD_CONTRACT_ADDRESS "createAd" AD_CONTRACT_ABI example_args)
    (Js.ErrorObject "insufficient funds") ∧
  invokeContract (failing_wallet (Js.ErrorObject "insufficient funds"))
      AD_CONTRACT_ADDRESS "createAd" AD_CONTRACT_ABI example_args []
    = (Returned "Failed to publish ad: insufficient funds",
       [submission AD_CONTRACT_ADDRESS "createAd" AD_CONTRACT_ABI
          example_args]).
Proof.
  assert (Hpresent : method_present "createAd" AD_CONTRACT_ABI).
  { eexists. split; [by left | reflexivity]. }
  assert (Hthrows : submission_throws
            (failing_wallet (Js.ErrorObject "insufficient funds"))
            (submission AD_CONTRACT_ADDRESS "createAd" AD_CONTRACT_ABI
               example_args)
            (Js.ErrorObject "insufficient funds")).
  { left. reflexivity. }
  split; [exact Hpresent|]. split; [exact Hthrows|].
  destruct (invokeContract_submission_throws _ _ _ _ _ [] _ Hpresent Hthrows)
    as (s & Hrun & _ & -> & _).
  exact Hrun.
Defined.

(** C6. When the method name is in the ABI and the submission is confirmed
    but the receipt has no transaction hash ([undefined], or the empty
    string), [invokeContract] returns, without throwing, the message
    "Contract invocation completed, but transaction hash is not available".
    That message is none of the failure strings: it does not start with
    "Failed to publish ad", as both strings of the [catch] block do; nor is
    it the success message.  Both variants behave so. *)
Theorem invokeContract_hash_unavailable
    (wallet : Sdk.Wallet) (contractAddress method : string)
    (abi : list AbiFunction) (args : gmap string string) (log : Sdk.Log)
    (txHash : option string)
    (Hpresent : method_present method abi)
    (Hconfirms : submission_confirms wallet
                   (submission contractAddress method abi args) txHash)
    (Hnone : Js.truthy txHash = false) :
  ∃ s,
    s = "Contract invocation completed, but transaction hash is not available" ∧
    invokeContract wallet contractAddress method abi args log
      = (Returned s, log ++ [submission contractAddress method abi args]) ∧
    PublishAd.invokeContract wallet contractAddress method abi args log
      = (Returned s, log ++ [submission contractAddress method abi args]) ∧
    Js.startsWith s "Failed to publish ad" = false ∧
    Js.startsWith s "Ad Created successfully" = false ∧
    Js.startsWith s "Ad published successfully" = false.
Proof.
  destruct (find_method_present _ _ Hpresent) as [func Hfind].
  destruct (submission_confirms_inv _ _ _ Hconfirms)
    as (invocation & Hsubmit & Hwait).
  eexists. split; [reflexivity|].
  repeat split;
    run_invoker; rewrite ?Hfind; cbn beta iota; rewrite ?Hsubmit;
    cbn beta iota; rewrite ?Hwait; cbn; rewrite ?Hnone; reflexivity.
Qed.

Lemma invokeContract_hash_unavailable_witness :
  method_present "createAd" AD_CONTRACT_ABI ∧
  submission_confirms (stub_wallet None)
    (submission AD_CONTRACT_ADDRESS "createAd" AD_CONTRACT_ABI example_args)
    None ∧
  Js.truthy None = false ∧
  invokeContract (stub_wallet None) AD_CONTRACT_ADDRESS "createAd"
      AD_CONTRACT_ABI example_args []
    = (Returned
         "Contract invocation completed, but transaction hash is not available",
       [submission AD_CONTRACT_ADDRESS "createAd" AD_CONTRACT_ABI
          example_args]).
Proof.
  assert (Hpresent : method_present "createAd" AD_CONTRACT_ABI).
  { eexists. split; [by left | reflexivity]. }
  assert (Hconfirms : submission_confirms (stub_wallet None)
            (submission AD_CONTRACT_ADDRESS "createAd" AD_CONTRACT_ABI
               example_args) None).
  { eexists _, _. repeat split; reflexivity. }
  split; [exact Hpresent|]. split; [exact Hconfirms|].
  split; [reflexivity|].
  destruct (invokeContract_hash_unavailable _ _ _ _ _ [] _ Hpresent Hconfirms
              eq_refl) as (s & -> & Hrun & _).
  exact Hrun.
Defined.

(** ** Startup validation *)

Lemma truthy_false_iff (env : gmap string string) (varName : string) :
  negb (Js.truthy (env !! varName)) = true ↔ missing env varName.
Proof.
  unfold missing. destruct (env !! varName) as [[|c s]|]; cbn;
    intuition (try discriminate; auto).
Qed.

(** The loop that pushes on [missingVars] is a filter. *)
Lemma missingVars_filter (env : gmap string string) (vars acc : list string) :
  foldl (λ missingVars varName,
           if negb (Js.truthy (env !! varName))
           then missingVars ++ [varName]
           else missingVars) acc vars
  = acc ++ filter (missing env) vars.
Proof.
  revert acc. induction vars as [|v vars IH]; intros acc; cbn [foldl].
  - by rewrite filter_nil, app_nil_r.
  - rewrite IH, filter_cons.
    destruct (negb (Js.truthy (env !! v))) eqn:Hv.
    + apply truthy_false_iff in Hv. rewrite decide_True by done.
      by rewrite <- app_assoc.
    + rewrite decide_False; [done|].
      intros Hm%truthy_false_iff. congruence.
Qed.

Lemma forEach_console_error (f : string → string) (items : list string)
    (out : Console) :
  forEach items (λ item, console_error (f item)) out
  = (Returned tt, out ++ ((λ item, Error (f item)) <$> items)).
Proof.
  revert out. induction items as [|item items IH]; intros out; cbn.
  - by rewrite app_nil_r.
  - unfold mbind, eff_mbind, eff_bind, console_error, modify.
    rewrite IH. by rewrite <- app_assoc.
Qed.

Lemma toLowerCase_length (s : string) :
  String.length (Js.toLowerCase s) = String.length s.
Proof. induction s as [|c s IH]; cbn; [done | by rewrite IH]. Qed.

Lemma string_app_length (s t : string) :
  String.length (s +:+ t) = (String.length s + String.length t)%nat.
Proof.
  induction s as [|c s IH]; [done|].
  change (S (String.length (s +:+ t)) = S (String.length s + String.length t)).
  by rewrite IH.
Qed.

Lemma string_app_inj_length (s1 s2 t1 t2 : string) :
  String.length s1 = String.length s2 →
  s1 +:+ t1 = s2 +:+ t2 → s1 = s2 ∧ t1 = t2.
Proof.
  revert s2. induction s1 as [|c s1 IH]; intros [|d s2] Hlen Heq;
    try discriminate.
  - done.
  - injection Hlen as Hlen.
    change (String c (s1 +:+ t1) = String d (s2 +:+ t2)) in Heq.
    injection Heq as -> Heq. destruct (IH _ Hlen Heq) as [-> ->]. done.
Qed.

Lemma missing_line_inj (v w : string) :
  missing_line v = missing_line w → v = w.
Proof.
  unfold missing_line. intros Heq.
  apply string_app_inj_length in Heq; [tauto|].
  apply (f_equal String.length) in Heq.
  rewrite !string_app_length, !toLowerCase_length in Heq. cbn in Heq. lia.
Qed.

(** C7. When one of the three required variables is missing from the
    environment (not set, or set to the empty string: the check
    [!process.env[varName]] takes both for "not set"), [validateEnvironment]
    ends the process with the exit status 1 after writing, on the error
    stream, a heading and then one line per missing variable, in the order of
    [requiredVars].  A variable is listed exactly when it is required and
    missing: none is omitted, none that is present is listed. *)
Theorem validateEnvironment_lists_missing
    (env : gmap string string) (out0 : Console)
    (Hmissing : ∃ varName, varName ∈ requiredVars ∧ missing env varName) :
  ∃ out,
    validateEnvironment env out0 = (Exited 1%Z, out0 ++ out) ∧
    1%Z ≠ 0%Z ∧
    out = Error "Error: Required environment variables are not set"
          :: ((λ varName, Error (missing_line varName))
                <$> filter (missing env) requiredVars) ∧
    ∀ varName,
      listed out varName ↔ varName ∈ requiredVars ∧ missing env varName.
Proof.
  eexists. split; [|split; [done|split; [reflexivity|]]].
  - unfold validateEnvironment. rewrite missingVars_filter, app_nil_l.
    destruct Hmissing as (v & Hv & Hm).
    assert (Hin : v ∈ filter (missing env) requiredVars)
      by (apply list_elem_of_filter; done).
    destruct (filter (missing env) requiredVars) as [|w ws] eqn:Hf;
      [by apply elem_of_nil in Hin|].
    cbn [length Nat.ltb Nat.leb].
    unfold mbind, eff_mbind, eff_bind, console_error at 1, modify,
      process_exit.
    rewrite forEach_console_error.
    by rewrite <- app_assoc.
  - intros varName. unfold listed.
    rewrite elem_of_cons, list_elem_of_fmap. split.
    + intros [Hhead|(w & Hline & Hw)].
      * injection Hhead as Hhead. unfold missing_line in Hhead.
        apply (f_equal (λ s, Js.includes s "=your_")) in Hhead.
        rewrite includes_app in Hhead. discriminate Hhead.
      * injection Hline as Hline. apply missing_line_inj in Hline as ->.
        by apply list_elem_of_filter in Hw as [? ?].
    + intros [Hreq Hm]. right. exists varName. split; [done|].
      by apply list_elem_of_filter.
Qed.

Lemma validateEnvironment_lists_missing_witness :
  (∃ varName, varName ∈ requiredVars ∧ missing env_two_missing varName) ∧
  validateEnvironment env_two_missing []
    = (Exited 1%Z,
       [ Error "Error: Required environment variables are not set";
         Error "CDP_API_KEY_NAME=your_cdp_api_key_name_here";
         Error "CDP_API_KEY_PRIVATE_KEY=your_cdp_api_key_private_key_here" ]).
Proof.
  assert (Hmissing :
    ∃ varName, varName ∈ requiredVars ∧ missing env_two_missing varName).
  { exists "CDP_API_KEY_NAME". split; [|right; reflexivity].
    right. left. }
  split; [exact Hmissing|].
  destruct (validateEnvironment_lists_missing env_two_missing [] Hmissing)
    as (out & Hrun & _ & Hout & _).
  rewrite Hrun, Hout. reflexivity.
Defined.

(** With every required variable set, the validation returns; it warns when
    [NETWORK_ID] is not set. *)
Lemma validateEnvironment_passes (env : gmap string string) (out0 : Console) :
  (∀ varName, varName ∈ requiredVars → ¬ missing env varName) →
  validateEnvironment env out0
  = (Returned tt,
     if Js.truthy (env !! "NETWORK_ID") then out0
     else out0 ++ [Warn
       "Warning: NETWORK_ID not set, defaulting to base-sepolia testnet"]).
Proof.
  intros Hset. unfold validateEnvironment.
  rewrite missingVars_filter, app_nil_l.
  assert (filter (missing env) requiredVars = []) as ->.
  { destruct (filter (missing env) requiredVars) as [|v vs] eqn:Hf; [done|].
    assert (Hv : v ∈ filter (missing env) requiredVars)
      by (rewrite Hf; left).
    apply list_elem_of_filter in Hv as [Hm Hv]. by destruct (Hset v). }
  cbn. unfold mbind, eff_mbind, eff_bind, mret, eff_mret, eff_ret.
  by destruct (Js.truthy (env !! "NETWORK_ID")).
Qed.

(** ** Initialization *)

(** Whatever the environment and the wallet data file hold, the options
    passed to the agent kit name the test network. *)
Lemma initializeAgent_config_networkId
    (env : gmap string string) (fs : FileSystem) (out0 : Console) :
  ∃ config dallE out,
    initializeAgent_config env fs out0 = (Returned (config, dallE), out) ∧
    networkId config = "base-sepolia".
Proof.
  unfold initializeAgent_config.
  unfold mbind, eff_mbind, eff_bind, mret, eff_mret, eff_ret, try_catch,
    await, throw, console_error, modify.
  destruct (fs !! WALLET_DATA_FILE) as [[content|e]|]; cbn;
    eexists _, _, _; split; reflexivity.
Qed.

(** C9, on the code.  With every required variable set and [NETWORK_ID] set
    to "base-mainnet", the options that [initializeAgent] passes to the
    agent kit still name "base-sepolia": the variable does not determine
    the network. *)
Theorem initializeAgent_ignores_NETWORK_ID :
  env_mainnet !! "NETWORK_ID" = Some "base-mainnet" ∧
  expected_networkId env_mainnet = "base-mainnet" ∧
  ∃ config dallE,
    initializeAgent_config env_mainnet ∅ []
      = (Returned (config, dallE), []) ∧
    networkId config = "base-sepolia" ∧
    networkId config ≠ expected_networkId env_mainnet.
Proof.
  split; [reflexivity|]. split; [reflexivity|].
  eexists _, _. split; [reflexivity|]. split; [reflexivity|].
  cbn. discriminate.
Qed.

(** ** Letter case and white space *)

Lemma lower_char_unfold (c : ascii) :
  Js.lower_char c
  = if is_upper c then ascii_of_nat (nat_of_ascii c + 32) else c.
Proof. reflexivity. Qed.

Lemma is_upper_bound (c : ascii) :
  is_upper c = true → (nat_of_ascii c + 32 < 256)%nat.
Proof.
  unfold is_upper. intros [_ H%Nat.leb_le]%andb_true_iff. lia.
Qed.

Lemma lower_char_fixed (c : ascii) :
  Js.lower_char c = c → is_upper c = false.
Proof.
  rewrite lower_char_unfold. destruct (is_upper c) eqn:Hup; [|done].
  intros H%(f_equal nat_of_ascii).
  rewrite nat_ascii_embedding in H by by apply is_upper_bound. lia.
Qed.

Lemma lower_char_same_letter (a b : ascii) :
  is_upper b = false → Js.lower_char a = b ↔ same_letter a b.
Proof.
  intros Hb. rewrite lower_char_unfold. unfold same_letter. split.
  - destruct (is_upper a) eqn:Ha; [|by left].
    intros <-. right. left. split; [done|].
    by rewrite nat_ascii_embedding by by apply is_upper_bound.
  - intros [->|[[Ha Hn]|[Hb' _]]]; [by rewrite Hb| |congruence].
    rewrite Ha, <- Hn. apply ascii_nat_embedding.
Qed.

(** [input.toLowerCase() === word], for a word without upper-case letters,
    says that the input is the word up to the case of its letters. *)
Lemma toLowerCase_eq_iff (input word : string) :
  Js.toLowerCase word = word →
  Js.toLowerCase input = word ↔ equal_up_to_case input word.
Proof.
  revert word. induction input as [|a input IH]; intros [|b word] Hword;
    cbn; try (split; [discriminate | done]); [done|].
  injection Hword as Hb Hword. apply lower_char_fixed in Hb.
  rewrite <- (IH word Hword), <- (lower_char_same_letter a b Hb).
  split; [by intros [= -> ->] | by intros [-> ->]].
Qed.

Lemma lower_char_space (c : ascii) :
  Js.is_ascii_space c = true → Js.lower_char c = c.
Proof.
  rewrite lower_char_unfold. unfold Js.is_ascii_space, is_upper.
  intros H. destruct (65 <=? nat_of_ascii c)%nat eqn:H1; [|done].
  destruct (nat_of_ascii c <=? 90)%nat eqn:H2; [|done].
  apply Nat.leb_le in H1, H2. exfalso.
  apply orb_true_iff in H as [[_ H]%andb_true_iff|H].
  - apply Nat.leb_le in H. lia.
  - apply Nat.eqb_eq in H. lia.
Qed.

Lemma lower_char_high (c : ascii) :
  (128 ≤ nat_of_ascii c)%nat → Js.lower_char c = c.
Proof.
  rewrite lower_char_unfold. unfold is_upper. intros H.
  destruct (65 <=? nat_of_ascii c)%nat; [|done].
  destruct (nat_of_ascii c <=? 90)%nat eqn:H2; [|done].
  apply Nat.leb_le in H2. lia.
Qed.

(** The white space of two and of three bytes is made of bytes outside the
    ASCII range. *)
Lemma is_space2_high (a b : ascii) :
  Js.is_space2 a b = true →
  (128 ≤ nat_of_ascii a)%nat ∧ (128 ≤ nat_of_ascii b)%nat.
Proof.
  unfold Js.is_space2. rewrite andb_true_iff, !Nat.eqb_eq. lia.
Qed.

Lemma is_space3_high (a b c : ascii) :
  Js.is_space3 a b c = true →
  (128 ≤ nat_of_ascii a)%nat ∧ (128 ≤ nat_of_ascii b)%nat
  ∧ (128 ≤ nat_of_ascii c)%nat.
Proof.
  unfold Js.is_space3.
  rewrite !orb_true_iff, !andb_true_iff, !orb_true_iff, !andb_true_iff,
    !Nat.eqb_eq, !Nat.leb_le.
  lia.
Qed.

Lemma is_space2_low (a b : ascii) :
  (nat_of_ascii a < 128)%nat → Js.is_space2 a b = false.
Proof.
  intros Ha. apply not_true_is_false. intros [H _]%is_space2_high. lia.
Qed.

Lemma is_space3_low (a b c : ascii) :
  (nat_of_ascii a < 128)%nat → Js.is_space3 a b c = false.
Proof.
  intros Ha. apply not_true_is_false. intros [H _]%is_space3_high. lia.
Qed.

(** A string of white space is empty, or starts with white space of one,
    two or three bytes that a string of white space follows. *)
Lemma all_space_cases (P : string → Prop) :
  P "" →
  (∀ a s, Js.is_ascii_space a = true → all_space s = true → P s →
     P (String a s)) →
  (∀ a b s, Js.is_ascii_space a = false → Js.is_space2 a b = true →
     all_space s = true → P s → P (String a (String b s))) →
  (∀ a b c s, Js.is_ascii_space a = false → Js.is_space2 a b = false →
     Js.is_space3 a b c = true → all_space s = true → P s →
     P (String a (String b (String c s)))) →
  ∀ s, all_space s = true → P s.
Proof.
  intros H0 H1 H2 H3 s.
  remember (String.length s) as n eqn:Hn. revert s Hn.
  induction (lt_wf n) as [n _ IH]. intros s -> Hs.
  destruct s as [|a s1]; [done|]. cbn [all_space] in Hs.
  destruct (Js.is_ascii_space a) eqn:Ha.
  { apply H1; [done..|]. apply (IH (String.length s1)); cbn; [lia|done..]. }
  destruct s1 as [|b s2]; [done|].
  destruct (Js.is_space2 a b) eqn:Hb.
  { apply H2; [done..|]. apply (IH (String.length s2)); cbn; [lia|done..]. }
  destruct s2 as [|c s3]; [done|].
  apply andb_true_iff in Hs as [Hc Hs].
  apply H3; [done..|]. apply (IH (String.length s3)); cbn; [lia|done..].
Qed.

Lemma toLowerCase_all_space (s : string) :
  all_space s = true → Js.toLowerCase s = s.
Proof.
  revert s. apply all_space_cases; [done|..].
  - intros a s Ha _ IH. cbn. by rewrite lower_char_space, IH.
  - intros a b s _ [Ha Hb]%is_space2_high _ IH. cbn.
    by rewrite !lower_char_high, IH.
  - intros a b c s _ _ (Ha & Hb & Hc)%is_space3_high _ IH. cbn.
    by rewrite !lower_char_high, IH.
Qed.

Lemma toLowerCase_app (s t : string) :
  Js.toLowerCase (s +:+ t) = Js.toLowerCase s +:+ Js.toLowerCase t.
Proof.
  induction s as [|c s IH]; [done|].
  change (String (Js.lower_char c) (Js.toLowerCase (s +:+ t))
          = String (Js.lower_char c) (Js.toLowerCase s +:+ Js.toLowerCase t)).
  by rewrite IH.
Qed.

Lemma trimStart_all_space (left s : string) :
  all_space left = true → Js.trimStart (left +:+ s) = Js.trimStart s.
Proof.
  revert left. apply all_space_cases; [done|..].
  - intros a left Ha _ IH.
    change (Js.trimStart (String a (left +:+ s)) = Js.trimStart s).
    cbn [Js.trimStart]. by rewrite Ha.
  - intros a b left Ha Hb _ IH.
    change (Js.trimStart (String a (String b (left +:+ s)))
            = Js.trimStart s).
    cbn [Js.trimStart]. by rewrite Ha, Hb.
  - intros a b c left Ha Hb Hc _ IH.
    change (Js.trimStart (String a (String b (String c (left +:+ s))))
            = Js.trimStart s).
    cbn [Js.trimStart]. by rewrite Ha, Hb, Hc.
Qed.

Lemma trimStart_all_space_nil (s : string) :
  all_space s = true → Js.trimStart s = "".
Proof.
  intros Hs. rewrite <- (string_app_nil_r s).
  by rewrite (trimStart_all_space s "" Hs).
Qed.

(** [trimStart] stops at a character of the ASCII range that is not white
    space. *)
Lemma trimStart_plain (c : ascii) (s : string) :
  (nat_of_ascii c < 128)%nat → Js.is_ascii_space c = false →
  Js.trimStart (String c s) = String c s.
Proof.
  intros Hlow Hc. cbn [Js.trimStart]. rewrite Hc.
  destruct s as [|b [|d s]]; [done| |]; rewrite (is_space2_low c b Hlow);
    [done|].
  by rewrite (is_space3_low c b d Hlow).
Qed.

Lemma trimEnd_plain (w right : string) :
  plain w = true → all_space right = true → Js.trimEnd (w +:+ right) = w.
Proof.
  intros Hw Hright. induction w as [|c w IH].
  - change (Js.trimEnd right = "").
    destruct right as [|c right]; [done|].
    cbn [Js.trimEnd]. by rewrite (trimStart_all_space_nil _ Hright).
  - cbn [plain] in Hw.
    apply andb_true_iff in Hw as [[Hlow Hc]%andb_true_iff Hw].
    apply Nat.ltb_lt in Hlow. apply negb_true_iff in Hc.
    change (Js.trimEnd (String c (w +:+ right)) = String c w).
    cbn [Js.trimEnd]. rewrite (trimStart_plain c _ Hlow Hc).
    by rewrite (IH Hw).
Qed.

(** [trim] removes the padding of a word made of characters of the ASCII
    range that are not white space. *)
Lemma trim_padded (left w right : string) :
  all_space left = true → all_space right = true → plain w = true →
  Js.trim (left +:+ w +:+ right) = w.
Proof.
  intros Hl Hr Hw. unfold Js.trim.
  rewrite (trimStart_all_space left _ Hl).
  destruct w as [|c w].
  - change ("" +:+ right) with right.
    by rewrite (trimStart_all_space_nil _ Hr).
  - pose proof Hw as Hw'. cbn [plain] in Hw'.
    apply andb_true_iff in Hw' as [[Hlow Hc]%andb_true_iff _].
    apply Nat.ltb_lt in Hlow. apply negb_true_iff in Hc.
    change (String c w +:+ right) with (String c (w +:+ right)).
    rewrite (trimStart_plain c _ Hlow Hc).
    exact (trimEnd_plain (String c w) right Hw Hr).
Qed.

(** The choice read by [chooseMode] from a padded word, whatever the case
    of its letters. *)
Lemma choice_padded (left word right target : string) :
  all_space left = true → all_space right = true → plain target = true →
  Js.toLowerCase target = target →
  equal_up_to_case word target →
  Js.trim (Js.toLowerCase (left +:+ word +:+ right)) = target.
Proof.
  intros Hl Hr Hplain Hlow Hword.
  apply (toLowerCase_eq_iff word _ Hlow) in Hword.
  rewrite !toLowerCase_app, Hword, (toLowerCase_all_space left Hl),
    (toLowerCase_all_space right Hr).
  by apply trim_padded.
Qed.

(** [trim] removes the white space outside the ASCII range too: a choice
    typed between no-break spaces, or after an ideographic space, is read;
    the zero-width space U+200B is not white space. *)
Lemma trim_white_space_examples :
  all_space (no_break_space +:+ " " +:+ ideographic_space) = true ∧
  Js.trim (no_break_space +:+ "chat" +:+ no_break_space) = "chat" ∧
  Js.trim (ideographic_space +:+ "2 ") = "2" ∧
  Js.trim (String (ascii_of_nat 226)
             (String (ascii_of_nat 128) (String (ascii_of_nat 139) "1")))
  ≠ "1".
Proof. by vm_compute. Qed.

(** ** The interaction shell *)

Lemma print_chunk_returns (chunk : Chunk) (sh : Shell) :
  ∃ sh', print_chunk chunk sh = (Returned tt, sh') ∧
         forwarded sh' = forwarded sh ∧ rl_closed sh' = rl_closed sh.
Proof. destruct chunk; eexists; (split; [reflexivity|done]). Qed.

Lemma forEach_print_chunk (stream : list Chunk) (sh : Shell) :
  ∃ sh', forEach stream print_chunk sh = (Returned tt, sh') ∧
         forwarded sh' = forwarded sh ∧ rl_closed sh' = rl_closed sh.
Proof.
  revert sh. induction stream as [|chunk stream IH]; intros sh.
  - by exists sh.
  - cbn [forEach]. unfold mbind, eff_mbind, eff_bind.
    destruct (print_chunk_returns chunk sh) as (sh1 & -> & Hf1 & Hc1).
    destruct (IH sh1) as (sh2 & -> & Hf2 & Hc2).
    exists sh2. split; [done|]. by rewrite Hf2, Hc2.
Qed.

(** One turn of the chat loop on the exit word. *)
Lemma chat_loop_exit (agent : Agent) (line : string) (lines : list string)
    (sh : Shell) :
  Js.toLowerCase line = "exit" →
  ∃ sh', chat_loop agent (line :: lines) sh = (Returned tt, sh') ∧
         forwarded sh' = forwarded sh ∧ rl_closed sh' = rl_closed sh.
Proof.
  intros Hexit. cbn [chat_loop].
  rewrite bool_decide_eq_true_2 by done.
  eexists. split; [reflexivity|]. done.
Qed.

(** The chat loop only adds to the messages forwarded, and does not close
    the readline interface. *)
Lemma chat_loop_forwarded (agent : Agent) (lines : list string) (sh : Shell) :
  ∃ outcome sh', chat_loop agent lines sh = (outcome, sh') ∧
                 forwarded sh `prefix_of` forwarded sh' ∧
                 rl_closed sh' = rl_closed sh.
Proof.
  revert sh. induction lines as [|line lines IH]; intros sh.
  - eexists _, _. split; [reflexivity|]. done.
  - cbn [chat_loop].
    destruct (bool_decide (Js.toLowerCase line = "exit")).
    { eexists _, _. split; [reflexivity|]. done. }
    unfold mbind, eff_mbind, eff_bind, shell_write, modify, agent_stream,
      await, eff_ret, throw.
    cbn. destruct (agent (forwarded sh) line) as [stream|e].
    + match goal with
      | |- context [forEach stream print_chunk ?s] =>
          destruct (forEach_print_chunk stream s) as (sh1 & -> & Hf1 & Hc1)
      end.
      destruct (IH sh1) as (outcome & sh2 & Hrun & Hf2 & Hc2).
      exists outcome, sh2.
      split; [exact Hrun|]. rewrite Hc2, Hc1. split; [|done].
      etrans; [|exact Hf2]. rewrite Hf1. cbn. by apply prefix_app_r.
    + eexists _, _. split; [reflexivity|]. cbn. split; [|done].
      by apply prefix_app_r.
Qed.

(** One turn of the chat loop on any other line: the line is forwarded as it
    was typed. *)
Lemma chat_loop_forward (agent : Agent) (line : string) (lines : list string)
    (sh : Shell) :
  Js.toLowerCase line ≠ "exit" →
  ∃ outcome sh', chat_loop agent (line :: lines) sh = (outcome, sh') ∧
                 (forwarded sh ++ [line]) `prefix_of` forwarded sh'.
Proof.
  intros Hline. cbn [chat_loop].
  rewrite bool_decide_eq_false_2 by done.
  unfold mbind, eff_mbind, eff_bind, shell_write, modify, agent_stream,
    await, eff_ret, throw.
  cbn. destruct (agent (forwarded sh) line) as [stream|e].
  - match goal with
    | |- context [forEach stream print_chunk ?s] =>
        destruct (forEach_print_chunk stream s) as (sh1 & -> & Hf1 & _)
    end.
    destruct (chat_loop_forwarded agent lines sh1)
      as (outcome & sh2 & Hrun & Hf2 & _).
    exists outcome, sh2. split; [exact Hrun|].
    etrans; [|exact Hf2]. by rewrite Hf1.
  - eexists _, _. split; [reflexivity|]. done.
Qed.

(** The chat loop gets past the lines that are not the exit word and that
    the agent answers, forwarding each of them. *)
Lemma chat_loop_gets_past (agent : Agent) (before rest : list string)
    (sh : Shell) :
  gets_past agent (forwarded sh) before = true →
  ∃ sh', chat_loop agent (before ++ rest) sh = chat_loop agent rest sh' ∧
         forwarded sh' = forwarded sh ++ before ∧
         rl_closed sh' = rl_closed sh.
Proof.
  revert sh. induction before as [|line before IH]; intros sh Hpast.
  - exists sh. by rewrite app_nil_r.
  - cbn [gets_past] in Hpast.
    apply andb_true_iff in Hpast as [[Hline Hagent]%andb_true_iff Hpast].
    apply negb_true_iff in Hline.
    change ((line :: before) ++ rest) with (line :: (before ++ rest)).
    cbn [chat_loop]. rewrite Hline.
    unfold mbind, eff_mbind, eff_bind, shell_write, modify, agent_stream,
      await, eff_ret, throw.
    cbn. destruct (agent (forwarded sh) line) as [stream|e]; [|done].
    match goal with
    | |- context [forEach stream print_chunk ?s] =>
        destruct (forEach_print_chunk stream s) as (sh1 & -> & Hf1 & Hc1)
    end.
    cbn in Hf1, Hc1. rewrite <- Hf1 in Hpast.
    destruct (IH sh1 Hpast) as (sh2 & Hrun & Hf2 & Hc2).
    exists sh2. split; [exact Hrun|].
    rewrite Hf2, Hf1, Hc2, Hc1, <- app_assoc. done.
Qed.

(** What [runChatMode] adds around its loop: the greeting before it; the
    [catch], which exits, and the [finally], which closes the readline
    interface, after it.  None of them forwards anything. *)
Lemma runChatMode_around_loop (agent : Agent) (lines : list string) :
  let start := {| console := [Log "Starting chat mode... Type 'exit' to end."];
                  forwarded := []; rl_closed := false |} in
  ∃ outcome sh,
    runChatMode agent lines shell_start = (outcome, sh) ∧
    forwarded sh = forwarded (chat_loop agent lines start).2 ∧
    (∀ sh', chat_loop agent lines start = (Returned tt, sh') →
            outcome = Returned tt ∧ rl_closed sh = true) ∧
    (outcome = Returned tt → (chat_loop agent lines start).1 = Returned tt).
Proof.
  intros start. unfold runChatMode, try_finally, try_catch.
  unfold mbind at 1, eff_mbind, eff_bind at 1. cbn [shell_write modify].
  change (chat_loop agent lines _) with (chat_loop agent lines start).
  destruct (chat_loop agent lines start) as [[[]|e|code|] sh1].
  - eexists _, _. split; [reflexivity|]. split; [done|].
    split; [by intros ? [= <-] | done].
  - unfold mbind, eff_mbind, eff_bind, shell_write, modify, process_exit,
      mret, eff_mret, eff_ret.
    destruct (Js.instanceofError e); cbn;
      (eexists _, _; split; [reflexivity|]; split; [done|];
       split; discriminate).
  - eexists _, _. split; [reflexivity|]. split; [done|]. split; discriminate.
  - eexists _, _. split; [reflexivity|]. split; [done|]. split; discriminate.
Qed.

(** C8. In chat mode, take any line that the loop reaches: the lines typed
    before it are not the exit word, and the agent has answered each of
    them.  If the line equals "exit" up to the case of its letters, the run
    returns with the readline interface closed, and the messages forwarded
    to the agent session are the lines before it, no more.  If it does not,
    the line is the next message forwarded, character for character. *)
Theorem runChatMode_exit_or_forward
    (agent : Agent) (before after : list string) (line : string)
    (Hpast : gets_past agent [] before = true) :
  ∃ outcome sh,
    runChatMode agent (before ++ line :: after) shell_start = (outcome, sh) ∧
    (equal_up_to_case line "exit" →
       outcome = Returned tt ∧ forwarded sh = before ∧ rl_closed sh = true) ∧
    (¬ equal_up_to_case line "exit" →
       (before ++ [line]) `prefix_of` forwarded sh).
Proof.
  destruct (runChatMode_around_loop agent (before ++ line :: after))
    as (outcome & sh & Hrun & Hfwd & Hret & _).
  exists outcome, sh. split; [exact Hrun|].
  match type of Hfwd with
  | context [chat_loop _ _ ?s] => set (start := s) in *
  end.
  destruct (chat_loop_gets_past agent before (line :: after) start Hpast)
    as (sh1 & Hloop & Hf1 & Hc1).
  rewrite Hloop in Hfwd, Hret. cbn in Hf1.
  rewrite <- (toLowerCase_eq_iff line "exit" eq_refl).
  split.
  - intros Hexit.
    destruct (chat_loop_exit agent line after sh1 Hexit)
      as (sh2 & Hturn & Hf2 & _).
    rewrite Hturn in Hfwd. destruct (Hret sh2 Hturn) as [-> Hclosed].
    cbn in Hfwd. by rewrite Hfwd, Hf2, Hf1.
  - intros Hline.
    destruct (chat_loop_forward agent line after sh1 Hline)
      as (out2 & sh2 & Hturn & Hf2).
    rewrite Hturn in Hfwd. cbn in Hfwd. by rewrite Hfwd, <- Hf1.
Qed.

Lemma runChatMode_exit_or_forward_witness :
  gets_past echo_agent [] ["hello"] = true ∧
  equal_up_to_case "EXIT" "exit" ∧
  ∃ sh,
    runChatMode echo_agent (["hello"] ++ "EXIT" :: ["ignored"]) shell_start
      = (Returned tt, sh) ∧
    forwarded sh = ["hello"] ∧ rl_closed sh = true.
Proof.
  assert (Hcase : equal_up_to_case "EXIT" "exit").
  { apply (toLowerCase_eq_iff "EXIT" "exit" eq_refl). reflexivity. }
  split; [reflexivity|]. split; [exact Hcase|].
  destruct (runChatMode_exit_or_forward echo_agent ["hello"] ["ignored"]
              "EXIT" eq_refl) as (outcome & sh & Hrun & Hexit & _).
  destruct (Hexit Hcase) as (-> & Hf & Hc).
  exists sh. split; [exact Hrun|]. split; [exact Hf | exact Hc].
Defined.

(** The chat loop on one line that is not the exit word: the line is
    forwarded, and the loop does not return. *)
Lemma chat_loop_single (agent : Agent) (line : string) (sh : Shell) :
  Js.toLowerCase line ≠ "exit" →
  ∃ outcome sh', chat_loop agent [line] sh = (outcome, sh') ∧
                 outcome ≠ Returned tt ∧
                 forwarded sh' = forwarded sh ++ [line].
Proof.
  intros Hline. cbn [chat_loop].
  rewrite bool_decide_eq_false_2 by done.
  unfold mbind, eff_mbind, eff_bind, shell_write, modify, agent_stream,
    await, eff_ret, throw, pending.
  cbn. destruct (agent (forwarded sh) line) as [stream|e].
  - match goal with
    | |- context [forEach stream print_chunk ?s] =>
        destruct (forEach_print_chunk stream s) as (sh1 & -> & Hf1 & _)
    end.
    eexists _, _. split; [reflexivity|]. split; [discriminate|]. done.
  - eexists _, _. split; [reflexivity|]. split; [discriminate|]. done.
Qed.

(** A padded word is not the word. *)
Lemma padded_ne (left word right : string) :
  left +:+ right ≠ "" → left +:+ word +:+ right ≠ word.
Proof.
  intros Hpad Heq. apply (f_equal String.length) in Heq.
  rewrite !string_app_length in Heq.
  destruct left as [|c left]; [destruct right as [|c right]|];
    [done|cbn in Heq; lia..].
Qed.

(** C10. The exit check of the chat loop lowers the case of the input and
    does not trim it; the mode chooser lowers and trims.  So a line made of
    "exit", in any case, with white space before or after it (as "exit ")
    is not taken for the exit word: the chat loop forwards it to the agent
    and does not return.  A choice made of "chat", "auto", "1" or "2" with
    white space around it (as " CHAT ") is accepted by the mode chooser. *)
Theorem exit_untrimmed_choice_trimmed
    (agent : Agent) (left word right : string) (rest : list string)
    (sh : Shell)
    (Hleft : all_space left = true) (Hright : all_space right = true) :
  let line := left +:+ word +:+ right in
  (equal_up_to_case word "exit" → left +:+ right ≠ "" →
     Js.toLowerCase line ≠ "exit" ∧
     ∃ outcome sh',
       runChatMode agent [line] shell_start = (outcome, sh') ∧
       outcome ≠ Returned tt ∧ forwarded sh' = [line]) ∧
  (equal_up_to_case word "chat" ∨ word = "1" →
     ∃ sh', chooseMode (line :: rest) sh = (Returned (Chat, rest), sh')) ∧
  (equal_up_to_case word "auto" ∨ word = "2" →
     ∃ sh', chooseMode (line :: rest) sh = (Returned (Auto, rest), sh')).
Proof.
  intros line. split; [|split].
  - intros Hword Hpad.
    apply (toLowerCase_eq_iff word "exit" eq_refl) in Hword.
    assert (Hline : Js.toLowerCase line ≠ "exit").
    { unfold line.
      rewrite !toLowerCase_app, Hword, (toLowerCase_all_space left Hleft),
        (toLowerCase_all_space right Hright).
      by apply padded_ne. }
    split; [exact Hline|].
    destruct (runChatMode_around_loop agent [line])
      as (outcome & sh' & Hrun & Hfwd & _ & Hret).
    match type of Hfwd with
    | context [chat_loop _ _ ?s] =>
        destruct (chat_loop_single agent line s Hline)
          as (out1 & sh1 & Hloop & Hout & Hf1)
    end.
    rewrite Hloop in Hfwd, Hret. cbn in Hfwd, Hret, Hf1.
    exists outcome, sh'. split; [exact Hrun|]. split; [tauto | congruence].
  - intros Hword.
    assert (Hchoice : Js.trim (Js.toLowerCase line) = "chat"
                      ∨ Js.trim (Js.toLowerCase line) = "1").
    { destruct Hword as [Hword| ->]; [left|right].
      - exact (choice_padded left word right "chat" Hleft Hright eq_refl
                 eq_refl Hword).
      - exact (choice_padded left "1" right "1" Hleft Hright eq_refl
                 eq_refl (conj (or_introl eq_refl) I)). }
    cbn [chooseMode].
    unfold mbind, eff_mbind, eff_bind, shell_write, modify, rl_close,
      mret, eff_mret, eff_ret.
    cbn beta iota. fold line.
    destruct Hchoice as [-> | ->]; cbn; eexists; reflexivity.
  - intros Hword.
    assert (Hchoice : Js.trim (Js.toLowerCase line) = "auto"
                      ∨ Js.trim (Js.toLowerCase line) = "2").
    { destruct Hword as [Hword| ->]; [left|right].
      - exact (choice_padded left word right "auto" Hleft Hright eq_refl
                 eq_refl Hword).
      - exact (choice_padded left "2" right "2" Hleft Hright eq_refl
                 eq_refl (conj (or_introl eq_refl) I)). }
    cbn [chooseMode].
    unfold mbind, eff_mbind, eff_bind, shell_write, modify, rl_close,
      mret, eff_mret, eff_ret.
    cbn beta iota. fold line.
    destruct Hchoice as [-> | ->]; cbn; eexists; reflexivity.
Qed.

(** The two examples: "exit " in chat mode, " CHAT " at the mode prompt. *)
Lemma exit_untrimmed_choice_trimmed_witness :
  (all_space "" = true ∧ all_space " " = true ∧
   ∃ outcome sh,
     runChatMode echo_agent ["exit "] shell_start = (outcome, sh) ∧
     outcome ≠ Returned tt ∧ forwarded sh = ["exit "]) ∧
  (all_space " " = true ∧
   ∃ sh, chooseMode [" CHAT "] shell_start = (Returned (Chat, []), sh)).
Proof.
  split.
  - split; [reflexivity|]. split; [reflexivity|].
    destruct (exit_untrimmed_choice_trimmed echo_agent "" "exit" " " []
                shell_start eq_refl eq_refl) as [Hexit _].
    assert (Hcase : equal_up_to_case "exit" "exit")
      by (apply (toLowerCase_eq_iff "exit" "exit" eq_refl); reflexivity).
    destruct (Hexit Hcase ltac:(discriminate)) as [_ Hrun].
    exact Hrun.
  - split; [reflexivity|].
    destruct (exit_untrimmed_choice_trimmed echo_agent " " "CHAT" " " []
                shell_start eq_refl eq_refl) as (_ & Hchat & _).
    assert (Hcase : equal_up_to_case "CHAT" "chat")
      by (apply (toLowerCase_eq_iff "CHAT" "chat" eq_refl); reflexivity).
    exact (Hchat (or_introl Hcase)).
Defined.

(** ** The object-storage uploader *)

Lemma no_dash_app (s t : string) :
  no_dash (s +:+ t) = no_dash s && no_dash t.
Proof.
  induction s as [|c s IH]; [done|].
  change (no_dash (String c (s +:+ t)) = no_dash (String c s) && no_dash t).
  cbn. by rewrite IH, andb_assoc.
Qed.

Lemma no_dash_after_dash (a d : string) : no_dash (a +:+ String "-" d) = false.
Proof. rewrite no_dash_app. cbn. apply andb_false_r. Qed.

Lemma pretty_N_go_no_dash (x : N) (s : string) :
  no_dash s = true → no_dash (pretty_N_go x s) = true.
Proof.
  revert s. induction (N.lt_wf_0 x) as [x _ IH]; intros s Hs.
  destruct (decide (x = 0)%N) as [->|Hx]; [by rewrite pretty_N_go_0|].
  rewrite pretty_N_go_step by lia.
  apply IH; [apply N.div_lt; lia|].
  cbn. rewrite Hs, andb_true_r. unfold pretty_N_char.
  by repeat case_match.
Qed.

(** The decimal writing of a number that is not negative has no dash. *)
Lemma pretty_Z_no_dash (z : Z) : (0 ≤ z)%Z → no_dash (pretty z) = true.
Proof.
  destruct z as [|p|p]; [done| |lia]. intros _.
  unfold pretty, pretty_Z, pretty, pretty_positive, pretty, pretty_N.
  rewrite decide_False by done. by apply pretty_N_go_no_dash.
Qed.

(** A string is cut in one way only at its last dash. *)
Lemma dash_split_inj (a1 a2 d1 d2 : string) :
  no_dash d1 = true → no_dash d2 = true →
  a1 +:+ "-" +:+ d1 = a2 +:+ "-" +:+ d2 → a1 = a2 ∧ d1 = d2.
Proof.
  intros H1 H2. revert a2.
  induction a1 as [|c a1 IH]; intros [|c' a2] Heq;
    unfold String.append in Heq; fold String.append in Heq.
  - by injection Heq as ->.
  - injection Heq as <- ->. by rewrite no_dash_after_dash in H1.
  - injection Heq as -> <-. by rewrite no_dash_after_dash in H2.
  - injection Heq as -> Heq. by destruct (IH _ Heq) as [-> ->].
Qed.

Lemma string_app_inj_r (s1 s2 t : string) : s1 +:+ t = s2 +:+ t → s1 = s2.
Proof.
  intros Heq. apply (string_app_inj_length s1 s2 t t); [|done].
  apply (f_equal String.length) in Heq.
  rewrite !string_app_length in Heq. lia.
Qed.

(** *** The product [Math.random() * 10000] of the binary64 format *)

Section Binary64.
Local Open Scope Z_scope.

(** The mantissa [p] has [digits2_pos p] binary digits. *)
Lemma digits2_pos_bounds (p : positive) :
  2 ^ (Z.pos (digits2_pos p) - 1) ≤ Z.pos p < 2 ^ Z.pos (digits2_pos p).
Proof.
  induction p as [p IH|p IH|]; cbn [digits2_pos]; [| |done];
    rewrite Pos2Z.inj_succ;
    replace (Z.succ (Z.pos (digits2_pos p)) - 1)
      with (Z.succ (Z.pos (digits2_pos p) - 1)) by lia;
    rewrite !Z.pow_succ_r by lia; lia.
Qed.

(** One shift to the right halves the mantissa and keeps the bit that falls
    off as the rounding bit. *)
Lemma shr_1_spec (r : shr_record) :
  0 ≤ shr_m r →
  0 ≤ shr_m (shr_1 r) ∧
  shr_m r = 2 * shr_m (shr_1 r) + Z.b2z (shr_r (shr_1 r)).
Proof.
  destruct r as [m r s]. cbn [shr_m]. intros Hm.
  destruct m as [|[p|p|]|p]; cbn; lia.
Qed.

(** [n] shifts: the mantissa is divided by 2^n, and the rounding bit is set
    only if the part that fell off is at least half of 2^n. *)
Lemma iter_shr_1_spec (n : positive) (r : shr_record) :
  0 ≤ shr_m r →
  0 ≤ shr_m (SpecFloat.iter_pos shr_1 n r) ∧
  shr_m (SpecFloat.iter_pos shr_1 n r) * 2 ^ Z.pos n ≤ shr_m r ∧
  (shr_r (SpecFloat.iter_pos shr_1 n r) = true →
   (2 * shr_m (SpecFloat.iter_pos shr_1 n r) + 1) * 2 ^ Z.pos n ≤ 2 * shr_m r).
Proof.
  revert r. induction n as [n IH|n IH|]; intros r Hr; cbn [SpecFloat.iter_pos].
  - destruct (shr_1_spec r Hr) as [H1 E1].
    destruct (IH _ H1) as (H2 & L2 & R2).
    destruct (IH _ H2) as (H3 & L3 & R3).
    set (r1 := shr_1 r) in *. set (r2 := SpecFloat.iter_pos shr_1 n r1) in *.
    set (r3 := SpecFloat.iter_pos shr_1 n r2) in *.
    change (Z.pos n~1) with (2 * Z.pos n + 1).
    rewrite Z.pow_add_r, Z.pow_1_r by lia.
    replace (2 * Z.pos n) with (Z.pos n + Z.pos n) by lia.
    rewrite Z.pow_add_r by lia.
    assert (0 < 2 ^ Z.pos n) by (apply Z.pow_pos_nonneg; lia).
    destruct (shr_r r1); cbn [Z.b2z] in E1;
      (split; [done|]; split; [nia|]; intros Hr3; specialize (R3 Hr3); nia).
  - destruct (IH _ Hr) as (H2 & L2 & R2).
    destruct (IH _ H2) as (H3 & L3 & R3).
    set (r2 := SpecFloat.iter_pos shr_1 n r) in *.
    set (r3 := SpecFloat.iter_pos shr_1 n r2) in *.
    change (Z.pos n~0) with (2 * Z.pos n).
    replace (2 * Z.pos n) with (Z.pos n + Z.pos n) by lia.
    rewrite Z.pow_add_r by lia.
    assert (0 < 2 ^ Z.pos n) by (apply Z.pow_pos_nonneg; lia).
    split; [done|]; split; [nia|]; intros Hr3; specialize (R3 Hr3); nia.
  - destruct (shr_1_spec r Hr) as [H1 E1]. rewrite Z.pow_1_r.
    split; [done|]. split; [destruct (shr_r (shr_1 r)); cbn in E1; lia|].
    intros Hr1. rewrite Hr1 in E1. cbn in E1. lia.
Qed.

Lemma Zdigits2_bounds (m : Z) :
  0 < m → 2 ^ (Zdigits2 m - 1) ≤ m < 2 ^ Zdigits2 m.
Proof.
  destruct m as [|p|p]; [lia| |lia]. intros _. apply digits2_pos_bounds.
Qed.

Lemma Zdigits2_nonneg (m : Z) : 0 ≤ Zdigits2 m.
Proof. by destruct m. Qed.

(** The digits of a number below a power of two. *)
Lemma Zdigits2_below (m b : Z) : 0 ≤ m → 0 ≤ b → m < 2 ^ b → Zdigits2 m ≤ b.
Proof.
  intros Hm Hb Hlt. destruct (decide (m = 0)) as [->|Hne]; [done|].
  destruct (Zdigits2_bounds m) as [Hlow _]; [lia|].
  pose proof (Zdigits2_nonneg m).
  destruct (decide (Zdigits2 m ≤ b)) as [|Hgt]; [done|]. exfalso.
  assert (2 ^ b ≤ 2 ^ (Zdigits2 m - 1)) by (apply Z.pow_le_mono_r; lia).
  lia.
Qed.

(** The shift that brings a mantissa to the precision of the format. *)
Lemma shr_fexp_exact (m e : Z) (r : shr_record) (e' : Z) :
  0 ≤ m →
  shr_fexp Number.prec Number.emax m e loc_Exact = (r, e') →
  ∃ j, j = Z.max (fexp Number.prec Number.emax (Zdigits2 m + e) - e) 0 ∧
    e' = e + j ∧ 0 ≤ shr_m r ∧ shr_m r * 2 ^ j ≤ m ∧
    (shr_r r = true → (2 * shr_m r + 1) * 2 ^ j ≤ 2 * m).
Proof.
  intros Hm. unfold shr_fexp, shr. cbn [shr_record_of_loc].
  destruct (fexp _ _ _ - e) as [|n|n] eqn:Hn; intros [= <- <-].
  - exists 0. cbn [shr_m shr_r]. rewrite Z.pow_0_r. repeat split; try lia;
      discriminate.
  - exists (Z.pos n).
    destruct (iter_shr_1_spec n {| shr_m := m; shr_r := false; shr_s := false |})
      as (H1 & H2 & H3); [done|].
    cbn [shr_m] in H2, H3. repeat split; try lia; done.
  - exists 0. cbn [shr_m shr_r]. rewrite Z.pow_0_r. repeat split; try lia;
      discriminate.
Qed.

(** Rounding keeps the mantissa or adds one to it, and adds one only when
    the rounding bit is set. *)
Lemma round_nearest_even_spec (r : shr_record) :
  let m1 := round_nearest_even (shr_m r) (loc_of_shr_record r) in
  m1 = shr_m r ∨ (m1 = shr_m r + 1 ∧ shr_r r = true).
Proof.
  destruct r as [m [] []]; cbn; [by right|
    destruct (Z.even m); [by left | by right] | by left | by left].
Qed.

(** A mantissa of the format is below 2^53. *)
Lemma bounded_mantissa (m : positive) (e : Z) :
  bounded Number.prec Number.emax m e = true → Z.pos m < 2 ^ 53.
Proof.
  unfold bounded, canonical_mantissa, fexp, Number.prec, Number.emax.
  intros [Hc%Z.eqb_eq _]%andb_true_iff.
  destruct (digits2_pos_bounds m) as [_ Hlt].
  assert (Hd : Z.pos (digits2_pos m) ≤ 53) by lia.
  assert (2 ^ Z.pos (digits2_pos m) ≤ 2 ^ 53) by (apply Z.pow_le_mono_r; lia).
  lia.
Qed.

(** The product by 10000 of a number m * 2^e of the format with e <= -53,
    which is below 1, is a finite number or zero, of integer part between 0
    and 9999: the rounding of the product never reaches 10000. *)
Lemma mul_ten_thousand_floor (m : positive) (e : Z) :
  bounded Number.prec Number.emax m e = true → e ≤ -53 →
  ∃ n, 0 ≤ n ≤ 9999 ∧
    Number.floor (Number.mul (S754_finite false m e) Number.ten_thousand)
    = Some n.
Proof.
  intros Hm%bounded_mantissa He.
  unfold Number.mul, Number.ten_thousand, SFmul, binary_round_aux.
  cbn [xorb]. rewrite Pos2Z.inj_mul.
  set (C := 5497558138880000) in *.
  set (k := - e). assert (Hk : 53 ≤ k) by lia.
  replace (e + -39) with (- k - 39) by lia.
  assert (HP : 2 ^ 53 ≤ 2 ^ k) by (apply Z.pow_le_mono_r; lia).
  assert (HT : C * 2 ^ k < 2 ^ (53 + k)).
  { rewrite Z.pow_add_r by lia. assert (0 < 2 ^ k) by lia. 
    assert (C < 2 ^ 53) by done. nia. }
  assert (HM : 2 * (Z.pos m * C) + 2 ^ k < 2 * (C * 2 ^ k)).
  { change (2 ^ 53) with 9007199254740992 in *. subst C. lia. }
  destruct (shr_fexp _ _ (Z.pos m * C) (- k - 39) loc_Exact) as [r1 e1] eqn:H1.
  apply shr_fexp_exact in H1 as (j1 & Hj1 & -> & Hr1 & Hle1 & Hup1); [|lia].
  assert (Hj1k : 0 ≤ j1 ≤ k).
  { assert (Zdigits2 (Z.pos m * C) ≤ 53 + k)
      by (apply Zdigits2_below; lia).
    unfold fexp, emin, Number.prec, Number.emax in Hj1. lia. }
  assert (HA : 0 < 2 ^ j1 ≤ 2 ^ k).
  { split; [apply Z.pow_pos_nonneg; lia | apply Z.pow_le_mono_r; lia]. }
  pose proof (round_nearest_even_spec r1) as Hround. cbn zeta in Hround.
  set (m1 := round_nearest_even (shr_m r1) (loc_of_shr_record r1)) in *.
  assert (Hm1 : 0 ≤ m1 ∧ m1 * 2 ^ j1 < C * 2 ^ k).
  { destruct Hround as [->|[-> Hr]]; [nia|].
    specialize (Hup1 Hr). nia. }
  destruct (shr_fexp _ _ m1 (- k - 39 + j1) loc_Exact) as [r2 e2] eqn:H2.
  apply shr_fexp_exact in H2 as (j2 & Hj2 & -> & Hr2 & Hle2 & _); [|lia].
  assert (Hd1 : Zdigits2 m1 ≤ 53 + k - j1).
  { apply Zdigits2_below; [lia..|].
    assert (2 ^ (53 + k) = 2 ^ (53 + k - j1) * 2 ^ j1)
      by (rewrite <- Z.pow_add_r by lia; f_equal; lia).
    nia. }
  set (q := k + 39 - j1 - j2).
  assert (Hq : 39 ≤ q ∧ 0 ≤ j2).
  { unfold fexp, emin, Number.prec, Number.emax in Hj2. lia. }
  replace (- k - 39 + j1 + j2) with (- q) by lia.
  assert (HB : 0 < 2 ^ j2) by (apply Z.pow_pos_nonneg; lia).
  assert (HQ : 0 < 2 ^ q) by (apply Z.pow_pos_nonneg; lia).
  assert (Hsplit : C * 2 ^ k = 10000 * 2 ^ q * (2 ^ j1 * 2 ^ j2)).
  { rewrite <- Z.mul_assoc, <- !Z.pow_add_r by lia.
    replace (q + (j1 + j2)) with (39 + k) by lia.
    rewrite Z.pow_add_r by lia. change (2 ^ 39) with 549755813888.
    subst C. lia. }
  assert (Hm2 : shr_m r2 < 10000 * 2 ^ q).
  { apply (Z.mul_lt_mono_pos_r (2 ^ j1 * 2 ^ j2)); [lia|].
    rewrite <- Hsplit.
    apply Z.le_lt_trans with (m1 * 2 ^ j1); [|lia].
    rewrite (Z.mul_comm (2 ^ j1)), Z.mul_assoc.
    apply Z.mul_le_mono_nonneg_r; lia. }
  destruct (shr_m r2) as [|p|p] eqn:Hp; [| |lia].
  - exists 0. by split.
  - replace (- q <=? Number.emax - Number.prec) with true
      by (symmetry; apply Z.leb_le; unfold Number.emax, Number.prec; lia).
    cbn [Number.floor cond_Zopp]. eexists. split; [|reflexivity].
    rewrite Z.shiftl_div_pow2, Z.opp_involutive by lia.
    split; [apply Z.div_pos; lia|].
    assert (Z.pos p / 2 ^ q < 10000); [|lia].
    apply Z.div_lt_upper_bound; lia.
Qed.

End Binary64.

(** Whatever [Math.random()] gives, [Math.random() * 10000] is finite or
    zero and [Math.floor] of it is an integer from 0 to 9999. *)
Lemma random_product_floor (world : Outside) :
  ∃ n : Z, (0 ≤ n ≤ 9999)%Z ∧ Number.floor (random_product world) = Some n.
Proof.
  unfold random_product.
  destruct (Math_random world) as [x Hx]. cbn [Number.value].
  destruct x as [[]| | |[] m e]; try discriminate Hx.
  - exists 0%Z. by split.
  - cbn [Number.in_unit_interval] in Hx.
    apply andb_true_iff in Hx as [Hb He%Z.leb_le].
    apply mul_ten_thousand_floor; [done|]. unfold Number.prec in He. lia.
Qed.

Lemma random_suffix_digits (world : Outside) :
  ∃ n : Z, (0 ≤ n ≤ 9999)%Z ∧ Number.floor (random_product world) = Some n
    ∧ random_suffix world = pretty n.
Proof.
  destruct (random_product_floor world) as (n & Hn & Hfloor).
  exists n. split; [done|]. split; [done|].
  unfold random_suffix, Number.floor_text. by rewrite Hfloor.
Qed.

Lemma random_suffix_no_dash (world : Outside) :
  no_dash (random_suffix world) = true.
Proof.
  destruct (random_suffix_digits world) as (n & Hn & _ & ->).
  apply pretty_Z_no_dash. lia.
Qed.

(** Two calls show the same random number in their keys exactly when the
    integer parts of their products are the same. *)
Lemma random_suffix_eq_iff (w1 w2 : Outside) :
  random_suffix w1 = random_suffix w2
  ↔ Number.floor (random_product w1) = Number.floor (random_product w2).
Proof.
  destruct (random_suffix_digits w1) as (n1 & _ & -> & ->).
  destruct (random_suffix_digits w2) as (n2 & _ & -> & ->).
  split; [by intros ->%pretty_Z_inj | by intros [= ->]].
Qed.

(** A key tells the time and the random number it was made from. *)
Lemma objectKey_inj (w1 w2 : Outside) :
  objectKey w1 = objectKey w2 →
  Date_now w1 = Date_now w2 ∧ random_suffix w1 = random_suffix w2.
Proof.
  intros Hkey. unfold objectKey in Hkey.
  apply String.app_inj in Hkey.
  apply dash_split_inj in Hkey as [Hnow Hrand].
  - split; [by apply pretty_Z_inj in Hnow|].
    by apply string_app_inj_r in Hrand.
  - by rewrite no_dash_app, random_suffix_no_dash.
  - by rewrite no_dash_app, random_suffix_no_dash.
Qed.

(** A call whose fetch and whose write succeed asks for one object, under
    its key, and returns the address made of the bucket, the region and
    that key. *)
Lemma uploadImageUrlToS3_returns (world : Outside) (imageUrl data : string)
    (u : Uploads) :
  axios_get world imageUrl = Js.Fulfilled data →
  (∀ params, s3_upload world params = Js.Fulfilled tt) →
  ∃ u',
    uploadImageUrlToS3 world imageUrl u
      = (Returned ("https://placeholderads.s3.ap-south-1.amazonaws.com/"
                   +:+ objectKey world), u') ∧
    keys_written u' = keys_written u ++ [objectKey world].
Proof.
  intros Hfetch Hstore.
  unfold uploadImageUrlToS3, try_catch, s3_upload_promise,
    mbind, eff_mbind, eff_bind, modify, await, mret, eff_mret, eff_ret.
  rewrite Hfetch, Hstore. eexists. split; [reflexivity|].
  unfold keys_written. cbn. by rewrite fmap_app.
Qed.

(** X28. Take two calls of the uploader, one after the other, on any two
    image addresses (the same one, possibly), each with a fetch and a write
    that succeed.  Each call asks the storage service for one object and
    returns an address that contains the key of that object.  The two keys
    differ exactly when the two calls differ in the time [Date.now()] gives
    them or in the integer part of the binary64 product
    [Math.random() * 10000]. *)
Theorem uploadImageUrlToS3_keys
    (w1 w2 : Outside) (url1 url2 data1 data2 : string) (u0 : Uploads)
    (Hfetch1 : axios_get w1 url1 = Js.Fulfilled data1)
    (Hfetch2 : axios_get w2 url2 = Js.Fulfilled data2)
    (Hstore1 : ∀ params, s3_upload w1 params = Js.Fulfilled tt)
    (Hstore2 : ∀ params, s3_upload w2 params = Js.Fulfilled tt) :
  ∃ s1 u1 s2 u2 key1 key2,
    uploadImageUrlToS3 w1 url1 u0 = (Returned s1, u1) ∧
    uploadImageUrlToS3 w2 url2 u1 = (Returned s2, u2) ∧
    keys_written u2 = keys_written u0 ++ [key1; key2] ∧
    Js.includes s1 key1 = true ∧ Js.includes s2 key2 = true ∧
    (key1 ≠ key2 ↔
     Date_now w1 ≠ Date_now w2
     ∨ Number.floor (random_product w1) ≠ Number.floor (random_product w2)).
Proof.
  destruct (uploadImageUrlToS3_returns w1 url1 data1 u0 Hfetch1 Hstore1)
    as (u1 & Hrun1 & Hkeys1).
  destruct (uploadImageUrlToS3_returns w2 url2 data2 u1 Hfetch2 Hstore2)
    as (u2 & Hrun2 & Hkeys2).
  eexists _, u1, _, u2, (objectKey w1), (objectKey w2).
  split; [exact Hrun1|]. split; [exact Hrun2|]. split.
  { by rewrite Hkeys2, Hkeys1, <- app_assoc. }
  split; [apply includes_suffix|]. split; [apply includes_suffix|].
  rewrite <- random_suffix_eq_iff. split.
  - intros Hne.
    destruct (decide (Date_now w1 = Date_now w2)) as [Hnow|]; [|by left].
    destruct (decide (random_suffix w1 = random_suffix w2)) as [Hrand|];
      [|by right].
    destruct Hne. unfold objectKey. by rewrite Hnow, Hrand.
  - intros Hdiff Hkey.
    destruct (objectKey_inj w1 w2 Hkey) as [Hnow Hrand].
    by destruct Hdiff.
Qed.

Lemma uploadImageUrlToS3_keys_witness :
  ∃ s1 u1 s2 u2,
    uploadImageUrlToS3 colliding_first "https://example.com/ad.png"
      uploads_start = (Returned s1, u1) ∧
    uploadImageUrlToS3 later_call "https://example.com/ad.png" u1
      = (Returned s2, u2) ∧
    keys_written u2 = [ "ad-images/1700000000000-1234.png";
                        "ad-images/1700000000001-1234.png" ].
Proof.
  destruct (uploadImageUrlToS3_keys colliding_first later_call
              "https://example.com/ad.png" "https://example.com/ad.png"
              "PNG" "PNG" uploads_start eq_refl eq_refl
              (λ _, eq_refl) (λ _, eq_refl))
    as (s1 & u1 & s2 & u2 & key1 & key2 & Hrun1 & Hrun2 & Hkeys & _).
  exists s1, u1, s2, u2. split; [exact Hrun1|]. split; [exact Hrun2|].
  vm_compute in Hrun1. injection Hrun1 as _ <-.
  vm_compute in Hrun2. injection Hrun2 as _ <-.
  reflexivity.
Defined.

(** C4. The code does not make the keys unique, as its comment "Generate a
    unique S3 object key" and the claim have it: two calls for the same
    image, made at the same millisecond, to which [Math.random()] gives two
    different numbers (the binary64 numbers nearest to 0.12341 and to
    0.12349), both succeed, return the same address and write under the same
    key, "ad-images/1700000000000-1234.png". *)
Theorem uploadImageUrlToS3_keys_collide :
  Number.value (Math_random colliding_first)
  ≠ Number.value (Math_random colliding_second) ∧
  ∃ s1 u1 s2 u2,
    uploadImageUrlToS3 colliding_first "https://example.com/ad.png"
      uploads_start = (Returned s1, u1) ∧
    uploadImageUrlToS3 colliding_second "https://example.com/ad.png" u1
      = (Returned s2, u2) ∧
    s1 = s2 ∧
    Js.includes s1 "ad-images/1700000000000-1234.png" = true ∧
    keys_written u2 = [ "ad-images/1700000000000-1234.png";
                        "ad-images/1700000000000-1234.png" ] ∧
    ¬ NoDup (keys_written u2).
Proof.
  split; [discriminate|].
  eexists _, _, _, _. split; [reflexivity|]. split; [reflexivity|].
  split; [reflexivity|]. split; [reflexivity|]. split; [reflexivity|].
  intros Hnodup. apply NoDup_cons in Hnodup as [Hnotin _].
  apply Hnotin. left.
Qed.


(** * Further properties of the code *)

(** ** The contract invoker and its tools *)

Lemma find_method_none (method : string) (abi : list AbiFunction) :
  List.find (λ func, bool_decide (name func = method)) abi = None →
  ¬ method_present method abi.
Proof.
  intros Hfind (func & Hin & Hname).
  apply list_elem_of_In in Hin.
  apply (find_none _ _ Hfind) in Hin. cbn in Hin.
  by rewrite bool_decide_eq_true_2 in Hin.
Qed.

Lemma find_method_some (method : string) (abi : list AbiFunction)
    (func : AbiFunction) :
  List.find (λ func, bool_decide (name func = method)) abi = Some func →
  method_present method abi.
Proof.
  intros [Hin Hname]%find_some. cbn in Hname.
  apply bool_decide_eq_true in Hname. exists func.
  split; [by apply list_elem_of_In | done].
Qed.

(** X1. On every input, [invokeContract] calls the wallet at most once and
    keeps the earlier submissions: when the method is in the ABI it adds one
    submission, carrying the address, the method, the arguments and the
    whole ABI it was given; when the method is not, it adds none.  Both
    variants of the agent behave so. *)
Theorem invokeContract_submits_at_most_once
    (wallet : Sdk.Wallet) (contractAddress method : string)
    (abi : list AbiFunction) (args : gmap string string) (log : Sdk.Log) :
  let run := invokeContract wallet contractAddress method abi args log in
  let run' :=
    PublishAd.invokeContract wallet contractAddress method abi args log in
  (method_present method abi ∧
   run.2 = log ++ [submission contractAddress method abi args] ∧
   run'.2 = log ++ [submission contractAddress method abi args]) ∨
  (¬ method_present method abi ∧ run.2 = log ∧ run'.2 = log).
Proof.
  cbn zeta. run_invoker.
  destruct (List.find _ abi) as [func|] eqn:Hfind; cbn beta iota.
  - left. split; [by apply (find_method_some _ _ func)|].
    destruct (Sdk.invokeContract wallet _) as [invocation|[msg|v]];
      cbn beta iota; [|done..].
    by destruct (Sdk.wait invocation) as [[[[|c h]|]]|[msg|v]].
  - right. split; [by apply find_method_none | done].
Qed.

(** X2. The recipient of the marketplace link is read from the key [to] of
    the arguments without a check: when the call is confirmed with a hash
    and the arguments have no [to], the success message of the [createAd]
    agent ends with the link "https://testnets.opensea.io/undefined". *)
Theorem invokeContract_recipient_undefined
    (wallet : Sdk.Wallet) (contractAddress method : string)
    (abi : list AbiFunction) (args : gmap string string) (log : Sdk.Log)
    (txHash : string)
    (Hpresent : method_present method abi)
    (Hconfirms : submission_confirms wallet
                   (submission contractAddress method abi args) (Some txHash))
    (Hhash : txHash ≠ "")
    (Hto : args !! "to" = None) :
  (invokeContract wallet contractAddress method abi args log).1
  = Returned ("Ad Created successfully. Transaction hash: "
              +:+ "https://sepolia.basescan.org/tx/" +:+ txHash
              +:+ " " +:+ Js.LF +:+ " "
              +:+ "https://testnets.opensea.io/undefined").
Proof.
  destruct (find_method_present _ _ Hpresent) as [func Hfind].
  destruct (submission_confirms_inv _ _ _ Hconfirms)
    as (invocation & Hsubmit & Hwait).
  destruct txHash as [|c h]; [done|].
  run_invoker. rewrite Hfind. cbn beta iota. rewrite Hsubmit.
  cbn beta iota. rewrite Hwait. cbn. by rewrite Hto.
Qed.

Lemma invokeContract_recipient_undefined_witness :
  args_without_recipient !! "to" = None ∧
  (invokeContract (stub_wallet (Some "0xdead")) AD_CONTRACT_ADDRESS "createAd"
     AD_CONTRACT_ABI args_without_recipient []).1
  = Returned ("Ad Created successfully. Transaction hash: "
              +:+ "https://sepolia.basescan.org/tx/0xdead"
              +:+ " " +:+ Js.LF +:+ " "
              +:+ "https://testnets.opensea.io/undefined").
Proof.
  split; [reflexivity|].
  assert (Hpresent : method_present "createAd" AD_CONTRACT_ABI).
  { eexists. split; [by left | reflexivity]. }
  assert (Hconfirms : submission_confirms (stub_wallet (Some "0xdead"))
            (submission AD_CONTRACT_ADDRESS "createAd" AD_CONTRACT_ABI
               args_without_recipient) (Some "0xdead")).
  { eexists _, _. repeat split; reflexivity. }
  exact (invokeContract_recipient_undefined (stub_wallet (Some "0xdead"))
           AD_CONTRACT_ADDRESS "createAd" AD_CONTRACT_ABI
           args_without_recipient [] "0xdead" Hpresent Hconfirms
           ltac:(discriminate) eq_refl).
Defined.

(** X3. The two variants of [invokeContract] differ in their success
    message only.  On every input, either they return the same string and
    leave the same log, or the method is in the ABI and the submission is
    confirmed by a receipt with a transaction hash that is not empty: then
    both add that one submission to the log, the [createAd] variant returns
    "Ad Created successfully. Transaction hash: ", the address of the
    transaction and the address of the collection of the recipient, the
    [publishAd] variant returns "Ad published successfully. Transaction
    hash: " and the address of the transaction, and the two results
    differ. *)
Theorem invokeContract_variants_agree
    (wallet : Sdk.Wallet) (contractAddress method : string)
    (abi : list AbiFunction) (args : gmap string string) (log : Sdk.Log) :
  invokeContract wallet contractAddress method abi args log
  = PublishAd.invokeContract wallet contractAddress method abi args log ∨
  ∃ txHash,
    txHash ≠ "" ∧
    method_present method abi ∧
    submission_confirms wallet (submission contractAddress method abi args)
      (Some txHash) ∧
    invokeContract wallet contractAddress method abi args log
    = (Returned ("Ad Created successfully. Transaction hash: "
                 +:+ "https://sepolia.basescan.org/tx/" +:+ txHash
                 +:+ " " +:+ Js.LF +:+ " " +:+ "https://testnets.opensea.io/"
                 +:+ Js.interpolate (args !! "to")),
       log ++ [submission contractAddress method abi args]) ∧
    PublishAd.invokeContract wallet contractAddress method abi args log
    = (Returned ("Ad published successfully. Transaction hash: "
                 +:+ "https://sepolia.basescan.org/tx/" +:+ txHash),
       log ++ [submission contractAddress method abi args]) ∧
    invokeContract wallet contractAddress method abi args log
    ≠ PublishAd.invokeContract wallet contractAddress method abi args log.
Proof.
  run_invoker.
  destruct (List.find _ abi) as [func|] eqn:Hfind; cbn beta iota;
    [|by left].
  apply find_method_some in Hfind.
  destruct (Sdk.invokeContract wallet _) as [invocation|[msg|v]] eqn:Hsubmit;
    cbn beta iota; [|by left..].
  destruct (Sdk.wait invocation) as [[[[|c h]|]]|[msg|v]] eqn:Hwait;
    cbn; try by left.
  right. exists (String c h). split; [done|]. split; [exact Hfind|].
  split; [by eexists invocation, _|].
  split; [reflexivity|]. split; [reflexivity|]. discriminate.
Qed.

(** X4. The handlers of the [create_ad] and [publish_ad] tools name a
    method that their ABI has: for every wallet and parameters, each makes
    exactly one submission, to its contract address and method, and returns
    a string.  The arguments submitted by [create_ad] hold the four fields
    of the parameters under the keys [to], [text], [title] and [imageURL],
    and no other key. *)
Theorem contract_tools_always_submit
    (wallet : Sdk.Wallet) (params : CreateAd.Params)
    (params' : PublishAdTool.Params) (log : Sdk.Log) :
  (∃ s sub,
      CreateAd.func wallet params log = (Returned s, log ++ [sub]) ∧
      Sdk.contractAddress sub = AD_CONTRACT_ADDRESS ∧
      Sdk.method sub = "createAd" ∧
      Sdk.abi sub = AD_CONTRACT_ABI ∧
      Sdk.args sub !! "to" = Some (CreateAd.to (CreateAd.args params)) ∧
      Sdk.args sub !! "text" = Some (CreateAd.text (CreateAd.args params)) ∧
      Sdk.args sub !! "title" = Some (CreateAd.title (CreateAd.args params)) ∧
      Sdk.args sub !! "imageURL"
        = Some (CreateAd.imageURL (CreateAd.args params)) ∧
      dom (Sdk.args sub)
        = ({[ "to"; "text"; "title"; "imageURL" ]} : gset string)) ∧
  (∃ s sub,
      PublishAdTool.func wallet params' log = (Returned s, log ++ [sub]) ∧
      Sdk.contractAddress sub = PublishAdTool.AD_CONTRACT_ADDRESS ∧
      Sdk.method sub = "publishAd" ∧
      Sdk.abi sub = PublishAdTool.AD_CONTRACT_ABI ∧
      Sdk.args sub !! "to"
        = Some (PublishAdTool.to (PublishAdTool.args params')) ∧
      Sdk.args sub !! "text"
        = Some (PublishAdTool.text (PublishAdTool.args params'))).
Proof.
  split.
  - unfold CreateAd.func. run_invoker. cbn [List.find AD_CONTRACT_ABI].
    rewrite bool_decide_eq_true_2 by done. cbn beta iota.
    set (sub := submission _ _ _ _).
    assert (Hargs :
      Sdk.contractAddress sub = AD_CONTRACT_ADDRESS ∧
      Sdk.method sub = "createAd" ∧
      Sdk.abi sub = AD_CONTRACT_ABI ∧
      Sdk.args sub !! "to" = Some (CreateAd.to (CreateAd.args params)) ∧
      Sdk.args sub !! "text" = Some (CreateAd.text (CreateAd.args params)) ∧
      Sdk.args sub !! "title" = Some (CreateAd.title (CreateAd.args params)) ∧
      Sdk.args sub !! "imageURL"
        = Some (CreateAd.imageURL (CreateAd.args params)) ∧
      dom (Sdk.args sub)
        = ({[ "to"; "text"; "title"; "imageURL" ]} : gset string)).
    { unfold sub, submission, CreateAd.args_object. cbn [Sdk.args
        Sdk.contractAddress Sdk.method Sdk.abi].
      repeat split; by simplify_map_eq. }
    destruct (Sdk.invokeContract wallet sub) as [invocation|[msg|v]];
      cbn beta iota; [|by eexists _, sub..].
    destruct (Sdk.wait invocation) as [[[[|c h]|]]|[msg|v]];
      cbn; by eexists _, sub.
  - unfold PublishAdTool.func. run_invoker.
    cbn [List.find PublishAdTool.AD_CONTRACT_ABI].
    rewrite bool_decide_eq_true_2 by done. cbn beta iota.
    set (sub := submission _ _ _ _).
    assert (Hargs :
      Sdk.contractAddress sub = PublishAdTool.AD_CONTRACT_ADDRESS ∧
      Sdk.method sub = "publishAd" ∧
      Sdk.abi sub = PublishAdTool.AD_CONTRACT_ABI ∧
      Sdk.args sub !! "to"
        = Some (PublishAdTool.to (PublishAdTool.args params')) ∧
      Sdk.args sub !! "text"
        = Some (PublishAdTool.text (PublishAdTool.args params'))).
    { unfold sub, submission, PublishAdTool.args_object.
      cbn [Sdk.args Sdk.contractAddress Sdk.method Sdk.abi].
      repeat split; by simplify_map_eq. }
    destruct (Sdk.invokeContract wallet sub) as [invocation|[msg|v]];
      cbn beta iota; [|by eexists _, sub..].
    destruct (Sdk.wait invocation) as [[[[|c h]|]]|[msg|v]];
      cbn; by eexists _, sub.
Qed.

(** X5. Through the [create_ad] tool the marketplace link always names the
    recipient: when the submission is confirmed by a receipt with a
    non-empty hash, the string returned contains the explorer address of
    the transaction and "https://testnets.opensea.io/" followed by the [to]
    field of the parameters. *)
Theorem create_ad_links_recipient
    (wallet : Sdk.Wallet) (params : CreateAd.Params) (log : Sdk.Log)
    (txHash : string)
    (Hconfirms : submission_confirms wallet
                   (submission AD_CONTRACT_ADDRESS "createAd" AD_CONTRACT_ABI
                      (CreateAd.args_object (CreateAd.args params)))
                   (Some txHash))
    (Hhash : txHash ≠ "") :
  ∃ s,
    (CreateAd.func wallet params log).1 = Returned s ∧
    Js.includes s ("https://sepolia.basescan.org/tx/" +:+ txHash) = true ∧
    Js.includes s ("https://testnets.opensea.io/"
                   +:+ CreateAd.to (CreateAd.args params)) = true.
Proof.
  destruct (submission_confirms_inv _ _ _ Hconfirms)
    as (invocation & Hsubmit & Hwait).
  destruct txHash as [|c h]; [done|].
  unfold CreateAd.func. run_invoker. cbn [List.find AD_CONTRACT_ABI].
  rewrite bool_decide_eq_true_2 by done. cbn beta iota.
  rewrite Hsubmit. cbn beta iota. rewrite Hwait. cbn.
  assert (CreateAd.args_object (CreateAd.args params) !! "to"
          = Some (CreateAd.to (CreateAd.args params))) as ->
    by (unfold CreateAd.args_object; by simplify_map_eq).
  eexists. split; [reflexivity|].
  unfold EXPLORER_TX_URL, OPENSEA_URL. split; solve_includes.
Qed.

Lemma create_ad_links_recipient_witness :
  ∃ s,
    (CreateAd.func (stub_wallet (Some "0xdead")) example_params []).1
      = Returned s ∧
    Js.includes s "https://sepolia.basescan.org/tx/0xdead" = true ∧
    Js.includes s "https://testnets.opensea.io/0xabc..." = true.
Proof.
  assert (Hconfirms : submission_confirms (stub_wallet (Some "0xdead"))
            (submission AD_CONTRACT_ADDRESS "createAd" AD_CONTRACT_ABI
               (CreateAd.args_object (CreateAd.args example_params)))
            (Some "0xdead")).
  { eexists _, _. repeat split; reflexivity. }
  exact (create_ad_links_recipient (stub_wallet (Some "0xdead"))
           example_params [] "0xdead" Hconfirms ltac:(discriminate)).
Defined.

(** ** The object-storage uploader, when it fails *)

(** The message of the [Error] that the uploader throws for a caught
    value. *)
Lemma upload_failure_unfold (error : Js.Thrown) :
  (if Js.instanceofError error then Js.message error else "Unknown error")
  = match error with
    | Js.ErrorObject message => message
    | Js.NonError _ => "Unknown error"
    end.
Proof. by destruct error. Qed.

(** X6. When the fetch of the image fails, [uploadImageUrlToS3] asks the
    storage service for nothing: it logs the failure and throws an [Error]
    whose message is "S3 upload failed: " followed by the message of the
    fault, or by "Unknown error" when the fault is not an [Error]. *)
Theorem uploadImageUrlToS3_fetch_fails
    (world : Outside) (imageUrl : string) (u : Uploads) (e : Js.Thrown)
    (Hfetch : axios_get world imageUrl = Js.Rejected e) :
  uploadImageUrlToS3 world imageUrl u
  = (Threw (Js.ErrorObject
              ("S3 upload failed: " +:+
               match e with
               | Js.ErrorObject message => message
               | Js.NonError _ => "Unknown error"
               end)),
     {| written := written u;
        upload_console := upload_console u ++ [Error "Error uploading to S3:"] |}).
Proof.
  unfold uploadImageUrlToS3, try_catch, mbind, eff_mbind, eff_bind, modify,
    await, throw.
  rewrite Hfetch. cbn. by rewrite upload_failure_unfold.
Qed.

Lemma uploadImageUrlToS3_fetch_fails_witness :
  uploadImageUrlToS3 failing_fetch "https://example.com/ad.png" uploads_start
  = (Threw (Js.ErrorObject
              "S3 upload failed: Request failed with status code 500"),
     {| written := [];
        upload_console := [Error "Error uploading to S3:"] |}).
Proof.
  exact (uploadImageUrlToS3_fetch_fails failing_fetch
           "https://example.com/ad.png" uploads_start _ eq_refl).
Defined.

(** X7. When the image is fetched and the storage service refuses the
    write, [uploadImageUrlToS3] has asked for that one write, of the data
    fetched, and for no other: it does not try again, returns no address,
    and throws an [Error] whose message is "S3 upload failed: " followed by
    the message of the fault, or by "Unknown error". *)
Theorem uploadImageUrlToS3_write_fails
    (world : Outside) (imageUrl data : string) (u : Uploads) (e : Js.Thrown)
    (Hfetch : axios_get world imageUrl = Js.Fulfilled data)
    (Hstore : s3_upload world (upload_params world data) = Js.Rejected e) :
  uploadImageUrlToS3 world imageUrl u
  = (Threw (Js.ErrorObject
              ("S3 upload failed: " +:+
               match e with
               | Js.ErrorObject message => message
               | Js.NonError _ => "Unknown error"
               end)),
     {| written := written u ++ [upload_params world data];
        upload_console := upload_console u ++ [Error "Error uploading to S3:"] |}).
Proof.
  unfold uploadImageUrlToS3, try_catch, s3_upload_promise, mbind, eff_mbind,
    eff_bind, modify, await, throw, eff_ret.
  rewrite Hfetch. fold (upload_params world data). rewrite Hstore.
  cbn. by rewrite upload_failure_unfold.
Qed.

Lemma uploadImageUrlToS3_write_fails_witness :
  uploadImageUrlToS3 failing_store "https://example.com/ad.png" uploads_start
  = (Threw (Js.ErrorObject "S3 upload failed: Access Denied"),
     {| written := [ {| S3.Bucket := "placeholderads";
                        S3.Key := "ad-images/1700000000000-1234.png";
                        S3.Body := "PNG";
                        S3.ContentType := "image/png" |} ];
        upload_console := [Error "Error uploading to S3:"] |}).
Proof.
  exact (uploadImageUrlToS3_write_fails failing_store
           "https://example.com/ad.png" "PNG" uploads_start _ eq_refl eq_refl).
Defined.

(** X8. On every input, [uploadImageUrlToS3], and with it the handler of
    the [upload_to_s3] tool for any wallet, ends in one of two ways.  It
    returns the address of the object under the key of the call, having
    asked for one write, of the data fetched, with the content type
    "image/png".  Or it throws an [Error] whose message starts with "S3
    upload failed: ", having asked for one write at most.  It never throws
    anything but an [Error] and never ends the process. *)
Theorem uploadImageUrlToS3_outcomes
    (world : Outside) (wallet : Sdk.Wallet) (params : S3UploadTool.Params)
    (u : Uploads) :
  let imageUrl := S3UploadTool.dallEImageUrl params in
  S3UploadTool.func world wallet params u
    = uploadImageUrlToS3 world imageUrl u ∧
  ((∃ data,
      axios_get world imageUrl = Js.Fulfilled data ∧
      uploadImageUrlToS3 world imageUrl u
      = (Returned ("https://placeholderads.s3.ap-south-1.amazonaws.com/"
                   +:+ objectKey world),
         {| written := written u ++ [upload_params world data];
            upload_console := upload_console u |})) ∨
   (∃ message u',
      uploadImageUrlToS3 world imageUrl u
        = (Threw (Js.ErrorObject message), u') ∧
      Js.startsWith message "S3 upload failed: " = true ∧
      (written u' = written u ∨ ∃ params, written u' = written u ++ [params]))).
Proof.
  intros imageUrl. split.
  - unfold S3UploadTool.func, mbind, eff_mbind, eff_bind, mret, eff_mret,
      eff_ret. fold imageUrl.
    by destruct (uploadImageUrlToS3 world imageUrl u) as [[s|e|c|] u'].
  - destruct (axios_get world imageUrl) as [data|e] eqn:Hfetch.
    + destruct (s3_upload world (upload_params world data)) as [[]|e]
        eqn:Hstore.
      * left. exists data. split; [done|].
        unfold uploadImageUrlToS3, try_catch, s3_upload_promise, mbind,
          eff_mbind, eff_bind, modify, await, throw, eff_ret, mret, eff_mret.
        rewrite Hfetch. fold (upload_params world data). by rewrite Hstore.
      * right. eexists _, _. split; [|split].
        -- unfold uploadImageUrlToS3, try_catch, s3_upload_promise, mbind,
             eff_mbind, eff_bind, modify, await, throw, eff_ret.
           rewrite Hfetch. fold (upload_params world data). rewrite Hstore.
           reflexivity.
        -- apply startsWith_app.
        -- right. by eexists.
    + right. eexists _, _. split; [|split].
      * unfold uploadImageUrlToS3, try_catch, mbind, eff_mbind, eff_bind,
          modify, await, throw.
        rewrite Hfetch. reflexivity.
      * apply startsWith_app.
      * by left.
Qed.

(** The numbers below ten thousand are written with four digits at most. *)
Lemma pretty_below_10000 (z : Z) :
  (0 ≤ z < 10000)%Z → (String.length (pretty z) ≤ 4)%nat.
Proof.
  intros Hz.
  assert (Hall : Forall (λ k : Z, (String.length (pretty k) ≤ 4)%nat)
                   (seqZ 0 10000)).
  { apply (bool_decide_eq_true_1 _). vm_compute. reflexivity. }
  rewrite Forall_forall in Hall. apply Hall, elem_of_seqZ. lia.
Qed.

(** A number that is not negative is written with one digit at least. *)
Lemma pretty_nonempty (z : Z) :
  (0 ≤ z)%Z → (1 ≤ String.length (pretty z))%nat.
Proof.
  intros Hz.
  destruct (pretty z) as [|c s] eqn:Hp; [|cbn; lia].
  exfalso.
  destruct z as [|p|p]; [done| |lia].
  unfold pretty, pretty_Z, pretty, pretty_positive, pretty, pretty_N in Hp.
  rewrite decide_False in Hp by done.
  rewrite pretty_N_go_step in Hp by lia.
  revert Hp. generalize (N.pos p `div` 10)%N.
  generalize (pretty_N_char (N.pos p `mod` 10)).
  intros a n Hp. apply (f_equal String.length) in Hp.
  assert (∀ x s, (String.length s ≤ String.length (pretty_N_go x s))%nat)
    as Hlen.
  { intros x. induction (N.lt_wf_0 x) as [x _ IH]; intros s.
    destruct (decide (x = 0)%N) as [->|Hx]; [by rewrite pretty_N_go_0|].
    rewrite pretty_N_go_step by lia.
    etrans; [|apply IH; apply N.div_lt; lia]. cbn. lia. }
  specialize (Hlen n (String a "")). rewrite Hp in Hlen. cbn in Hlen. lia.
Qed.

(** The binary64 product is not the exact one: for the random number
    108987110982366 / 2^53, whose exact product by 10000 is just below 121,
    the key shows 121. *)
Lemma random_product_rounds_up :
  Number.floor (Number.mul (Number.value Number.near_121_ten_thousandths)
                  Number.ten_thousand) = Some 121%Z
  ∧ (108987110982366 * 10000 / 2 ^ 53 = 120)%Z.
Proof. by vm_compute. Qed.

(** X9. Whatever number of the binary64 format below 1 [Math.random()]
    gives, its product by 10000, rounded to the format, is finite and
    [Math.floor] of it is an integer n from 0 to 9999; the key shows n with
    one to four digits, none of them a dash, and is "ad-images/", the time
    in milliseconds, a dash, n and ".png". *)
Theorem objectKey_shape (world : Outside) :
  ∃ n : Z,
    (0 ≤ n ≤ 9999)%Z ∧
    Number.floor (Number.mul (Number.value (Math_random world))
                    Number.ten_thousand) = Some n ∧
    (1 ≤ String.length (pretty n) ≤ 4)%nat ∧
    no_dash (pretty n) = true ∧
    objectKey world
    = "ad-images/" +:+ pretty (Date_now world) +:+ "-" +:+ pretty n
      +:+ ".png".
Proof.
  destruct (random_suffix_digits world) as (n & Hn & Hfloor & Htext).
  exists n. split; [done|]. split; [exact Hfloor|].
  split; [split; [apply pretty_nonempty | apply pretty_below_10000]; lia|].
  split; [apply pretty_Z_no_dash; lia|].
  unfold objectKey. by rewrite Htext.
Qed.

(** ** Startup, beyond the listing *)

(** X10. [validateEnvironment] ends the process, with the status 1, exactly
    when a required variable is missing.  Otherwise it returns, and all it
    writes is the warning about [NETWORK_ID], which it writes exactly when
    that variable is not set or empty: the optional variable never stops
    the startup.  It never throws. *)
Theorem validateEnvironment_exit_iff
    (env : gmap string string) (out0 : Console) :
  let run := validateEnvironment env out0 in
  ((∃ varName, varName ∈ requiredVars ∧ missing env varName) ∧
   run.1 = Exited 1%Z) ∨
  ((∀ varName, varName ∈ requiredVars → ¬ missing env varName) ∧
   run = (Returned tt,
          out0 ++ if decide (missing env "NETWORK_ID")
                  then [Warn
                    "Warning: NETWORK_ID not set, defaulting to base-sepolia testnet"]
                  else [])).
Proof.
  cbn zeta.
  destruct (filter (missing env) requiredVars) as [|v vs] eqn:Hf.
  - right.
    assert (Hset : ∀ varName, varName ∈ requiredVars → ¬ missing env varName).
    { intros w Hw Hm. by apply (filter_nil_not_elem_of _ _ w Hf). }
    split; [exact Hset|].
    rewrite (validateEnvironment_passes env out0 Hset).
    destruct (Js.truthy (env !! "NETWORK_ID")) eqn:Hn.
    + rewrite decide_False; [by rewrite app_nil_r|].
      intros Hm%truthy_false_iff. by rewrite Hn in Hm.
    + rewrite decide_True; [done|]. apply truthy_false_iff. by rewrite Hn.
  - left.
    assert (Hv : v ∈ filter (missing env) requiredVars) by (rewrite Hf; left).
    apply list_elem_of_filter in Hv as [Hm Hv].
    split; [by exists v|].
    unfold validateEnvironment. rewrite missingVars_filter, app_nil_l, Hf.
    cbn [length Nat.ltb Nat.leb].
    unfold mbind, eff_mbind, eff_bind, console_error at 1, modify,
      process_exit.
    by rewrite forEach_console_error.
Qed.

(** X11. The configuration step of [initializeAgent] starts without wallet
    data, and does not fail, when the wallet data file is absent, cannot be
    read or is empty; it passes the content of the file to the agent kit
    otherwise.  It writes on the console only when the read fails.  The
    image tool gets the value of [OPENAI_API_KEY]. *)
Theorem initializeAgent_config_wallet_data
    (env : gmap string string) (fs : FileSystem) (out0 : Console) :
  ∃ config dallE,
    initializeAgent_config env fs out0
    = (Returned (config, dallE),
       out0 ++ match fs !! WALLET_DATA_FILE with
               | Some (Js.Rejected _) => [Error "Error reading wallet data:"]
               | _ => []
               end) ∧
    cdpWalletData config
    = match fs !! WALLET_DATA_FILE with
      | Some (Js.Fulfilled (String c data)) => Some (String c data)
      | _ => None
      end ∧
    dalle_apiKey dallE = env !! "OPENAI_API_KEY".
Proof.
  unfold initializeAgent_config.
  unfold mbind, eff_mbind, eff_bind, mret, eff_mret, eff_ret, try_catch,
    await, throw, console_error, modify.
  destruct (fs !! WALLET_DATA_FILE) as [[[|c data]|e]|]; cbn;
    eexists _, _; rewrite ?app_nil_r; (split; [reflexivity|done]).
Qed.

(** X12. Once [validateEnvironment] has returned, the image tool is given a
    key that is not empty. *)
Theorem validated_environment_has_api_key
    (env : gmap string string) (fs : FileSystem) (out0 out1 : Console)
    (Hvalid : (validateEnvironment env out0).1 = Returned tt) :
  ∃ config dallE out key,
    initializeAgent_config env fs out1 = (Returned (config, dallE), out) ∧
    dalle_apiKey dallE = Some key ∧ key ≠ "".
Proof.
  destruct (decide (missing env "OPENAI_API_KEY")) as [Hm|Hset].
  - exfalso. revert Hvalid.
    unfold validateEnvironment. rewrite missingVars_filter, app_nil_l.
    assert (Hin : "OPENAI_API_KEY" ∈ filter (missing env) requiredVars).
    { apply list_elem_of_filter. split; [done | by left]. }
    destruct (filter (missing env) requiredVars) as [|w ws];
      [by apply elem_of_nil in Hin|].
    cbn [length Nat.ltb Nat.leb].
    unfold mbind, eff_mbind, eff_bind, console_error at 1, modify,
      process_exit.
    by rewrite forEach_console_error.
  - unfold missing in Hset.
    destruct (env !! "OPENAI_API_KEY") as [[|c key]|] eqn:Hkey;
      [tauto| |tauto].
    unfold initializeAgent_config.
    unfold mbind, eff_mbind, eff_bind, mret, eff_mret, eff_ret, try_catch,
      await, throw, console_error, modify.
    destruct (fs !! WALLET_DATA_FILE) as [[content|e]|]; cbn;
      eexists _, _, _, (String c key); rewrite Hkey;
      (split; [reflexivity|done]).
Qed.

Lemma validated_environment_has_api_key_witness :
  (validateEnvironment env_mainnet []).1 = Returned tt ∧
  ∃ config dallE out,
    initializeAgent_config env_mainnet ∅ [] = (Returned (config, dallE), out) ∧
    dalle_apiKey dallE = Some "sk-test".
Proof.
  split; [reflexivity|].
  destruct (validated_environment_has_api_key env_mainnet ∅ [] [] eq_refl)
    as (config & dallE & out & key & Hrun & Hkey & _).
  exists config, dallE, out. split; [exact Hrun|].
  vm_compute in Hrun. injection Hrun as _ <- _. reflexivity.
Defined.

(** The configuration step always returns; what it adds to the console
    depends on the wallet data file only. *)
Lemma initializeAgent_config_returns
    (env : gmap string string) (fs : FileSystem) (out0 : Console) :
  ∃ config dallE extra,
    initializeAgent_config env fs out0
      = (Returned (config, dallE), out0 ++ extra) ∧
    cdpWalletData config
    = match fs !! WALLET_DATA_FILE with
      | Some (Js.Fulfilled (String c data)) => Some (String c data)
      | _ => None
      end.
Proof.
  unfold initializeAgent_config.
  unfold mbind, eff_mbind, eff_bind, mret, eff_mret, eff_ret, try_catch,
    await, throw, console_error, modify.
  destruct (fs !! WALLET_DATA_FILE) as [[[|c data]|e]|]; cbn;
    try (eexists _, _, []; rewrite app_nil_r; split; reflexivity).
  eexists _, _, [_]. split; reflexivity.
Qed.

(** The configuration step, in full. *)
Lemma initializeAgent_config_value
    (env : gmap string string) (fs : FileSystem) (out0 : Console) :
  initializeAgent_config env fs out0
  = (Returned
       ({| cdpWalletData :=
             match fs !! WALLET_DATA_FILE with
             | Some (Js.Fulfilled (String c data)) => Some (String c data)
             | _ => None
             end;
           networkId := "base-sepolia" |},
        {| dalle_n := 1; dalle_model := "dall-e-3";
           dalle_apiKey := env !! "OPENAI_API_KEY" |}),
     out0 ++ wallet_read_error fs).
Proof.
  unfold initializeAgent_config, wallet_read_error.
  unfold mbind, eff_mbind, eff_bind, mret, eff_mret, eff_ret, try_catch,
    await, throw, console_error, modify.
  destruct (fs !! WALLET_DATA_FILE) as [[[|c data]|e]|]; cbn;
    by rewrite ?app_nil_r.
Qed.

(** [initializeAgent], step by step: the configuration, the agent kit, the
    export of the wallet and the write of the wallet data file. *)
Lemma initializeAgent_cases
    (env : gmap string string) (platform : Platform) (p : Process) :
  ∃ config dallE extra,
    initializeAgent_config env (files p) (console (shell p))
      = (Returned (config, dallE), console (shell p) ++ extra) ∧
    let out := console (shell p) ++ extra in
    let failed e :=
      (Threw e, with_console p (out ++ [Error "Failed to initialize agent:"]))
    in
    initializeAgent env platform p
    = match configureWithWallet platform config with
      | Js.Rejected e => failed e
      | Js.Fulfilled agentkit =>
          match exportWallet agentkit with
          | Js.Rejected e => failed e
          | Js.Fulfilled exportedWallet =>
              match writeFileSync_fault platform with
              | Some e => failed e
              | None =>
                  (Returned
                     (createReactAgent platform
                        (((ToolkitTool <$> getTools agentkit)
                          ++ [DallETool dallE; S3Tool])
                         ++ [InvokeContractTool])),
                   {| shell := shell (with_console p out);
                      files := <[ WALLET_DATA_FILE
                                  := Js.Fulfilled exportedWallet ]> (files p);
                      timers := timers p |})
              end
          end
      end.
Proof.
  destruct (initializeAgent_config_returns env (files p) (console (shell p)))
    as (config & dallE & extra & Hconfig & _).
  exists config, dallE, extra. split; [exact Hconfig|]. cbn zeta.
  unfold initializeAgent, try_catch, writeFileSync.
  unfold mbind at 1, eff_mbind, eff_bind at 1.
  unfold on_shell at 1, on_console. rewrite Hconfig.
  unfold mbind, eff_mbind, eff_bind, await, eff_ret, throw, on_shell,
    shell_write, modify, mret, eff_mret, eff_ret, with_console.
  cbn.
  destruct (configureWithWallet platform config) as [agentkit|e]; cbn;
    [|by rewrite <- app_assoc].
  destruct (exportWallet agentkit) as [exportedWallet|e]; cbn;
    [|by rewrite <- app_assoc].
  destruct (writeFileSync_fault platform) as [e|]; cbn;
    [by rewrite <- app_assoc | done].
Qed.

Lemma files_lookup_written (fs : FileSystem) (path data : string) :
  <[ path := Js.Fulfilled data ]> fs !! path = Some (Js.Fulfilled data).
Proof. unfold FileSystem in *. apply lookup_insert_eq. Qed.

Lemma files_lookup_other (fs : FileSystem) (path path' data : string) :
  path' ≠ path → <[ path := Js.Fulfilled data ]> fs !! path' = fs !! path'.
Proof. unfold FileSystem in *. intros H. by apply lookup_insert_ne. Qed.

(** X13. The wallet that one start exports is the wallet that the next
    start loads.  When the agent kit is configured, exports a wallet that
    is not empty and the write succeeds, [initializeAgent] returns and
    leaves that wallet in the wallet data file, the other files as they
    were; the configuration step of a later start, on those files, passes
    that wallet to the agent kit and writes nothing on the console. *)
Theorem initializeAgent_persists_wallet
    (env env' : gmap string string) (platform : Platform) (p : Process)
    (agentkit : Agentkit) (exportedWallet : string) (out : Console)
    (Hconfigure : ∀ config,
       configureWithWallet platform config = Js.Fulfilled agentkit)
    (Hexport : exportWallet agentkit = Js.Fulfilled exportedWallet)
    (Hwrite : writeFileSync_fault platform = None)
    (Hdata : exportedWallet ≠ "") :
  ∃ agent p',
    initializeAgent env platform p = (Returned agent, p') ∧
    files p' !! WALLET_DATA_FILE = Some (Js.Fulfilled exportedWallet) ∧
    (∀ path, path ≠ WALLET_DATA_FILE → files p' !! path = files p !! path) ∧
    ∃ config dallE,
      initializeAgent_config env' (files p') out
        = (Returned (config, dallE), out) ∧
      cdpWalletData config = Some exportedWallet.
Proof.
  destruct (initializeAgent_cases env platform p)
    as (config & dallE & extra & _ & Hrun).
  cbn zeta in Hrun. rewrite Hconfigure, Hexport, Hwrite in Hrun.
  eexists _, _. split; [exact Hrun|]. cbn [files].
  split; [exact (files_lookup_written _ _ _)|].
  split; [by intros path Hpath; apply files_lookup_other|].
  unfold initializeAgent_config.
  unfold mbind, eff_mbind, eff_bind, mret, eff_mret, eff_ret, try_catch,
    await, throw, console_error, modify.
  cbn [files]. rewrite files_lookup_written.
  destruct exportedWallet as [|c data]; [done|].
  cbn. by eexists _, _.
Qed.

Lemma initializeAgent_persists_wallet_witness :
  ∃ agent p',
    initializeAgent env_mainnet example_platform (process_start ∅)
      = (Returned agent, p') ∧
    files p' !! WALLET_DATA_FILE = Some (Js.Fulfilled "WALLET") ∧
    ∃ config dallE,
      initializeAgent_config env_mainnet (files p') []
        = (Returned (config, dallE), []) ∧
      cdpWalletData config = Some "WALLET".
Proof.
  destruct (initializeAgent_persists_wallet env_mainnet env_mainnet
              example_platform (process_start ∅) example_kit "WALLET" []
              (λ _, eq_refl) eq_refl eq_refl ltac:(discriminate))
    as (agent & p' & Hrun & Hfile & _ & Hnext).
  exists agent, p'. split; [exact Hrun|]. split; [exact Hfile | exact Hnext].
Defined.

(** X14. [initializeAgent] asks the agent kit for a wallet with the
    options made from the wallet data file, and then either returns or
    throws.  It returns when the agent kit answers, exports its wallet and
    the write succeeds: the agent returned is the one built over the tools
    of that agent kit, the image tool, the upload tool and the contract
    tool, and the wallet data file holds the wallet exported.  Otherwise it
    throws again what it caught, the fault of the agent kit, of the export
    or of the write, after the line "Failed to initialize agent:", leaving
    every file as it was.  It never ends the process itself, and in no case
    sends a message to the agent or sets a timer. *)
Theorem initializeAgent_outcomes
    (env : gmap string string) (platform : Platform) (p : Process) :
  let config := agentkit_config (files p) in
  let out := console (shell p) ++ wallet_read_error (files p) in
  ∃ outcome p',
    initializeAgent env platform p = (outcome, p') ∧
    forwarded (shell p') = forwarded (shell p) ∧
    rl_closed (shell p') = rl_closed (shell p) ∧
    timers p' = timers p ∧
    ((∃ agentkit exportedWallet,
        configureWithWallet platform config = Js.Fulfilled agentkit ∧
        exportWallet agentkit = Js.Fulfilled exportedWallet ∧
        writeFileSync_fault platform = None ∧
        outcome
        = Returned (createReactAgent platform (agent_tools env agentkit)) ∧
        files p' = <[ WALLET_DATA_FILE := Js.Fulfilled exportedWallet ]>
                     (files p) ∧
        console (shell p') = out) ∨
     (∃ e,
        outcome = Threw e ∧ files p' = files p ∧
        console (shell p') = out ++ [Error "Failed to initialize agent:"] ∧
        (configureWithWallet platform config = Js.Rejected e ∨
         (∃ agentkit,
            configureWithWallet platform config = Js.Fulfilled agentkit ∧
            exportWallet agentkit = Js.Rejected e) ∨
         (∃ agentkit exportedWallet,
            configureWithWallet platform config = Js.Fulfilled agentkit ∧
            exportWallet agentkit = Js.Fulfilled exportedWallet ∧
            writeFileSync_fault platform = Some e)))).
Proof.
  intros config out.
  destruct (initializeAgent_cases env platform p)
    as (config' & dallE & extra & Hconfig & Hrun).
  rewrite initializeAgent_config_value in Hconfig.
  injection Hconfig as <- <- <-%app_inv_head.
  cbn zeta in Hrun. fold (agentkit_config (files p)) config out in Hrun.
  destruct (configureWithWallet platform config) as [agentkit|e] eqn:Hkit.
  - destruct (exportWallet agentkit) as [exportedWallet|e] eqn:Hexport.
    + destruct (writeFileSync_fault platform) as [e|] eqn:Hwrite.
      * eexists _, _. split; [exact Hrun|]. do 3 (split; [done|]).
        right. exists e. do 3 (split; [done|]).
        right; right. by exists agentkit, exportedWallet.
      * eexists _, _. split; [exact Hrun|]. do 3 (split; [done|]).
        left. by exists agentkit, exportedWallet.
    + eexists _, _. split; [exact Hrun|]. do 3 (split; [done|]).
      right. exists e. do 3 (split; [done|]).
      right; left. by exists agentkit.
  - eexists _, _. split; [exact Hrun|]. do 3 (split; [done|]).
    right. exists e. do 3 (split; [done|]). by left.
Qed.

(** ** Chat mode, line by line *)

Lemma print_chunk_console (chunk : Chunk) (sh : Shell) :
  print_chunk chunk sh
  = (Returned tt,
     {| console := console sh ++ chunk_lines chunk;
        forwarded := forwarded sh; rl_closed := rl_closed sh |}).
Proof.
  destruct chunk; unfold print_chunk, mbind, eff_mbind, eff_bind,
    shell_write, modify, mret, eff_mret, eff_ret; cbn;
    by rewrite <- ?app_assoc.
Qed.

Lemma forEach_print_chunk_console (stream : list Chunk) (sh : Shell) :
  forEach stream print_chunk sh
  = (Returned tt,
     {| console := console sh ++ mjoin (chunk_lines <$> stream);
        forwarded := forwarded sh; rl_closed := rl_closed sh |}).
Proof.
  revert sh. induction stream as [|chunk stream IH]; intros sh.
  - destruct sh. cbn. by rewrite app_nil_r.
  - cbn [forEach]. unfold mbind, eff_mbind, eff_bind.
    rewrite print_chunk_console, IH. cbn. by rewrite <- app_assoc.
Qed.

(** One turn of the chat loop on a line that is not the exit word. *)
Lemma chat_loop_turn (agent : Agent) (line : string) (lines : list string)
    (sh : Shell) :
  Js.toLowerCase line ≠ "exit" →
  chat_loop agent (line :: lines) sh
  = let prompted := console sh ++ [Prompt (Js.LF +:+ "Prompt: ")] in
    match agent (forwarded sh) line with
    | Js.Fulfilled stream =>
        chat_loop agent lines
          {| console := prompted ++ mjoin (chunk_lines <$> stream);
             forwarded := forwarded sh ++ [line];
             rl_closed := rl_closed sh |}
    | Js.Rejected e =>
        (Threw e, {| console := prompted; forwarded := forwarded sh ++ [line];
                     rl_closed := rl_closed sh |})
    end.
Proof.
  intros Hline. cbn [chat_loop].
  rewrite bool_decide_eq_false_2 by done.
  unfold mbind, eff_mbind, eff_bind, shell_write, modify, agent_stream,
    await, eff_ret, throw.
  cbn. destruct (agent (forwarded sh) line) as [stream|e]; [|done].
  by rewrite forEach_print_chunk_console.
Qed.

(** The chat loop past the lines it forwards, with what it prints. *)
Lemma chat_loop_past (agent : Agent) (before rest : list string) (sh : Shell) :
  gets_past agent (forwarded sh) before = true →
  chat_loop agent (before ++ rest) sh
  = chat_loop agent rest
      {| console := console sh ++ chat_transcript agent (forwarded sh) before;
         forwarded := forwarded sh ++ before;
         rl_closed := rl_closed sh |}.
Proof.
  revert sh. induction before as [|line before IH]; intros sh Hpast.
  - destruct sh. cbn. by rewrite !app_nil_r.
  - cbn [gets_past] in Hpast.
    apply andb_true_iff in Hpast as [[Hline Hagent]%andb_true_iff Hpast].
    apply negb_true_iff, bool_decide_eq_false_1 in Hline.
    change ((line :: before) ++ rest) with (line :: (before ++ rest)).
    rewrite (chat_loop_turn agent line _ sh Hline). cbn zeta.
    cbn [chat_transcript].
    destruct (agent (forwarded sh) line) as [stream|e]; [|done].
    rewrite IH by done. cbn.
    by rewrite <- !app_assoc.
Qed.

(** [runChatMode], from its loop: the [catch] ends the process, the
    [finally] closes the readline interface once the loop has returned. *)
Lemma runChatMode_cases (agent : Agent) (lines : list string) :
  runChatMode agent lines shell_start
  = match chat_loop agent lines chat_start with
    | (Returned _, sh) =>
        (Returned tt, {| console := console sh; forwarded := forwarded sh;
                         rl_closed := true |})
    | (Threw e, sh) =>
        (Exited 1%Z,
         {| console := console sh ++
                       match e with
                       | Js.ErrorObject message => [Error ("Error: " +:+ message)]
                       | Js.NonError _ => []
                       end;
            forwarded := forwarded sh; rl_closed := rl_closed sh |})
    | (Exited code, sh) => (Exited code, sh)
    | (Pending, sh) => (Pending, sh)
    end.
Proof.
  unfold runChatMode, try_finally, try_catch.
  unfold mbind at 1, eff_mbind, eff_bind at 1. cbn [shell_write modify].
  change (chat_loop agent lines _) with (chat_loop agent lines chat_start).
  destruct (chat_loop agent lines chat_start) as [[[]|e|code|] sh];
    try done.
  unfold mbind, eff_mbind, eff_bind, shell_write, modify, process_exit,
    mret, eff_mret, eff_ret.
  destruct e as [message|v]; cbn; [done|].
  destruct sh. cbn. by rewrite app_nil_r.
Qed.

Lemma chat_transcript_app (agent : Agent) (history a b : list string) :
  chat_transcript agent history (a ++ b)
  = chat_transcript agent history a ++ chat_transcript agent (history ++ a) b.
Proof.
  revert history. induction a as [|line a IH]; intros history.
  - by rewrite app_nil_r.
  - cbn. rewrite IH, <- !app_assoc. done.
Qed.

(** X15. When the agent session fails on a line that chat mode forwards,
    the process ends with the status 1: the line has been forwarded, the
    lines after it are not read, the message of the fault is printed after
    "Error: " if the fault is an [Error] and nothing is printed if it is
    not, and the readline interface is not closed. *)
Theorem runChatMode_agent_rejects
    (agent : Agent) (before after : list string) (line : string)
    (e : Js.Thrown)
    (Hpast : gets_past agent [] before = true)
    (Hline : Js.toLowerCase line ≠ "exit")
    (Hreject : agent before line = Js.Rejected e) :
  runChatMode agent (before ++ line :: after) shell_start
  = (Exited 1%Z,
     {| console :=
          Log "Starting chat mode... Type 'exit' to end."
          :: chat_transcript agent [] (before ++ [line])
          ++ match e with
             | Js.ErrorObject message => [Error ("Error: " +:+ message)]
             | Js.NonError _ => []
             end;
        forwarded := before ++ [line];
        rl_closed := false |}).
Proof.
  rewrite runChatMode_cases, (chat_loop_past agent before) by done.
  rewrite chat_loop_turn by done. cbn. rewrite Hreject.
  rewrite chat_transcript_app. cbn. rewrite Hreject.
  by rewrite <- ?app_assoc.
Qed.

Lemma runChatMode_agent_rejects_witness :
  gets_past (tiring_agent (Js.ErrorObject "rate limit")) [] ["hello"] = true ∧
  runChatMode (tiring_agent (Js.ErrorObject "rate limit"))
    (["hello"] ++ "more" :: ["exit"]) shell_start
  = (Exited 1%Z,
     {| console :=
          [ Log "Starting chat mode... Type 'exit' to end.";
            Prompt (Js.LF +:+ "Prompt: ");
            Log "hello"; Log "-------------------";
            Log "done"; Log "-------------------";
            Prompt (Js.LF +:+ "Prompt: ");
            Error "Error: rate limit" ];
        forwarded := ["hello"; "more"];
        rl_closed := false |}).
Proof.
  split; [reflexivity|].
  exact (runChatMode_agent_rejects (tiring_agent (Js.ErrorObject "rate limit"))
           ["hello"] ["exit"] "more" _ eq_refl ltac:(discriminate) eq_refl).
Defined.

(** X17. A chat that the agent answers and that is ended by the exit word
    returns with the readline interface closed; the messages forwarded are
    the lines before the exit word, in their order; the console shows the
    greeting, then for each line the prompt and, for each chunk of the
    answer, its content and the separator, and last the prompt at which
    the exit word was typed.  The lines after the exit word change
    nothing. *)
Theorem runChatMode_transcript
    (agent : Agent) (lines after : list string) (exit_word : string)
    (Hpast : gets_past agent [] lines = true)
    (Hexit : Js.toLowerCase exit_word = "exit") :
  runChatMode agent (lines ++ exit_word :: after) shell_start
  = (Returned tt,
     {| console :=
          Log "Starting chat mode... Type 'exit' to end."
          :: chat_transcript agent [] lines
          ++ [Prompt (Js.LF +:+ "Prompt: ")];
        forwarded := lines;
        rl_closed := true |}).
Proof.
  rewrite runChatMode_cases, (chat_loop_past agent lines) by done.
  cbn [chat_loop]. rewrite bool_decide_eq_true_2 by done.
  cbn. by rewrite <- ?app_assoc.
Qed.

Lemma runChatMode_transcript_witness :
  gets_past echo_agent [] ["hello"; "Exit now"] = true ∧
  runChatMode echo_agent (["hello"; "Exit now"] ++ "eXiT" :: ["ignored"])
    shell_start
  = (Returned tt,
     {| console :=
          [ Log "Starting chat mode... Type 'exit' to end.";
            Prompt (Js.LF +:+ "Prompt: ");
            Log "hello"; Log "-------------------";
            Prompt (Js.LF +:+ "Prompt: ");
            Log "Exit now"; Log "-------------------";
            Prompt (Js.LF +:+ "Prompt: ") ];
        forwarded := ["hello"; "Exit now"];
        rl_closed := true |}).
Proof.
  split; [reflexivity|].
  exact (runChatMode_transcript echo_agent ["hello"; "Exit now"] ["ignored"]
           "eXiT" eq_refl eq_refl).
Defined.

(** X18. A chat whose lines are all answered and never the exit word does
    not end: after the last line the loop has forwarded every line, prompts
    again and waits, with the readline interface open.  With no line at
    all, it waits at its first prompt. *)
Theorem runChatMode_input_ends
    (agent : Agent) (lines : list string)
    (Hpast : gets_past agent [] lines = true) :
  runChatMode agent lines shell_start
  = (Pending,
     {| console :=
          Log "Starting chat mode... Type 'exit' to end."
          :: chat_transcript agent [] lines
          ++ [Prompt (Js.LF +:+ "Prompt: ")];
        forwarded := lines;
        rl_closed := false |}).
Proof.
  rewrite runChatMode_cases.
  rewrite <- (app_nil_r lines) at 1.
  rewrite (chat_loop_past agent lines) by done.
  cbn. by rewrite <- ?app_assoc.
Qed.

Lemma runChatMode_input_ends_witness :
  gets_past echo_agent [] [] = true ∧
  runChatMode echo_agent [] shell_start
  = (Pending,
     {| console := [ Log "Starting chat mode... Type 'exit' to end.";
                     Prompt (Js.LF +:+ "Prompt: ") ];
        forwarded := [];
        rl_closed := false |}).
Proof.
  split; [reflexivity|].
  exact (runChatMode_input_ends echo_agent [] eq_refl).
Defined.

(** What the chat loop keeps, whatever the lines and the agent: it forwards
    lines in the order typed, without a gap, and none that is the exit
    word; it neither ends the process nor closes the readline interface. *)
Lemma chat_loop_invariant (agent : Agent) (lines : list string) (sh : Shell) :
  ∃ outcome sh' sent,
    chat_loop agent lines sh = (outcome, sh') ∧
    forwarded sh' = forwarded sh ++ sent ∧
    sent `prefix_of` lines ∧
    Forall (λ line, Js.toLowerCase line ≠ "exit") sent ∧
    rl_closed sh' = rl_closed sh ∧
    (∀ code, outcome ≠ Exited code).
Proof.
  revert sh. induction lines as [|line lines IH]; intros sh.
  - eexists _, _, []. split; [reflexivity|]. cbn.
    by rewrite app_nil_r.
  - destruct (decide (Js.toLowerCase line = "exit")) as [Hexit|Hline].
    + eexists _, _, []. cbn [chat_loop].
      rewrite bool_decide_eq_true_2 by done.
      split; [reflexivity|]. cbn. rewrite app_nil_r.
      repeat split; [apply prefix_nil | done..].
    + rewrite (chat_loop_turn agent line lines sh Hline). cbn zeta.
      destruct (agent (forwarded sh) line) as [stream|e].
      * match goal with
        | |- context [chat_loop agent lines ?s] =>
            destruct (IH s) as (outcome & sh' & sent & -> & Hf & Hp & Hs & Hc & Ho)
        end.
        exists outcome, sh', (line :: sent). split; [done|].
        cbn in Hf, Hc. rewrite Hf, <- app_assoc.
        repeat split; [by apply prefix_cons | by constructor | done..].
      * eexists _, _, [line]. split; [reflexivity|]. cbn.
        repeat split;
          [apply prefix_cons, prefix_nil | by repeat constructor | done..].
Qed.

(** X16. Whatever the lines typed and whatever the agent does, chat mode
    forwards to the agent session a run of the first lines typed, unchanged
    and in their order, none of them the exit word in any case of its
    letters.  It ends in one of three ways only: it returns, and then the
    readline interface is closed; it ends the process with the status 1;
    or it waits for a line.  It never throws. *)
Theorem runChatMode_forwards_prefix (agent : Agent) (lines : list string) :
  ∃ outcome sh,
    runChatMode agent lines shell_start = (outcome, sh) ∧
    forwarded sh `prefix_of` lines ∧
    Forall (λ line, ¬ equal_up_to_case line "exit") (forwarded sh) ∧
    ((outcome = Returned tt ∧ rl_closed sh = true) ∨
     (outcome = Exited 1%Z ∧ rl_closed sh = false) ∨
     (outcome = Pending ∧ rl_closed sh = false)).
Proof.
  rewrite runChatMode_cases.
  destruct (chat_loop_invariant agent lines chat_start)
    as (outcome & sh & sent & -> & Hf & Hp & Hs & Hc & Ho).
  cbn in Hf, Hc. subst sent.
  assert (Hnone : Forall (λ line, ¬ equal_up_to_case line "exit")
                    (forwarded sh)).
  { eapply Forall_impl; [exact Hs|]. intros line Hline Heq.
    by apply Hline, (toLowerCase_eq_iff line "exit" eq_refl). }
  destruct outcome as [[]|e|code|].
  - eexists _, _. split; [reflexivity|]. cbn. by repeat split; [..|left].
  - eexists _, _. split; [reflexivity|]. cbn.
    by repeat split; [..|right; left].
  - by destruct (Ho code).
  - eexists _, _. split; [reflexivity|]. by repeat split; [..|right; right].
Qed.

(** ** The mode chooser *)

(** One turn of [chooseMode]. *)
Lemma chooseMode_turn (line : string) (lines : list string) (sh : Shell) :
  chooseMode (line :: lines) sh
  = match choice_of line with
    | Some mode =>
        (Returned (mode, lines),
         {| console := console sh ++ mode_menu; forwarded := forwarded sh;
            rl_closed := true |})
    | None =>
        chooseMode lines
          {| console := console sh ++ rejected_choice;
             forwarded := forwarded sh; rl_closed := rl_closed sh |}
    end.
Proof.
  cbn [chooseMode]. unfold choice_of.
  unfold mbind, eff_mbind, eff_bind, shell_write, modify, rl_close,
    mret, eff_mret, eff_ret.
  cbn beta iota zeta.
  destruct (bool_decide (Js.trim (Js.toLowerCase line) = "1")
            || bool_decide (Js.trim (Js.toLowerCase line) = "chat")).
  { cbn. by rewrite <- !app_assoc. }
  destruct (bool_decide (Js.trim (Js.toLowerCase line) = "2")
            || bool_decide (Js.trim (Js.toLowerCase line) = "auto")).
  { cbn. by rewrite <- !app_assoc. }
  cbn. unfold rejected_choice. by rewrite <- !app_assoc.
Qed.

(** X19. [chooseMode] returns the mode of the first line that names one
    ("1" or "chat", "2" or "auto", in any case, with white space around),
    and leaves the lines after it unread.  For each line before it, it has
    shown the menu and answered "Invalid choice. Please try again."; it
    closes its readline interface and sends nothing to the agent. *)
Theorem chooseMode_first_valid
    (before rest : list string) (line : string) (mode : Mode) (sh : Shell)
    (Hbefore : Forall (λ l, choice_of l = None) before)
    (Hline : choice_of line = Some mode) :
  chooseMode (before ++ line :: rest) sh
  = (Returned (mode, rest),
     {| console := console sh
                   ++ mjoin ((λ _, rejected_choice) <$> before)
                   ++ mode_menu;
        forwarded := forwarded sh;
        rl_closed := true |}).
Proof.
  revert sh. induction Hbefore as [|l before Hl _ IH]; intros sh.
  - cbn [app]. by rewrite chooseMode_turn, Hline.
  - change ((l :: before) ++ line :: rest)
      with (l :: (before ++ line :: rest)).
    rewrite chooseMode_turn, Hl, IH. cbn.
    by rewrite <- !app_assoc.
Qed.

Lemma chooseMode_first_valid_witness :
  Forall (λ l, choice_of l = None) [""; "3"; "chat mode"] ∧
  choice_of "  AUTO" = Some Auto ∧
  ∃ sh,
    chooseMode ([""; "3"; "chat mode"] ++ "  AUTO" :: ["exit"]) shell_start
      = (Returned (Auto, ["exit"]), sh) ∧
    forwarded sh = [] ∧ rl_closed sh = true.
Proof.
  assert (Hbefore : Forall (λ l, choice_of l = None) [""; "3"; "chat mode"])
    by (repeat constructor).
  split; [exact Hbefore|]. split; [reflexivity|].
  eexists. split.
  - exact (chooseMode_first_valid [""; "3"; "chat mode"] ["exit"] "  AUTO"
             Auto shell_start Hbefore eq_refl).
  - split; reflexivity.
Defined.

(** X20. [chooseMode] returns no mode unless a line names one: when no line
    does (and when there is no line at all), it has answered each line
    with the complaint, shows the menu again and waits, its readline
    interface left as it was. *)
Theorem chooseMode_no_valid (lines : list string) (sh : Shell)
    (Hlines : Forall (λ l, choice_of l = None) lines) :
  chooseMode lines sh
  = (Pending,
     {| console := console sh
                   ++ mjoin ((λ _, rejected_choice) <$> lines)
                   ++ mode_menu;
        forwarded := forwarded sh;
        rl_closed := rl_closed sh |}).
Proof.
  revert sh. induction Hlines as [|l lines Hl _ IH]; intros sh.
  - cbn. unfold mbind, eff_mbind, eff_bind, shell_write, modify, pending.
    cbn. by rewrite <- !app_assoc.
  - rewrite chooseMode_turn, Hl, IH. cbn. by rewrite <- !app_assoc.
Qed.

Lemma chooseMode_no_valid_witness :
  Forall (λ l, choice_of l = None) ["chat!"; "0"] ∧
  (chooseMode ["chat!"; "0"] shell_start).1 = Pending.
Proof.
  assert (Hlines : Forall (λ l, choice_of l = None) ["chat!"; "0"])
    by (repeat constructor).
  split; [exact Hlines|].
  by rewrite (chooseMode_no_valid ["chat!"; "0"] shell_start Hlines).
Defined.

(** ** Autonomous mode *)

(** One round of the autonomous loop. *)
Lemma autonomous_round (agent : Agent) (interval : Z) (rounds : nat)
    (p : Process) :
  autonomous_loop agent interval (S rounds) p
  = match agent (forwarded (shell p)) AUTONOMOUS_THOUGHT with
    | Js.Fulfilled stream =>
        autonomous_loop agent interval rounds
          {| shell :=
               {| console := console (shell p) ++ mjoin (chunk_lines <$> stream);
                  forwarded := forwarded (shell p) ++ [AUTONOMOUS_THOUGHT];
                  rl_closed := rl_closed (shell p) |};
             files := files p;
             timers := timers p ++ [(interval * 1000)%Z] |}
    | Js.Rejected e =>
        (Exited 1%Z,
         {| shell :=
              {| console := console (shell p) ++
                            match e with
                            | Js.ErrorObject message =>
                                [Error ("Error: " +:+ message)]
                            | Js.NonError _ => []
                            end;
                 forwarded := forwarded (shell p) ++ [AUTONOMOUS_THOUGHT];
                 rl_closed := rl_closed (shell p) |};
            files := files p;
            timers := timers p |})
    end.
Proof.
  cbn [autonomous_loop].
  unfold try_catch, on_shell, agent_stream, sleep, modify, await, throw,
    eff_ret, process_exit.
  unfold mbind, eff_mbind, eff_bind. cbn.
  destruct (agent (forwarded (shell p)) AUTONOMOUS_THOUGHT) as [stream|e]; cbn.
  - by rewrite forEach_print_chunk_console.
  - destruct e as [message|v]; cbn; [done|].
    unfold mret, eff_mret, eff_ret. cbn. by rewrite app_nil_r.
Qed.

Lemma autonomous_loop_invariant (agent : Agent) (interval : Z) (rounds : nat)
    (p : Process) :
  ∃ outcome p' sent slept,
    autonomous_loop agent interval rounds p = (outcome, p') ∧
    forwarded (shell p')
      = forwarded (shell p) ++ replicate sent AUTONOMOUS_THOUGHT ∧
    timers p' = timers p ++ replicate slept (interval * 1000)%Z ∧
    files p' = files p ∧
    ((outcome = Pending ∧ sent = rounds ∧ slept = rounds) ∨
     (outcome = Exited 1%Z ∧ sent ≤ rounds ∧ sent = S slept)).
Proof.
  revert p. induction rounds as [|rounds IH]; intros p.
  - exists Pending, p, 0, 0. cbn. rewrite !app_nil_r. by repeat split; [left].
  - rewrite autonomous_round.
    destruct (agent (forwarded (shell p)) AUTONOMOUS_THOUGHT) as [stream|e].
    + match goal with
      | |- context [autonomous_loop agent interval rounds ?q] =>
          destruct (IH q)
            as (outcome & p' & sent & slept & -> & Hf & Ht & Hfiles & Hend)
      end.
      cbn in Hf, Ht, Hfiles.
      exists outcome, p', (S sent), (S slept). split; [done|].
      rewrite Hf, Ht, <- !app_assoc. repeat split; [done|].
      destruct Hend as [(-> & -> & ->)|(-> & Hle & ->)];
        [by left | right; repeat split; lia].
    + eexists _, _, 1, 0. split; [reflexivity|]. cbn.
      rewrite app_nil_r. repeat split. right. repeat split; lia.
Qed.

(** X21. Autonomous mode never returns and never throws.  Watched for any
    number of rounds, it is either still running, having sent its fixed
    instruction once per round and slept [interval] seconds after each; or
    it has ended the process with the status 1 on the first round that the
    agent failed, without sleeping after it.  Every message it sends is
    that instruction, whatever the agent answers; it writes no file. *)
Theorem runAutonomousMode_never_returns
    (agent : Agent) (interval : Z) (rounds : nat) (p : Process) :
  ∃ outcome p' sent slept,
    runAutonomousMode agent interval rounds p = (outcome, p') ∧
    forwarded (shell p')
      = forwarded (shell p) ++ replicate sent AUTONOMOUS_THOUGHT ∧
    timers p' = timers p ++ replicate slept (interval * 1000)%Z ∧
    files p' = files p ∧
    ((outcome = Pending ∧ sent = rounds ∧ slept = rounds) ∨
     (outcome = Exited 1%Z ∧ sent ≤ rounds ∧ sent = S slept)).
Proof.
  unfold runAutonomousMode.
  unfold mbind at 1, eff_mbind, eff_bind at 1, on_shell, shell_write, modify.
  cbn.
  match goal with
  | |- context [autonomous_loop agent interval rounds ?q] =>
      destruct (autonomous_loop_invariant agent interval rounds q)
        as (outcome & p' & sent & slept & Hrun & Hrest)
  end.
  exists outcome, p', sent, slept. split; [exact Hrun | exact Hrest].
Qed.

Lemma autonomous_loop_answered (agent : Agent) (interval : Z) (rounds : nat)
    (p : Process) :
  (∀ history,
     ∃ stream, agent history AUTONOMOUS_THOUGHT = Js.Fulfilled stream) →
  ∃ p',
    autonomous_loop agent interval rounds p = (Pending, p') ∧
    forwarded (shell p')
      = forwarded (shell p) ++ replicate rounds AUTONOMOUS_THOUGHT ∧
    timers p' = timers p ++ replicate rounds (interval * 1000)%Z.
Proof.
  intros Hanswers. revert p. induction rounds as [|rounds IH]; intros p.
  - exists p. cbn. by rewrite !app_nil_r.
  - rewrite autonomous_round.
    destruct (Hanswers (forwarded (shell p))) as [stream ->].
    match goal with
    | |- context [autonomous_loop agent interval rounds ?q] =>
        destruct (IH q) as (p' & -> & Hf & Ht)
    end.
    exists p'. split; [done|]. cbn in Hf, Ht.
    by rewrite Hf, Ht, <- !app_assoc.
Qed.

(** X22. With an agent that answers every message, autonomous mode watched
    for [rounds] rounds is still running: it has sent the instruction
    [rounds] times and asked for [rounds] delays of [interval] times 1000
    milliseconds. *)
Theorem runAutonomousMode_all_answered
    (agent : Agent) (interval : Z) (rounds : nat) (p : Process)
    (Hanswers : ∀ history,
       ∃ stream, agent history AUTONOMOUS_THOUGHT = Js.Fulfilled stream) :
  ∃ p',
    runAutonomousMode agent interval rounds p = (Pending, p') ∧
    forwarded (shell p')
      = forwarded (shell p) ++ replicate rounds AUTONOMOUS_THOUGHT ∧
    timers p' = timers p ++ replicate rounds (interval * 1000)%Z.
Proof.
  unfold runAutonomousMode.
  unfold mbind at 1, eff_mbind, eff_bind at 1, on_shell, shell_write, modify.
  cbn.
  match goal with
  | |- context [autonomous_loop agent interval rounds ?q] =>
      destruct (autonomous_loop_answered agent interval rounds q Hanswers)
        as (p' & Hrun & Hrest)
  end.
  exists p'. split; [exact Hrun | exact Hrest].
Qed.

Lemma runAutonomousMode_all_answered_witness :
  (∀ history,
     ∃ stream, echo_agent history AUTONOMOUS_THOUGHT = Js.Fulfilled stream) ∧
  ∃ p',
    runAutonomousMode echo_agent DEFAULT_INTERVAL 2 (process_start ∅)
      = (Pending, p') ∧
    forwarded (shell p') = [AUTONOMOUS_THOUGHT; AUTONOMOUS_THOUGHT] ∧
    timers p' = [10000%Z; 10000%Z].
Proof.
  assert (Hanswers : ∀ history,
    ∃ stream, echo_agent history AUTONOMOUS_THOUGHT = Js.Fulfilled stream)
    by (intros history; by eexists).
  split; [exact Hanswers|].
  exact (runAutonomousMode_all_answered echo_agent DEFAULT_INTERVAL 2
           (process_start ∅) Hanswers).
Defined.

(** ** The entry point *)

Lemma validateEnvironment_exits (env : gmap string string) (out0 : Console) :
  (∃ varName, varName ∈ requiredVars ∧ missing env varName) →
  ∃ out, validateEnvironment env out0 = (Exited 1%Z, out0 ++ out).
Proof.
  intros (v & Hv & Hm).
  unfold validateEnvironment. rewrite missingVars_filter, app_nil_l.
  assert (Hin : v ∈ filter (missing env) requiredVars)
    by (by apply list_elem_of_filter).
  destruct (filter (missing env) requiredVars) as [|w ws];
    [by apply elem_of_nil in Hin|].
  cbn [length Nat.ltb Nat.leb].
  unfold mbind, eff_mbind, eff_bind, console_error at 1, modify, process_exit.
  rewrite forEach_console_error, <- app_assoc. by eexists.
Qed.

(** [chooseMode] returns a mode or waits; it sends nothing to the agent. *)
Lemma chooseMode_outcomes (lines : list string) (sh : Shell) :
  ∃ sh',
    forwarded sh' = forwarded sh ∧
    (chooseMode lines sh = (Pending, sh') ∨
     ∃ mode rest, chooseMode lines sh = (Returned (mode, rest), sh') ∧
                  rest `suffix_of` lines).
Proof.
  revert sh. induction lines as [|line lines IH]; intros sh.
  - eexists. split; [|left; reflexivity]. done.
  - rewrite chooseMode_turn. destruct (choice_of line) as [mode|].
    + eexists. split; [|right; eexists _, _; split; [reflexivity|]]; [done|].
      by apply suffix_cons_r.
    + match goal with
      | |- context [chooseMode lines ?s] =>
          destruct (IH s) as (sh' & Hf & Hrun)
      end.
      exists sh'. split; [done|].
      destruct Hrun as [->|(mode & rest & -> & Hs)]; [by left|].
      right. exists mode, rest. split; [done | by apply suffix_cons_r].
Qed.

(** [runChatMode] from any shell. *)
Lemma runChatMode_from (agent : Agent) (lines : list string) (sh : Shell) :
  runChatMode agent lines sh
  = match chat_loop agent lines
            (shell_with_console sh
               (console sh ++ [Log "Starting chat mode... Type 'exit' to end."]))
    with
    | (Returned _, sh') =>
        (Returned tt, {| console := console sh'; forwarded := forwarded sh';
                         rl_closed := true |})
    | (Threw e, sh') =>
        (Exited 1%Z, shell_with_console sh' (console sh' ++ error_line e))
    | (Exited code, sh') => (Exited code, sh')
    | (Pending, sh') => (Pending, sh')
    end.
Proof.
  unfold runChatMode, try_finally, try_catch.
  unfold mbind at 1, eff_mbind, eff_bind at 1. cbn [shell_write modify].
  fold (shell_with_console sh
          (console sh ++ [Log "Starting chat mode... Type 'exit' to end."])).
  destruct (chat_loop agent lines _) as [[[]|e|code|] sh']; try done.
  unfold mbind, eff_mbind, eff_bind, shell_write, modify, process_exit,
    mret, eff_mret, eff_ret, shell_with_console.
  destruct e as [message|v]; cbn; [done|].
  destruct sh'. cbn. by rewrite app_nil_r.
Qed.

(** Chat mode, from any shell, adds lines typed to the messages forwarded
    and returns, exits with the status 1 or waits. *)
Lemma runChatMode_outcomes (agent : Agent) (lines : list string) (sh : Shell) :
  ∃ outcome sh' sent,
    runChatMode agent lines sh = (outcome, sh') ∧
    forwarded sh' = forwarded sh ++ sent ∧
    sent `prefix_of` lines ∧
    (outcome = Returned tt ∨ outcome = Exited 1%Z ∨ outcome = Pending).
Proof.
  rewrite runChatMode_from.
  match goal with
  | |- context [chat_loop agent lines ?s] =>
      destruct (chat_loop_invariant agent lines s)
        as (outcome & sh' & sent & -> & Hf & Hp & _ & _ & Ho)
  end.
  cbn in Hf.
  destruct outcome as [[]|e|code|].
  - eexists _, _, sent. split; [reflexivity|]. cbn. by repeat split; [..|left].
  - eexists _, _, sent. split; [reflexivity|]. cbn.
    by repeat split; [..|right; left].
  - by destruct (Ho code).
  - eexists _, _, sent. split; [reflexivity|].
    by repeat split; [..|right; right].
Qed.

(** [main], from its steps: a throw of any of them is reported and ends the
    process with the status 1. *)
Lemma main_cases (env : gmap string string) (platform : Platform)
    (lines : list string) (rounds : nat) (p : Process) :
  main env platform lines rounds p
  = match initializeAgent env platform p with
    | (Returned agent, p1) =>
        match chooseMode lines (reopened (shell p1)) with
        | (Returned (Chat, rest), sh2) =>
            match runChatMode agent rest (reopened sh2) with
            | (Threw e, sh3) => (Exited 1%Z, after_catch (with_shell p1 sh3) e)
            | (outcome, sh3) => (outcome, with_shell p1 sh3)
            end
        | (Returned (Auto, rest), sh2) =>
            match runAutonomousMode agent DEFAULT_INTERVAL rounds
                    (with_shell p1 sh2) with
            | (Threw e, p3) => (Exited 1%Z, after_catch p3 e)
            | r => r
            end
        | (Threw e, sh2) => (Exited 1%Z, after_catch (with_shell p1 sh2) e)
        | (Exited code, sh2) => (Exited code, with_shell p1 sh2)
        | (Pending, sh2) => (Pending, with_shell p1 sh2)
        end
    | (Threw e, p1) => (Exited 1%Z, after_catch p1 e)
    | (Exited code, p1) => (Exited code, p1)
    | (Pending, p1) => (Pending, p1)
    end.
Proof.
  unfold main, try_catch.
  unfold mbind at 1, eff_mbind, eff_bind at 1.
  destruct (initializeAgent env platform p) as [[agent|e|code|] p1];
    [|by destruct e|done..].
  unfold mbind at 1, eff_mbind, eff_bind at 1.
  unfold on_shell at 1, rl_create at 1, modify. cbn beta iota.
  fold (reopened (shell p1)).
  unfold mbind at 1, eff_mbind, eff_bind at 1. unfold on_shell at 1.
  cbn [shell files timers].
  destruct (chooseMode lines (reopened (shell p1)))
    as [[[[|] rest]|e|code|] sh2]; cbn beta iota;
    [| |by destruct e|done..].
  - unfold mbind at 1, eff_mbind, eff_bind at 1.
    unfold on_shell, rl_create, modify. cbn [shell files timers fst snd].
    fold (reopened sh2).
    destruct (runChatMode agent rest (reopened sh2)) as [[[]|e|code|] sh3];
      try done.
    by destruct e.
  - cbn [fst snd]. fold (with_shell p1 sh2).
    destruct (runAutonomousMode agent DEFAULT_INTERVAL rounds _)
      as [[[]|e|code|] p3]; try done.
    by destruct e.
Qed.

(** The script, from the validation and [main]. *)
Lemma program_cases (env : gmap string string) (platform : Platform)
    (lines : list string) (rounds : nat) (p : Process) :
  program env platform lines rounds p
  = match validateEnvironment env (console (shell p)) with
    | (Returned _, out) =>
        match main env platform lines rounds
                (with_shell p
                   (shell_with_console (shell p)
                      (out ++ [Log "Starting Agent..."]))) with
        | (Threw e, p') =>
            (Exited 1%Z,
             with_shell p'
               (shell_with_console (shell p')
                  (console (shell p') ++ [Error "Fatal error:"])))
        | r => r
        end
    | (Threw e, out) =>
        (Threw e, with_shell p (shell_with_console (shell p) out))
    | (Exited code, out) =>
        (Exited code, with_shell p (shell_with_console (shell p) out))
    | (Pending, out) =>
        (Pending, with_shell p (shell_with_console (shell p) out))
    end.
Proof.
  unfold program, try_catch.
  unfold mbind at 1, eff_mbind, eff_bind at 1.
  unfold on_shell at 1, on_console.
  destruct (validateEnvironment env (console (shell p)))
    as [[[]|e|code|] out]; done.
Qed.

Lemma missing_required_dec (env : gmap string string) :
  (∃ varName, varName ∈ requiredVars ∧ missing env varName) ∨
  (∀ varName, varName ∈ requiredVars → ¬ missing env varName).
Proof.
  destruct (filter (missing env) requiredVars) as [|v vs] eqn:Hf.
  - right. intros w Hw Hm. by apply (filter_nil_not_elem_of _ _ w Hf).
  - left. exists v.
    assert (Hv : v ∈ filter (missing env) requiredVars) by (rewrite Hf; left).
    by apply list_elem_of_filter in Hv as [? ?].
Qed.

(** X23. A missing required variable stops the script before anything
    else happens: it ends with the status 1 having written the listing of
    the validation and nothing more, not even its greeting; it has changed
    no file, sent nothing to the agent and set no timer, whatever the
    platform and the lines typed. *)
Theorem program_missing_variable_stops
    (env : gmap string string) (platform : Platform) (lines : list string)
    (rounds : nat) (fs : FileSystem)
    (Hmissing : ∃ varName, varName ∈ requiredVars ∧ missing env varName) :
  ∃ out,
    validateEnvironment env [] = (Exited 1%Z, out) ∧
    program env platform lines rounds (process_start fs)
    = (Exited 1%Z,
       {| shell := {| console := out; forwarded := []; rl_closed := false |};
          files := fs; timers := [] |}).
Proof.
  destruct (validateEnvironment_exits env [] Hmissing) as [out Hrun].
  exists out. split; [exact Hrun|].
  rewrite program_cases. cbn [process_start shell shell_start console].
  by rewrite Hrun.
Qed.

Lemma program_missing_variable_stops_witness :
  (∃ varName, varName ∈ requiredVars ∧ missing env_two_missing varName) ∧
  program env_two_missing example_platform ["chat"; "hello"] 3
    (process_start ∅)
  = (Exited 1%Z,
     {| shell :=
          {| console :=
               [ Error "Error: Required environment variables are not set";
                 Error "CDP_API_KEY_NAME=your_cdp_api_key_name_here";
                 Error "CDP_API_KEY_PRIVATE_KEY=your_cdp_api_key_private_key_here" ];
             forwarded := []; rl_closed := false |};
        files := ∅; timers := [] |}).
Proof.
  assert (Hmissing :
    ∃ varName, varName ∈ requiredVars ∧ missing env_two_missing varName).
  { exists "CDP_API_KEY_NAME". split; [|right; reflexivity].
    right. left. }
  split; [exact Hmissing|].
  destruct (program_missing_variable_stops env_two_missing example_platform
              ["chat"; "hello"] 3 ∅ Hmissing) as (out & Hout & Hrun).
  rewrite Hrun. vm_compute in Hout. by injection Hout as <-.
Defined.

Lemma initializeAgent_returns_or_throws
    (env : gmap string string) (platform : Platform) (p : Process) :
  ∃ p1,
    forwarded (shell p1) = forwarded (shell p) ∧
    ((∃ agent, initializeAgent env platform p = (Returned agent, p1)) ∨
     (∃ e, initializeAgent env platform p = (Threw e, p1))).
Proof.
  destruct (initializeAgent_cases env platform p)
    as (config & dallE & extra & _ & Hrun).
  cbn zeta in Hrun.
  destruct (configureWithWallet platform config) as [agentkit|e];
    [|eexists; split; [|right; by eexists]; done].
  destruct (exportWallet agentkit) as [exportedWallet|e];
    [|eexists; split; [|right; by eexists]; done].
  destruct (writeFileSync_fault platform) as [e|];
    [eexists; split; [|right; by eexists]; done|].
  eexists; split; [|left; by eexists]; done.
Qed.

Lemma after_catch_forwarded (p : Process) (e : Js.Thrown) :
  forwarded (shell (after_catch p e)) = forwarded (shell p).
Proof. by destruct e. Qed.

(** [main] returns (when a chat is ended by its exit word), ends the process
    with the status 1, or waits; it never throws.  The messages it sends to
    the agent are lines typed or the instruction of autonomous mode. *)
Lemma main_outcomes (env : gmap string string) (platform : Platform)
    (lines : list string) (rounds : nat) (p : Process) :
  ∃ outcome p' sent,
    main env platform lines rounds p = (outcome, p') ∧
    forwarded (shell p') = forwarded (shell p) ++ sent ∧
    Forall (λ message, message ∈ lines ∨ message = AUTONOMOUS_THOUGHT) sent ∧
    (outcome = Returned tt ∨ outcome = Exited 1%Z ∨ outcome = Pending).
Proof.
  rewrite main_cases.
  destruct (initializeAgent_returns_or_throws env platform p)
    as (p1 & Hf1 & [[agent ->]|[e ->]]).
  2:{ eexists _, _, []. split; [reflexivity|].
      rewrite after_catch_forwarded, Hf1, app_nil_r.
      by repeat split; [..|right; left]. }
  destruct (chooseMode_outcomes lines (reopened (shell p1)))
    as (sh2 & Hf2 & [->|(mode & rest & -> & Hrest)]).
  { eexists _, _, []. split; [reflexivity|]. cbn.
    rewrite Hf2, app_nil_r. cbn. by repeat split; [..|right; right]. }
  cbn in Hf2. destruct mode.
  - destruct (runChatMode_outcomes agent rest (reopened sh2))
      as (outcome & sh3 & sent & -> & Hf3 & Hp & Ho).
    cbn in Hf3. rewrite Hf2, Hf1 in Hf3.
    exists outcome, (with_shell p1 sh3), sent.
    split; [by destruct Ho as [->|[->| ->]]|].
    split; [done|]. split; [|done].
    apply Forall_forall. intros message Hin. left.
    destruct Hp as [k ->]. destruct Hrest as [k' ->].
    rewrite !elem_of_app. by right; left.
  - unfold runAutonomousMode.
    unfold mbind at 1, eff_mbind, eff_bind at 1, on_shell, shell_write,
      modify.
    cbn [shell files timers with_shell].
    match goal with
    | |- context [autonomous_loop agent _ rounds ?q] =>
        destruct (autonomous_loop_invariant agent DEFAULT_INTERVAL rounds q)
          as (outcome & p3 & sent & slept & -> & Hf3 & _ & _ & Ho)
    end.
    cbn in Hf3. rewrite Hf2, Hf1 in Hf3.
    exists outcome, p3, (replicate sent AUTONOMOUS_THOUGHT).
    split; [by destruct Ho as [(-> & _)|(-> & _)]|].
    split; [done|]. split.
    + apply Forall_forall. intros message [-> _]%elem_of_replicate. by right.
    + destruct Ho as [(-> & _)|(-> & _)]; [by right; right | by right; left].
Qed.

(** X24. Whatever the environment, the platform, the lines typed and the
    files, the script never ends by a throw: it returns (after a chat ended
    by the exit word), ends the process with the status 1, or waits.  Every
    message it has sent to the agent is a line that was typed or the fixed
    instruction of autonomous mode. *)
Theorem program_never_throws
    (env : gmap string string) (platform : Platform) (lines : list string)
    (rounds : nat) (fs : FileSystem) :
  ∃ outcome p',
    program env platform lines rounds (process_start fs) = (outcome, p') ∧
    (outcome = Returned tt ∨ outcome = Exited 1%Z ∨ outcome = Pending) ∧
    Forall (λ message, message ∈ lines ∨ message = AUTONOMOUS_THOUGHT)
      (forwarded (shell p')).
Proof.
  rewrite program_cases. cbn [process_start shell shell_start console].
  destruct (missing_required_dec env) as [Hmissing|Hset].
  - destruct (validateEnvironment_exits env [] Hmissing) as [out ->].
    eexists _, _. split; [reflexivity|]. split; [by right; left|].
    by apply Forall_nil.
  - rewrite (validateEnvironment_passes env [] Hset).
    match goal with
    | |- context [main env platform lines rounds ?q] =>
        destruct (main_outcomes env platform lines rounds q)
          as (outcome & p' & sent & -> & Hf & Hsent & Ho)
    end.
    cbn in Hf. exists outcome, p'.
    split; [by destruct Ho as [->|[->| ->]]|].
    split; [done | by rewrite Hf].
Qed.

(** [initializeAgent] on a platform that cannot configure the wallet. *)
Lemma initializeAgent_offline
    (env : gmap string string) (platform : Platform) (p : Process)
    (e : Js.Thrown) :
  (∀ config, configureWithWallet platform config = Js.Rejected e) →
  initializeAgent env platform p
  = (Threw e,
     with_console p
       ((console (shell p) ++ wallet_read_error (files p))
        ++ [Error "Failed to initialize agent:"])).
Proof.
  intros Hconfigure.
  destruct (initializeAgent_cases env platform p)
    as (config & dallE & extra & Hconfig & Hrun).
  rewrite initializeAgent_config_value in Hconfig.
  injection Hconfig as _ _ Hextra. apply app_inv_head in Hextra as <-.
  cbn zeta in Hrun. by rewrite Hconfigure in Hrun.
Qed.

(** [initializeAgent] on a platform where every step succeeds. *)
Lemma initializeAgent_succeeds
    (env : gmap string string) (platform : Platform) (p : Process)
    (agentkit : Agentkit) (exportedWallet : string) :
  (∀ config, configureWithWallet platform config = Js.Fulfilled agentkit) →
  exportWallet agentkit = Js.Fulfilled exportedWallet →
  writeFileSync_fault platform = None →
  initializeAgent env platform p
  = (Returned (createReactAgent platform (agent_tools env agentkit)),
     {| shell := shell (with_console p
                          (console (shell p) ++ wallet_read_error (files p)));
        files := <[ WALLET_DATA_FILE := Js.Fulfilled exportedWallet ]> (files p);
        timers := timers p |}).
Proof.
  intros Hconfigure Hexport Hwrite.
  destruct (initializeAgent_cases env platform p)
    as (config & dallE & extra & Hconfig & Hrun).
  rewrite initializeAgent_config_value in Hconfig.
  injection Hconfig as _ <- Hextra. apply app_inv_head in Hextra as <-.
  cbn zeta in Hrun. by rewrite Hconfigure, Hexport, Hwrite in Hrun.
Qed.

(** X25. When the environment is valid and the wallet cannot be configured,
    the script ends with the status 1 without asking for a mode: after its
    greeting it reports the failure twice, "Failed to initialize agent:"
    and "Error: " with the message of the fault (when the fault is an
    [Error]); it reads no line, changes no file and sends nothing to the
    agent. *)
Theorem program_initialization_fails
    (env : gmap string string) (platform : Platform) (lines : list string)
    (rounds : nat) (fs : FileSystem) (e : Js.Thrown)
    (Hset : ∀ varName, varName ∈ requiredVars → ¬ missing env varName)
    (Hconfigure : ∀ config, configureWithWallet platform config = Js.Rejected e) :
  program env platform lines rounds (process_start fs)
  = (Exited 1%Z,
     {| shell :=
          {| console :=
               network_warning env ++ [Log "Starting Agent..."]
               ++ wallet_read_error fs
               ++ [Error "Failed to initialize agent:"] ++ error_line e;
             forwarded := []; rl_closed := false |};
        files := fs; timers := [] |}).
Proof.
  rewrite program_cases. cbn [process_start shell shell_start console].
  rewrite (validateEnvironment_passes env [] Hset).
  rewrite main_cases, (initializeAgent_offline _ _ _ e Hconfigure).
  unfold network_warning, with_console, with_shell, shell_with_console.
  cbn [shell files timers console forwarded rl_closed].
  destruct e as [message|v]; cbn [after_catch error_line];
    unfold with_shell, shell_with_console; cbn;
    destruct (Js.truthy (env !! "NETWORK_ID")); cbn;
    by rewrite <- ?app_assoc, ?app_nil_r.
Qed.

Lemma program_initialization_fails_witness :
  (∀ varName, varName ∈ requiredVars → ¬ missing env_mainnet varName) ∧
  program env_mainnet offline_platform ["chat"; "hello"] 3 (process_start ∅)
  = (Exited 1%Z,
     {| shell :=
          {| console := [ Log "Starting Agent...";
                          Error "Failed to initialize agent:";
                          Error "Error: network down" ];
             forwarded := []; rl_closed := false |};
        files := ∅; timers := [] |}).
Proof.
  assert (Hset : ∀ varName,
            varName ∈ requiredVars → ¬ missing env_mainnet varName).
  { intros varName Hin Hm. apply list_elem_of_In in Hin.
    destruct Hin as [<-|[<-|[<-|[]]]]; by destruct Hm. }
  split; [exact Hset|].
  exact (program_initialization_fails env_mainnet offline_platform
           ["chat"; "hello"] 3 ∅ _ Hset (λ _, eq_refl)).
Defined.

(** The chat loop reads its shell through the messages forwarded only: two
    shells that agree on them go the same way. *)
Lemma chat_loop_frame (agent : Agent) (lines : list string) (sh sh0 : Shell) :
  forwarded sh = forwarded sh0 →
  ∃ outcome s s0,
    chat_loop agent lines sh = (outcome, s) ∧
    chat_loop agent lines sh0 = (outcome, s0) ∧
    forwarded s = forwarded s0.
Proof.
  revert sh sh0. induction lines as [|line lines IH]; intros sh sh0 Hf.
  - eexists _, _, _. split; [reflexivity|]. split; [reflexivity|]. done.
  - destruct (decide (Js.toLowerCase line = "exit")) as [Hexit|Hline].
    + cbn [chat_loop]. rewrite bool_decide_eq_true_2 by done.
      eexists _, _, _. split; [reflexivity|]. split; [reflexivity|]. done.
    + rewrite !chat_loop_turn by done. cbn zeta. rewrite Hf.
      destruct (agent (forwarded sh0) line) as [stream|e].
      * by apply IH.
      * eexists _, _, _. split; [reflexivity|]. split; [reflexivity|]. done.
Qed.

(** Chat mode goes the same way from two shells that agree on the messages
    forwarded. *)
Lemma runChatMode_frame (agent : Agent) (lines : list string) (sh sh0 : Shell) :
  forwarded sh = forwarded sh0 → rl_closed sh = rl_closed sh0 →
  ∃ outcome s s0,
    runChatMode agent lines sh = (outcome, s) ∧
    runChatMode agent lines sh0 = (outcome, s0) ∧
    forwarded s = forwarded s0 ∧ rl_closed s = rl_closed s0 ∧
    (∀ e, outcome ≠ Threw e).
Proof.
  intros Hf Hc. rewrite !runChatMode_from.
  set (a := shell_with_console sh _). set (b := shell_with_console sh0 _).
  destruct (chat_loop_frame agent lines a b Hf)
    as (outcome & s & s0 & Ha & Hb & Hfs).
  destruct (chat_loop_invariant agent lines a)
    as (? & ? & ? & Ha' & _ & _ & _ & Hca & _).
  destruct (chat_loop_invariant agent lines b)
    as (? & ? & ? & Hb' & _ & _ & _ & Hcb & _).
  rewrite Ha in Ha'. injection Ha' as <- <-.
  rewrite Hb in Hb'. injection Hb' as <- <-.
  cbn in Hca, Hcb. rewrite Ha, Hb.
  destruct outcome as [[]|e|code|]; eexists _, _, _;
    (split; [reflexivity|]); (split; [reflexivity|]); cbn;
    repeat split; try done; congruence.
Qed.

(** [chooseMode] past the lines that name no mode. *)
Lemma chooseMode_skips (before rest : list string) (sh : Shell) :
  Forall (λ l, choice_of l = None) before →
  chooseMode (before ++ rest) sh
  = chooseMode rest
      (shell_with_console sh
         (console sh ++ mjoin ((λ _, rejected_choice) <$> before))).
Proof.
  intros Hbefore. revert sh.
  induction Hbefore as [|l before Hl _ IH]; intros sh.
  - destruct sh. unfold shell_with_console. cbn. by rewrite app_nil_r.
  - change ((l :: before) ++ rest) with (l :: (before ++ rest)).
    rewrite chooseMode_turn, Hl, IH. unfold shell_with_console. cbn.
    by rewrite <- !app_assoc.
Qed.

(** X26. With a valid environment and a platform on which initialization
    succeeds, choosing the chat mode hands the lines typed after the choice
    to chat mode, with the agent built over the tools of the toolkit, the
    image tool, the upload tool and the contract tool: the script ends as
    [runChatMode] does on those lines, has forwarded the same messages, set
    no timer, and left the exported wallet in the wallet data file. *)
Theorem program_chat_dispatch
    (env : gmap string string) (platform : Platform) (rounds : nat)
    (fs : FileSystem) (agentkit : Agentkit) (exportedWallet : string)
    (before rest : list string) (line : string)
    (Hset : ∀ varName, varName ∈ requiredVars → ¬ missing env varName)
    (Hconfigure : ∀ config,
       configureWithWallet platform config = Js.Fulfilled agentkit)
    (Hexport : exportWallet agentkit = Js.Fulfilled exportedWallet)
    (Hwrite : writeFileSync_fault platform = None)
    (Hbefore : Forall (λ l, choice_of l = None) before)
    (Hline : choice_of line = Some Chat) :
  let agent := createReactAgent platform (agent_tools env agentkit) in
  ∃ outcome p' sh',
    program env platform (before ++ line :: rest) rounds (process_start fs)
      = (outcome, p') ∧
    runChatMode agent rest shell_start = (outcome, sh') ∧
    forwarded (shell p') = forwarded sh' ∧
    rl_closed (shell p') = rl_closed sh' ∧
    timers p' = [] ∧
    files p' = <[ WALLET_DATA_FILE := Js.Fulfilled exportedWallet ]> fs.
Proof.
  intros agent.
  rewrite program_cases. cbn [process_start shell shell_start console].
  rewrite (validateEnvironment_passes env [] Hset).
  rewrite main_cases.
  rewrite (initializeAgent_succeeds env platform _ agentkit exportedWallet)
    by done.
  fold agent.
  rewrite (chooseMode_skips before (line :: rest) _ Hbefore).
  rewrite chooseMode_turn, Hline.
  match goal with
  | |- context [runChatMode agent rest ?s] =>
      destruct (runChatMode_frame agent rest s shell_start eq_refl eq_refl)
        as (outcome & s1 & s0 & Hrun & Hrun0 & Hf & Hc & Ho);
      rewrite Hrun
  end.
  exists outcome. eexists _, s0.
  split; [|split; [exact Hrun0|]].
  - destruct outcome as [[]|e|code|]; [reflexivity| |reflexivity..].
    by destruct (Ho e).
  - by repeat split.
Qed.

Lemma env_mainnet_valid :
  ∀ varName, varName ∈ requiredVars → ¬ missing env_mainnet varName.
Proof.
  intros varName Hin Hm. apply list_elem_of_In in Hin.
  destruct Hin as [<-|[<-|[<-|[]]]]; by destruct Hm.
Defined.

Lemma program_chat_dispatch_witness :
  ∃ p',
    program env_mainnet example_platform (["3"] ++ "chat" :: ["hi"; "EXIT"; "z"])
      0 (process_start ∅) = (Returned tt, p') ∧
    forwarded (shell p') = ["hi"] ∧
    files p' = <[ WALLET_DATA_FILE := Js.Fulfilled "WALLET" ]> ∅.
Proof.
  destruct (program_chat_dispatch env_mainnet example_platform 0 ∅
              example_kit "WALLET" ["3"] ["hi"; "EXIT"; "z"] "chat"
              env_mainnet_valid (λ _, eq_refl) eq_refl eq_refl
              ltac:(repeat constructor) eq_refl)
    as (outcome & p' & sh' & Hrun & Hchat & Hf & _ & _ & Hfiles).
  vm_compute in Hchat. injection Hchat as <- <-.
  exists p'. split; [exact Hrun|]. split; [exact Hf | exact Hfiles].
Defined.

(** X27. With a valid environment and a platform on which initialization
    succeeds, choosing the autonomous mode starts the loop with its default
    interval of ten seconds: the script never returns, every message it
    sends is the fixed instruction, each delay it asks for is 10000
    milliseconds, and the lines typed after the choice are never read. *)
Theorem program_auto_dispatch
    (env : gmap string string) (platform : Platform) (rounds : nat)
    (fs : FileSystem) (agentkit : Agentkit) (exportedWallet : string)
    (before rest : list string) (line : string)
    (Hset : ∀ varName, varName ∈ requiredVars → ¬ missing env varName)
    (Hconfigure : ∀ config,
       configureWithWallet platform config = Js.Fulfilled agentkit)
    (Hexport : exportWallet agentkit = Js.Fulfilled exportedWallet)
    (Hwrite : writeFileSync_fault platform = None)
    (Hbefore : Forall (λ l, choice_of l = None) before)
    (Hline : choice_of line = Some Auto) :
  ∃ outcome p' sent slept,
    program env platform (before ++ line :: rest) rounds (process_start fs)
      = (outcome, p') ∧
    forwarded (shell p') = replicate sent AUTONOMOUS_THOUGHT ∧
    timers p' = replicate slept 10000%Z ∧
    ((outcome = Pending ∧ sent = rounds ∧ slept = rounds) ∨
     (outcome = Exited 1%Z ∧ sent ≤ rounds ∧ sent = S slept)).
Proof.
  rewrite program_cases. cbn [process_start shell shell_start console].
  rewrite (validateEnvironment_passes env [] Hset).
  rewrite main_cases.
  rewrite (initializeAgent_succeeds env platform _ agentkit exportedWallet)
    by done.
  rewrite (chooseMode_skips before (line :: rest) _ Hbefore).
  rewrite chooseMode_turn, Hline.
  unfold runAutonomousMode.
  unfold mbind at 1, eff_mbind, eff_bind at 1, on_shell, shell_write, modify.
  cbn [shell files timers with_shell].
  match goal with
  | |- context [autonomous_loop ?agent _ rounds ?q] =>
      destruct (autonomous_loop_invariant agent DEFAULT_INTERVAL rounds q)
        as (outcome & p3 & sent & slept & -> & Hf & Ht & _ & Ho)
  end.
  cbn in Hf, Ht. exists outcome, p3, sent, slept.
  split; [by destruct Ho as [(-> & _)|(-> & _)]|]. done.
Qed.

Lemma program_auto_dispatch_witness :
  ∃ outcome p',
    program env_mainnet example_platform ([] ++ "2" :: ["exit"]) 2
      (process_start ∅) = (outcome, p') ∧
    forwarded (shell p') = [AUTONOMOUS_THOUGHT; AUTONOMOUS_THOUGHT] ∧
    timers p' = [10000%Z; 10000%Z].
Proof.
  destruct (program_auto_dispatch env_mainnet example_platform 2 ∅
              example_kit "WALLET" [] ["exit"] "2"
              env_mainnet_valid (λ _, eq_refl) eq_refl eq_refl
              ltac:(constructor) eq_refl)
    as (outcome & p' & sent & slept & Hrun & Hf & Ht & Ho).
  exists outcome, p'. split; [exact Hrun|].
  vm_compute in Hrun. injection Hrun as <- <-. by split.
Defined.
